(** * rtl-sdr-fft: the radix-2 transform and the two pipeline stages

    A shallow embedding of [src/fft.hpp] and [src/rtl-sdr-fft.cpp].

    Conventions of the embedding:
    - a [size_t] is a [Z] taken modulo [2^64], an [int] a [Z] taken into
      [[-2^31, 2^31)]; the conversions are written out where the source
      converts ([to_size], [to_int]);
    - a buffer [complex<T>* iq] of [N] elements is a [list]; an access
      outside the list has no defined behaviour in C++ and makes the
      embedded function return [None], and so does a loop that never
      exits;
    - the two streams the program writes are lists of text lines. *)

From stdpp Require Import base list option numbers strings pretty.
From Stdlib Require Import ZArith Lia Reals Lra.
From Stdlib.Strings Require Import Byte.

#[local] Open Scope Z_scope.

(** ** Machine integers *)

Module Mach.

Definition size_bits : Z := 64.
Definition int_bits : Z := 32.

(** Conversion to [size_t]: reduction modulo [2^64]. *)
Definition to_size (z : Z) : Z := z mod 2 ^ size_bits.

(** Conversion to [int]: the two's complement value of the low 32 bits. *)
Definition to_int (z : Z) : Z :=
  (z + 2 ^ (int_bits - 1)) mod 2 ^ int_bits - 2 ^ (int_bits - 1).

Definition INT_MAX : Z := 2 ^ (int_bits - 1) - 1.
Definition INT_MIN : Z := - 2 ^ (int_bits - 1).

End Mach.

(** ** Buffers: a pointer and a length *)

Section Buffer.
Context {A : Type}.

(** [iq[i]] read. *)
Definition get (iq : list A) (i : Z) : option A :=
  if bool_decide (0 ≤ i) then iq !! Z.to_nat i else None.

(** [iq[i] = x]. *)
Definition set (iq : list A) (i : Z) (x : A) : option (list A) :=
  if bool_decide (0 ≤ i < Z.of_nat (length iq))
  then Some (<[Z.to_nat i := x]> iq) else None.

(** [std::swap(iq[i], iq[j])]. *)
Definition swap (iq : list A) (i j : Z) : option (list A) :=
  x ← get iq i;
  y ← get iq j;
  iq' ← set iq i y;
  set iq' j x.

End Buffer.

(** ** fft.hpp: the two reorders *)

(** What one iteration of the loop of [fft_reorder_samples] did: the loop
    index [n], the step [l] the inner loop stopped at, the new running
    index [m], and whether the two samples were exchanged. *)
Record reorder_step := ReorderStep {
  rs_n : Z;
  rs_l : Z;
  rs_m : Z;
  rs_swapped : bool
}.

Section Reorder.
Context {A : Type}.

(** The exit test of the inner loop, [m + l >= N], evaluated in [size_t]
    ([l] is an [int] and is converted). *)
Definition halve_again (N m l : Z) : bool :=
  bool_decide (N ≤ Mach.to_size (m + l)).

(** [do l /= 2; while (m + l >= N);]  An [int] has reached [0] after 32
    halvings and stays there, so a test that still holds after the 32nd
    halving holds forever: [None] is a loop that never exits. *)
Fixpoint do_halve (fuel : nat) (N m l : Z) : option Z :=
  let l' := Z.quot l 2 in
  if halve_again N m l' then
    match fuel with
    | O => None
    | S fuel' => do_halve fuel' N m l'
    end
  else Some l'.

(** [m = (m & (l - 1)) + l;] in [size_t]. *)
Definition next_m (m l : Z) : Z :=
  Mach.to_size (Z.land m (Mach.to_size (l - 1)) + l).

(** The body of [for (size_t n = 1, m = 0; n < N; ++n)], [cnt] iterations
    from the state [(n, m)]. The result is the buffer and the record of
    the iterations. *)
Fixpoint reorder_loop (cnt : nat) (N n m : Z) (iq : list A)
  : option (list A * list reorder_step) :=
  match cnt with
  | O => Some (iq, [])
  | S cnt' =>
      l ← do_halve (Z.to_nat Mach.int_bits) N m (Mach.to_int N);
      let m' := next_m m l in
      if bool_decide (m' ≤ n) then
        r ← reorder_loop cnt' N (n + 1) m' iq;
        Some (r.1, ReorderStep n l m' false :: r.2)
      else
        iq1 ← swap iq n m';
        r ← reorder_loop cnt' N (n + 1) m' iq1;
        Some (r.1, ReorderStep n l m' true :: r.2)
  end.

(** The loop runs for [n = 1, ..., N - 1]. *)
Definition fft_reorder_samples_log (iq : list A) (N : Z)
  : option (list A * list reorder_step) :=
  reorder_loop (Z.to_nat (N - 1)) N 1 0 iq.

Definition fft_reorder_samples (iq : list A) (N : Z) : option (list A) :=
  fst <$> fft_reorder_samples_log iq N.

(** [for (size_t n = 0; n < (N / 2); ++n) std::swap(iq[n], iq[n + (N / 2)]);] *)
Fixpoint coefficients_loop (cnt : nat) (N n : Z) (iq : list A)
  : option (list A) :=
  match cnt with
  | O => Some iq
  | S cnt' =>
      iq1 ← swap iq n (n + N / 2);
      coefficients_loop cnt' N (n + 1) iq1
  end.

Definition fft_reorder_coefficients (iq : list A) (N : Z) : option (list A) :=
  coefficients_loop (Z.to_nat (N / 2)) N 0 iq.

End Reorder.

(** The pairs of positions the iterations exchanged, in order. *)
Definition swaps (log : list reorder_step) : list (Z * Z) :=
  omap (λ s, if rs_swapped s then Some (rs_n s, rs_m s) else None) log.

(** Reversal of the low [k] bits of [n]. *)
Fixpoint bitrev (k : nat) (n : Z) : Z :=
  match k with
  | O => 0
  | S k' => 2 ^ Z.of_nat k' * (n mod 2) + bitrev k' (n / 2)
  end.

(** ** Counted loops *)

Section Loops.
Context {St : Type}.

(** [for (i = lo; i < hi; i += step) s = body(i, s)].  Each iteration
    with [step ≥ 1] brings [i] closer to [hi], so [hi - lo] iterations
    are enough; with [step ≤ 0] the test never changes and the loop
    never exits, which is [None]. *)
Fixpoint for_fuel (fuel : nat) (i hi step : Z)
    (body : Z → St → option St) (s : St) : option St :=
  if bool_decide (i < hi) then
    match fuel with
    | O => None
    | S fuel' =>
        s' ← body i s;
        for_fuel fuel' (i + step) hi step body s'
    end
  else Some s.

Definition for_range (lo hi step : Z) (body : Z → St → option St) (s : St)
  : option St :=
  for_fuel (Z.to_nat (hi - lo)) lo hi step body s.

End Loops.

(** ** The numeric types *)

(** The interface [fft] asks of its template parameter [complex<T>]:
    the three operators of the butterfly. *)
Class Numeric (C : Type) := {
  num_add : C → C → C;
  num_sub : C → C → C;
  num_mul : C → C → C
}.

(** The operators [complex<T>] asks of its parts. A quotient may be
    undefined ([None]: division by zero). *)
Class Scalar (T : Type) := {
  sc_add : T → T → T;
  sc_sub : T → T → T;
  sc_mul : T → T → T;
  sc_div : T → T → option T
}.

(** Modelled from the spec: [fixq15.hpp] is not under src/. A fixed-point
    number is its scaled integer [value] (scale [1/32768]); a [fixq15] is
    built from the scaled integer; sums and differences are exact; a
    product is taken in a wider integer and shifted right by 15; a
    quotient rescales the dividend first and divides as C++ divides
    integers. The integer is taken wide enough never to overflow. *)
Module Fixq15.

Definition Q15 : Z := 32768.

Record fixq15 := FixQ15 { value : Z }.

#[global] Instance fixq15_eq_dec : EqDecision fixq15.
Proof. solve_decision. Defined.

Definition add (a b : fixq15) : fixq15 := FixQ15 (value a + value b).
Definition sub (a b : fixq15) : fixq15 := FixQ15 (value a - value b).
Definition mul (a b : fixq15) : fixq15 :=
  FixQ15 (Z.shiftr (value a * value b) 15).
Definition div (a b : fixq15) : option fixq15 :=
  if bool_decide (value b = 0) then None
  else Some (FixQ15 (Z.quot (value a * Q15) (value b))).

#[global] Instance fixq15_scalar : Scalar fixq15 :=
  {| sc_add := add; sc_sub := sub; sc_mul := mul; sc_div := div |}.

End Fixq15.

(** Modelled from the spec: [complex.hpp] is not under src/. A
    [complex<T>] is its two parts; the operators are the textbook ones,
    written with the operators of [T]. *)
Module Complex.

Record complex (T : Type) := Complex { real : T; imag : T }.
#[global] Arguments Complex {T} _ _.
#[global] Arguments real {T} _.
#[global] Arguments imag {T} _.

#[global] Instance complex_eq_dec {T} `{EqDecision T} : EqDecision (complex T).
Proof. solve_decision. Defined.

Section Ops.
Context {T : Type} `{Scalar T}.

Definition add (a b : complex T) : complex T :=
  Complex (sc_add (real a) (real b)) (sc_add (imag a) (imag b)).
Definition sub (a b : complex T) : complex T :=
  Complex (sc_sub (real a) (real b)) (sc_sub (imag a) (imag b)).
Definition mul (a b : complex T) : complex T :=
  Complex (sc_sub (sc_mul (real a) (real b)) (sc_mul (imag a) (imag b)))
          (sc_add (sc_mul (real a) (imag b)) (sc_mul (imag a) (real b))).
Definition div_scalar (a : complex T) (d : T) : option (complex T) :=
  re ← sc_div (real a) d;
  im ← sc_div (imag a) d;
  Some (Complex re im).

#[global] Instance complex_numeric : Numeric (complex T) :=
  {| num_add := add; num_sub := sub; num_mul := mul |}.
End Ops.

End Complex.

(** [using iq_t = ymn::complex<ymn::fixq15>;] *)
Abbreviation fixq15 := Fixq15.fixq15.
Abbreviation Q15 := Fixq15.Q15.
Abbreviation iq_t := (Complex.complex Fixq15.fixq15).

(** [iq_t(re, im)] from the two scaled integers. *)
Definition iq (re im : Z) : iq_t :=
  Complex.Complex (Fixq15.FixQ15 re) (Fixq15.FixQ15 im).

(** ** fft.hpp: the transform *)

(** Modelled from the spec: [ilog2.hpp] is not under src/; [ilog2(N)] is
    the spec's [log2(N)], the exponent of the power of two [N]. *)
Definition ilog2 (N : Z) : Z := Z.log2 N.

Section FFT.
Context {C : Type} `{Numeric C}.

(** The body of the innermost loop of [fft]. *)
Definition butterfly (e : list C) (mh j r : Z) (iq : list C)
  : option (list C) :=
  u ← get iq (r + j);
  x ← get iq (r + j + mh);
  w ← get e j;
  let v := num_mul x w in
  iq1 ← set iq (r + j) (num_add u v);
  set iq1 (r + j + mh) (num_sub u v).

(** One pass: [for j in [0, mh)], [for r = 0; r < N; r += m]. *)
Definition fft_pass (e : list C) (N log2_n : Z) (iq : list C)
  : option (list C) :=
  let mh := Z.shiftl 1 log2_n in
  let m := mh * 2 in
  for_range 0 mh 1
    (λ j, for_range 0 (Mach.to_int N) m (butterfly e mh j)) iq.

Definition fft (iq e : list C) (N : Z) : option (list C) :=
  iq1 ← fft_reorder_samples iq N;
  let log2_N := ilog2 N in
  iq2 ← for_range 0 log2_N 1 (fft_pass e N) iq1;
  fft_reorder_coefficients iq2 N.

End FFT.

(** ** rtl-sdr-fft.cpp *)

Definition FFT_SIZE_MAX : Z := 8 * 1024.
Definition IQBUF_SIZE : Z := FFT_SIZE_MAX * 2.
Definition IDLE_LOOPS_NUM : Z := 1.

(** *** The twiddle table *)

(** [round] of the C library on a real number: to the nearest integer,
    halves away from zero. The [double]s of the source are taken as the
    real numbers they stand for, and [cos], [sin] and [M_PI] as the real
    functions and [PI]. *)
Definition c_round (x : R) : Z :=
  if Rle_dec 0 x then Int_part (x + / 2) else - Int_part (- x + / 2).

(** The value stored at [e[i]]. *)
Definition twiddle (i N : Z) : iq_t :=
  let x := (2 * PI * IZR i / IZR N)%R in
  iq (c_round (IZR Q15 * cos x)) (c_round (IZR Q15 * sin x)).

Definition generate_e_2pi_i (e : list iq_t) (N : Z) : option (list iq_t) :=
  for_range 0 N 1 (λ i e, set e i (twiddle i N)) e.

(** [std::make_unique<iq_t[]>(n)]: [n] value-initialised elements, for
    [n >= 0]; the callers deal with a negative [n] before. *)
Definition make_unique_iq (n : Z) : list iq_t :=
  replicate (Z.to_nat n) (iq 0 0).

(** The two statements of [main] that build the table:
    [e_2pi_i = std::make_unique<iq_t[]>(fft_size);
     generate_e_2pi_i(e_2pi_i.get(), fft_size);] *)
Definition main_table (fft_size : Z) : option (list iq_t) :=
  generate_e_2pi_i (make_unique_iq fft_size) fft_size.

(** *** DC removal *)

Definition remove_dc (iqbuf : list iq_t) (N : Z) : option (list iq_t) :=
  sum ← for_range 0 N 1
          (λ n sum, x ← get iqbuf n; Some (Complex.add sum x)) (iq 0 0);
  average ← Complex.div_scalar sum (Fixq15.FixQ15 (N * Q15));
  if bool_decide (average = iq 0 0) then Some iqbuf
  else
    for_range 0 N 1
      (λ n iq, x ← get iq n; set iq n (Complex.sub x average)) iqbuf.

(** *** What the stages share *)

(** The options after parsing: [frequency], [bandwidth], [fft_size]. *)
Record config := Config {
  frequency : Z;
  bandwidth : Z;
  fft_size : Z
}.

(** The output file [fp] and [stderr], as the lines written so far, and
    the [static std::size_t counter] of the producer. *)
Record world := World {
  fp : list string;
  err : list string;
  counter : Z
}.

Definition fprintf_fp (w : world) (line : string) : world :=
  World (fp w ++ [line]) (err w) (counter w).

Definition fprintf_stderr (w : world) (line : string) : world :=
  World (fp w) (err w ++ [line]) (counter w).

(** Modelled from the spec: [ringbuffer.hpp] is not under src/. The two
    calls the stages make, each returning the [long] the source compares
    with [1] (one buffer moved): [read] also yields the buffer it moved,
    if any. *)
Class RingBuffer (Q B : Type) := {
  rb_read : Q → Z * option B * Q;
  rb_write : Q → B → Z * Q;
  rb_to_string : Q → string
}.

(** Modelled from the spec: the BoundedQueue of the spec, §4.2. [write]
    accepts into a free slot unless the queue is closed or full; [read]
    removes the oldest buffer, and tells an empty open queue from an
    empty closed one. The spec names the outcomes; this model returns
    [1] for a buffer moved, [0] for full or empty, [-1] for closed. The
    spec names no [to_string] of the queue: the text is left open
    ([QueueText]). *)
Record bounded_queue (B : Type) := BoundedQueue {
  bq_items : list B;
  bq_capacity : nat;
  bq_closed : bool
}.
Arguments BoundedQueue {B} _ _ _.
Arguments bq_items {B} _.
Arguments bq_capacity {B} _.
Arguments bq_closed {B} _.

Definition bq_read {B} (q : bounded_queue B) : Z * option B * bounded_queue B :=
  match bq_items q with
  | b :: rest => (1, Some b, BoundedQueue rest (bq_capacity q) (bq_closed q))
  | [] => (if bq_closed q then -1 else 0, None, q)
  end.

Definition bq_write {B} (q : bounded_queue B) (b : B) : Z * bounded_queue B :=
  if bq_closed q then (-1, q)
  else if bool_decide (bq_capacity q ≤ length (bq_items q))%nat then (0, q)
  else (1, BoundedQueue (bq_items q ++ [b]) (bq_capacity q) (bq_closed q)).

(** What [to_string()] gives for a queue in a given state. *)
Class QueueText (B : Type) := queue_text : bounded_queue B → string.

#[global] Instance bounded_queue_ring {B} `{QueueText B}
  : RingBuffer (bounded_queue B) B :=
  {| rb_read := bq_read; rb_write := bq_write; rb_to_string := queue_text |}.

(** What one call of [rtlsdr_read_sync] returned: its status, the count
    [n_read], and the bytes it left in [iqbuf_u8]. *)
Record read_sync := ReadSync {
  sync_status : Z;
  sync_n_read : Z;
  sync_bytes : list byte
}.

Definition u8 (b : byte) : Z := Z.of_N (Byte.to_N b).

(** The line [fprintf(fp, "%d   %d\n", i, q)] writes. *)
Definition sample_line (i q : Z) : string :=
  pretty i +:+ "   " +:+ pretty q.

Section Stages.
Context {Q : Type} `{RingBuffer Q (list iq_t)}.
Variable cfg : config.
(** The text of [__PRETTY_FUNCTION__] inside the [producer] lambda: the
    compiler chooses it. *)
Variable pretty_function : string.
(** The table [e_2pi_i] built by [main]. *)
Variable e_2pi_i : list iq_t.

(** *** The acquisition stage *)

(** The body of [for (int i = 0; i < fft_size; ++i)]. *)
Definition convert_sample (src : list byte) (offset i : Z)
    (st : list iq_t * world) : option (list iq_t * world) :=
  b0 ← get src (offset + (2 * i + 0));
  b1 ← get src (offset + (2 * i + 1));
  iqbuf ← set st.1 i (iq ((u8 b0 - 127) * 256) ((u8 b1 - 127) * 256));
  Some (iqbuf, fprintf_fp st.2 (sample_line (u8 b0 - 127) (u8 b1 - 127))).

(** The body of [for (offset = 0; offset < sizeof(iqbuf_u8); ...)].
    A negative [fft_size] makes the allocation of the buffer fail. *)
Definition producer_block (src : list byte) (offset : Z)
    (st : world * Q) : option (world * Q) :=
  if bool_decide (fft_size cfg < 0) then None
  else
    r ← for_range 0 (fft_size cfg) 1 (convert_sample src offset)
          (make_unique_iq (fft_size cfg), st.1);
    let '(write_status, orb) := rb_write st.2 r.1 in
    let w :=
      if bool_decide (write_status ≠ 1) then
        fprintf_stderr
          (fprintf_stderr r.2 (pretty_function +:+ ": orb->write() failed"))
          (rb_to_string orb)
      else r.2 in
    Some (w, orb).

(** One call of the [producer] lambda: the flag it returns, and the
    streams and the output queue after it. *)
Definition producer (dev : read_sync) (w : world) (orb : Q)
  : option (bool * world * Q) :=
  if bool_decide (sync_status dev ≠ 0) then
    Some (false, fprintf_stderr w "rtlsdr_read_sync(16384) failed", orb)
  else if bool_decide (Mach.to_size (sync_n_read dev) ≠ IQBUF_SIZE) then
    Some (true,
          fprintf_stderr w
            ("rtlsdr_read_sync(16384) dropped samples - received "
             +:+ pretty (sync_n_read dev)),
          orb)
  else
    let w1 := World (fp w) (err w) (Mach.to_size (counter w + 1)) in
    if bool_decide (counter w < IDLE_LOOPS_NUM) then Some (true, w1, orb)
    else
      st ← for_range 0 IQBUF_SIZE
             (Mach.to_size (Mach.to_int (fft_size cfg * 2)))
             (producer_block (sync_bytes dev)) (w1, orb);
      Some (true, st.1, st.2).

(** *** The analysis stage *)

Definition get_iq_buffer_uptr (irb : Q) : option (list iq_t) * Q :=
  let '(read_status, buf_uptr, irb') := rb_read irb in
  if bool_decide (read_status ≠ 1) then (None, irb')
  else (buf_uptr, irb').

(** The body of [print_fft] lies between [#if 0] and [#endif]: the
    function writes nothing. *)
Definition print_fft (w : world) (fc bw : Z) (iqbuf : list iq_t) (N : Z)
  : world := w.

(** One call of the [fft_stage] lambda. *)
Definition fft_stage (w : world) (irb : Q) : option (bool * world * Q) :=
  let '(iqbuf_uptr, irb') := get_iq_buffer_uptr irb in
  match iqbuf_uptr with
  | None => Some (false, w, irb')
  | Some iqbuf =>
      iq1 ← remove_dc iqbuf (fft_size cfg);
      iq2 ← fft iq1 e_2pi_i (fft_size cfg);
      let w' := print_fft w (frequency cfg) (bandwidth cfg) iq2 (fft_size cfg) in
      Some (true, w', irb')
  end.

End Stages.

(** *** main, from the parsed options to the start of the pipeline *)

(** What the calls [main] makes before it starts the pipeline answered:
    [fopen], [verbose_device_search] and the five calls to the device. *)
Record environment := Environment {
  fopen_ok : bool;
  device_index : Z;
  open_status : Z;
  gain_status : Z;
  reset_status : Z;
  freq_status : Z;
  rate_status : Z
}.

(** The places where [main] leaves with [exit(EXIT_FAILURE)]. *)
Inductive exit_site :=
  | Exit_fopen
  | Exit_usage
  | Exit_not_power_of_2
  | Exit_too_big
  | Exit_device_search
  | Exit_open
  | Exit_tuner_gain_mode
  | Exit_reset_buffer
  | Exit_center_freq
  | Exit_sample_rate.

(** The exits taken before the first call to the device library. *)
Definition before_device (s : exit_site) : bool :=
  match s with
  | Exit_fopen | Exit_usage | Exit_not_power_of_2 | Exit_too_big => true
  | _ => false
  end.

(** [main] either exits, or is left by the exception of
    [std::make_unique<iq_t[]>(fft_size)] (a negative [fft_size] is
    converted to a [size_t] no allocation can serve), or reaches
    [pipeline->start()] with the options and the table it built. *)
Inductive outcome :=
  | Exit_failure (site : exit_site)
  | Uncaught_bad_alloc
  | Pipeline_started (cfg : config) (e_2pi_i : option (list iq_t)).

Definition main (cfg : config) (env : environment) : outcome :=
  if negb (fopen_ok env) then Exit_failure Exit_fopen
  else if bool_decide (frequency cfg = 0) then Exit_failure Exit_usage
  else if bool_decide
            (Z.land (fft_size cfg) (Mach.to_int (fft_size cfg - 1)) ≠ 0)
  then Exit_failure Exit_not_power_of_2
  else if bool_decide (fft_size cfg > FFT_SIZE_MAX)
  then Exit_failure Exit_too_big
  else if bool_decide (device_index env < 0)
  then Exit_failure Exit_device_search
  else if bool_decide (open_status env < 0)
  then Exit_failure Exit_open
  else if bool_decide (gain_status env ≠ 0)
  then Exit_failure Exit_tuner_gain_mode
  else if bool_decide (reset_status env ≠ 0)
  then Exit_failure Exit_reset_buffer
  else if bool_decide (freq_status env ≠ 0)
  then Exit_failure Exit_center_freq
  else if bool_decide (rate_status env ≠ 0)
  then Exit_failure Exit_sample_rate
  else if bool_decide (fft_size cfg < 0) then Uncaught_bad_alloc
  else Pipeline_started cfg (main_table (fft_size cfg)).

(** ** Reference notions the statements use *)

(** The discrete Fourier transform as the spec words it, computed with
    the arithmetic of the samples: bin [k] is the sum over [n] of
    [x[n] * e[(n * k) mod N]], and the bins are listed in ascending
    frequency, the bin at position [i] being bin [(i + N / 2) mod N]. *)
Definition dft_bin (x e : list iq_t) (N k : Z) : option iq_t :=
  for_range 0 N 1
    (λ n acc, xn ← get x n; w ← get e ((n * k) mod N);
              Some (Complex.add acc (Complex.mul xn w)))
    (iq 0 0).

Definition dft_ascending (x e : list iq_t) (N : Z) : option (list iq_t) :=
  mapM (λ i, dft_bin x e N ((i + N / 2) mod N)) (seqZ 0 N).

(** ** Notions the statements and proofs use *)

(** The exchange of two positions of the index space. *)
Definition transp (i j p : Z) : Z :=
  if decide (p = i) then j else if decide (p = j) then i else p.

(** What iteration [n] of the reorder loop does on [N = 2^k]. *)
Definition step_ok (k : nat) (n : Z) (s : reorder_step) : Prop :=
  rs_n s = n
  ∧ rs_m s = bitrev k n
  ∧ rs_swapped s = bool_decide (n < bitrev k n)
  ∧ rs_m s = bitrev k (n - 1) mod rs_l s + rs_l s
  ∧ ∃ j : nat,
      (j < k)%nat ∧ rs_l s = 2 ^ Z.of_nat j
      ∧ bitrev k (n - 1) + 2 ^ Z.of_nat j < 2 ^ Z.of_nat k
      ∧ ∀ j' : nat, (j < j' < k)%nat →
          2 ^ Z.of_nat k ≤ bitrev k (n - 1) + 2 ^ Z.of_nat j'.

(** The positions still to be exchanged when the loop is at [n]. *)
Definition pending (k : nat) (n i : Z) : Z :=
  if bool_decide (n ≤ i ∧ n ≤ bitrev k i) then bitrev k i else i.

(** The iterations of a loop, one after the other, over the listed values
    of the loop variable. *)
Fixpoint fold_opt {St : Type} (body : Z → St → option St) (idx : list Z)
    (s : St) : option St :=
  match idx with
  | [] => Some s
  | i :: idx' => s' ← body i s; fold_opt body idx' s'
  end.

(** The values the loop variable takes. *)
Definition loop_indices (lo hi step : Z) : list Z :=
  (λ k, lo + k * step) <$> seqZ 0 ((hi - lo + step - 1) / step).

(** The sums of the scaled real and imaginary parts of a buffer. *)
Definition sum_real (l : list iq_t) : Z :=
  foldr (λ x acc, Fixq15.value (Complex.real x) + acc) 0 l.
Definition sum_imag (l : list iq_t) : Z :=
  foldr (λ x acc, Fixq15.value (Complex.imag x) + acc) 0 l.

(** The byte at a position of the raw block, and the text line of the
    sample that starts there. *)
Definition byte_at (src : list byte) (p : Z) : byte :=
  default x00 (get src p).
Definition line_at (src : list byte) (p : Z) : string :=
  sample_line (u8 (byte_at src p) - 127) (u8 (byte_at src (p + 1)) - 127).
Definition sample_at (src : list byte) (p : Z) : iq_t :=
  iq ((u8 (byte_at src p) - 127) * 256) ((u8 (byte_at src (p + 1)) - 127) * 256).

(** The entry the spec words for the table: [e^(-2 pi i k / N)], scaled
    and rounded like the entries of the code. *)
Definition spec_twiddle (k N : Z) : iq_t :=
  let x := (- (2 * PI * IZR k / IZR N))%R in
  iq (c_round (IZR Q15 * cos x)) (c_round (IZR Q15 * sin x)).

(** The complex conjugate of a sample. *)
Definition conjugate (v : iq_t) : iq_t :=
  iq (Fixq15.value (Complex.real v)) (- Fixq15.value (Complex.imag v)).

(** The discrete Fourier transform with the kernel the spec words and a
    table of its own: bin [k] is the sum over [n] of
    [x[n] * e^(-2 pi i n k / N)], the factor scaled and rounded like the
    entries of the code and the sum taken with the arithmetic of the
    samples. In ascending order of frequency the bin at position [i] is
    bin [(i + N / 2) mod N]. *)
Definition spec_dft_bin (x : list iq_t) (N k : Z) : option iq_t :=
  for_range 0 N 1
    (λ n acc, xn ← get x n;
              Some (Complex.add acc
                      (Complex.mul xn (spec_twiddle ((n * k) mod N) N))))
    (iq 0 0).

(** ** Concrete runs the statements are tried on *)

Module Sample.

(** [-f 100000000] with the default bandwidth, and a transform size. *)
Definition cfg (n : Z) : config := Config 100000000 2000000 n.

(** Every call before the pipeline succeeds. *)
Definition env_ok : environment := Environment true 0 0 0 0 0 0.

(** A raw block of [IQBUF_SIZE] bytes: I = 130, Q = 120 throughout. *)
Definition block : list byte :=
  concat (replicate (Z.to_nat (IQBUF_SIZE / 2)) [x82; x78]).

Definition full_read : read_sync := ReadSync 0 IQBUF_SIZE block.
Definition short_read : read_sync := ReadSync 0 512 block.
Definition failed_read : read_sync := ReadSync (-1) 0 block.

(** The streams are empty; the producer is past its idle call. *)
Definition w1 : world := World [] [] 1.

(** A text for [__PRETTY_FUNCTION__], and one for the [to_string] of the
    queue. *)
Definition pretty_function : string := "main(int, char**)::<lambda(irb, orb)>".
#[global] Instance queue_text : QueueText (list iq_t) :=
  λ q, "ringbuffer holding " +:+ pretty (length (bq_items q)).

Definition empty_queue : bounded_queue (list iq_t) := BoundedQueue [] 42 false.

(** A unit impulse at index [k] of a block of [n] samples. *)
Definition impulse (k n : nat) : list iq_t :=
  <[k := iq Q15 0]> (replicate n (iq 0 0)).

(** A raw block of eight samples, silent but for I = +100 at sample 2
    and I = -100 at sample 6, and the buffer the producer makes of
    it. *)
Definition tone_bytes : list byte :=
  [x7f; x7f; x7f; x7f; xe3; x7f; x7f; x7f;
   x7f; x7f; x7f; x7f; x1b; x7f; x7f; x7f].
Definition tone : list iq_t :=
  (λ p, sample_at tone_bytes (2 * p)) <$> seqZ 0 8.

Definition queue_of (buf : list iq_t) : bounded_queue (list iq_t) :=
  BoundedQueue [buf] 42 false.

Definition e4 : list iq_t :=
  [iq 32768 0; iq 0 32768; iq (-32768) 0; iq 0 (-32768)].

Definition e8 : list iq_t :=
  [iq 32768 0; iq 23170 23170; iq 0 32768; iq (-23170) 23170;
   iq (-32768) 0; iq (-23170) (-23170); iq 0 (-32768); iq 23170 (-23170)].

End Sample.

(** ** More of rtl-sdr-fft.cpp, and notions of the further statements *)

(** *** verbose_device_search *)

(** What the device library tells of one device: the three strings of
    [rtlsdr_get_device_usb_strings] and the name of
    [rtlsdr_get_device_name]. The list of them stands for the calls to
    the library; its length is [rtlsdr_get_device_count()]. *)
Record device := Device {
  dev_vendor : string;
  dev_product : string;
  dev_serial : string;
  dev_name : string
}.

(** What [strtol(s, &s2, 0)] returned: the value, and the rest [s2] of the
    string it did not read. *)
Record strtol_result := Strtol {
  strtol_value : Z;
  strtol_rest : string
}.

(** [strncmp(a, b, n) == 0]: the two strings agree on their first [n]
    characters, or end together before. *)
Fixpoint strncmp_eq (a b : string) (n : nat) : bool :=
  match n with
  | O => true
  | S n' =>
      match a, b with
      | EmptyString, EmptyString => true
      | String x a', String y b' =>
          if Ascii.eqb x y then strncmp_eq a' b' n' else false
      | _, _ => false
      end
  end.

(** [strcmp(a, b) == 0]. *)
Definition strcmp_eq (a b : string) : bool := String.eqb a b.

(** The string at [p + n], for [n] within the string [p]. *)
Fixpoint string_drop (n : nat) (p : string) : string :=
  match n, p with
  | O, _ => p
  | S n', String _ p' => string_drop n' p'
  | S _, EmptyString => EmptyString
  end.

(** A loop [for (i = ...; i < device_count; i++)] over the devices from
    index [i] on that returns at the first serial the test accepts. *)
Fixpoint first_serial (test : string → bool) (i : Z) (devs : list device)
  : option Z :=
  match devs with
  | [] => None
  | d :: devs' =>
      if test (dev_serial d) then Some i
      else first_serial test (i + 1) devs'
  end.

(** The three tests of the loops over the serials. *)
Definition exact_match (s serial : string) : bool := strcmp_eq s serial.

Definition prefix_match (s serial : string) : bool :=
  strncmp_eq s serial (String.length s).

Definition suffix_match (s serial : string) : bool :=
  let offset :=
    Mach.to_int (Z.of_nat (String.length serial) - Z.of_nat (String.length s)) in
  if bool_decide (offset < 0) then false
  else strncmp_eq s (string_drop (Z.to_nat offset) serial) (String.length s).

(** The lines of the device list. *)
Definition device_line (i : Z) (d : device) : string :=
  "  " +:+ pretty i +:+ ":  " +:+ dev_vendor d +:+ ", " +:+ dev_product d
  +:+ ", SN: " +:+ dev_serial d.

Definition using_line (i : Z) (devs : list device) : string :=
  "Using device " +:+ pretty i +:+ ": "
  +:+ default "" (dev_name <$> get devs i).

(** [verbose_device_search(s)]: the index it returns, and the lines it
    writes to [stderr]. *)
Definition verbose_device_search (s : string) (parsed : strtol_result)
    (devs : list device) : Z * list string :=
  let device_count := Mach.to_int (Z.of_nat (length devs)) in
  (* the devices the loops [for (i = 0; i < device_count; i++)] reach *)
  let devs := take (Z.to_nat device_count) devs in
  if bool_decide (device_count = 0) then (-1, ["No supported devices found"])
  else
    let listing :=
      ["Found " +:+ pretty device_count +:+ " device(s):"]
      ++ imap (λ i d, device_line (Z.of_nat i) d) devs ++ [""] in
    let device := Mach.to_int (strtol_value parsed) in
    if bool_decide (strtol_rest parsed = "" ∧ 0 ≤ device ∧ device < device_count)
    then (device, listing ++ [using_line device devs])
    else
      match first_serial (exact_match s) 0 devs with
      | Some i => (i, listing ++ [using_line i devs])
      | None =>
          match first_serial (prefix_match s) 0 devs with
          | Some i => (i, listing ++ [using_line i devs])
          | None =>
              match first_serial (suffix_match s) 0 devs with
              | Some i => (i, listing ++ [using_line i devs])
              | None => (-1, listing ++ ["No matching devices found"])
              end
          end
      end.

(** What the three loops over the serials look for, in words of the
    strings: a serial that starts with [s], one that ends with [s]; and
    the first device of the list whose serial has a property. *)
Definition starts_with (s serial : string) : Prop := ∃ t, serial = s +:+ t.
Definition ends_with (s serial : string) : Prop := ∃ t, serial = t +:+ s.

Definition first_index (P : string → Prop) (devs : list device) (n : nat)
  : Prop :=
  ∃ d, devs !! n = Some d ∧ P (dev_serial d)
       ∧ ∀ (m : nat) d', (m < n)%nat → devs !! m = Some d' →
           ¬ P (dev_serial d').

(** The string was read as a number to its end, and the number is the
    index of a device. *)
Definition raw_id (parsed : strtol_result) (devs : list device) : Prop :=
  strtol_rest parsed = ""
  ∧ 0 ≤ Mach.to_int (strtol_value parsed) < Z.of_nat (length devs).

(** *** What the acquisition stage hands over *)

(** Buffer [k] of a raw block cut into buffers of [F] samples. *)
Definition block_at (src : list byte) (F k : Z) : list iq_t :=
  (λ i, sample_at src (2 * (k * F + i))) <$> seqZ 0 F.

(** One [orb->write(...)] and the two lines that follow a status other
    than 1, on the lines of [stderr] and the queue. *)
Definition offer {Q : Type} `{RingBuffer Q (list iq_t)}
    (pretty_function : string)
    (st : list string * Q) (buf : list iq_t) : list string * Q :=
  let '(write_status, orb) := rb_write st.2 buf in
  (if bool_decide (write_status ≠ 1)
   then st.1 ++ [pretty_function +:+ ": orb->write() failed"; rb_to_string orb]
   else st.1,
   orb).

(** *** Devices the statements are tried on *)

Module Devices.

Definition dongles : list device :=
  [Device "Realtek" "RTL2838UHIDIR" "00000001" "Generic RTL2832U OEM";
   Device "Realtek" "RTL2838UHIDIR" "00000102" "Generic RTL2832U OEM"].

End Devices.

(** *** Buffers with a constant leading part *)

(** A buffer of [N] samples: [c] times the sample [a], then zeros. *)
Definition leading (a : iq_t) (N c : Z) : list iq_t :=
  replicate (Z.to_nat c) a ++ replicate (Z.to_nat (N - c)) (iq 0 0).

(** *** Buffers given by their entries *)

(** The buffer of [N] entries whose entry [i] is [f i]. *)
Definition tabulate {A : Type} (f : Z → A) (N : Z) : list A := f <$> seqZ 0 N.

(** [z] times a sample. *)
Definition scale (z : Z) (c : iq_t) : iq_t :=
  iq (z * Fixq15.value (Complex.real c)) (z * Fixq15.value (Complex.imag c)).

(** A constant buffer after [s] passes: [2^s] times the sample at the
    multiples of [2^s], zero elsewhere. *)
Definition comb (c : iq_t) (s : Z) (i : Z) : iq_t :=
  if bool_decide (i mod 2 ^ s = 0) then scale (2 ^ s) c else iq 0 0.

(** Pass [s] under way: the blocks below [q] are done. *)
Definition comb_upto (c : iq_t) (s q : Z) (i : Z) : iq_t :=
  if bool_decide (i < q * 2 ^ (s + 1)) then comb c (s + 1) i else comb c s i.

(* ------------------------------------------------------------------ *)
(** * Theorems *)

(** ** Bit reversal *)

Section BitReversal.

Lemma pow2_pos (k : nat) : 0 < 2 ^ Z.of_nat k.
Proof. apply Z.pow_pos_nonneg; lia. Qed.

Lemma pow2_S (k : nat) : 2 ^ Z.of_nat (S k) = 2 * 2 ^ Z.of_nat k.
Proof. rewrite Nat2Z.inj_succ, Z.pow_succ_r; lia. Qed.

Lemma bitrev_range (k : nat) (n : Z) : 0 ≤ bitrev k n < 2 ^ Z.of_nat k.
Proof.
  revert n. induction k as [|k IH]; intros n.
  - simpl. lia.
  - cbn [bitrev]. rewrite pow2_S.
    specialize (IH (n / 2)). pose proof (pow2_pos k).
    pose proof (Z.mod_pos_bound n 2 ltac:(lia)). nia.
Qed.

(** The reversal read from the other end: the top bit of [n] becomes the
    lowest bit. *)
Lemma bitrev_top (k : nat) (n : Z) :
  0 ≤ n < 2 ^ Z.of_nat (S k) →
  bitrev (S k) n = 2 * bitrev k (n mod 2 ^ Z.of_nat k) + n / 2 ^ Z.of_nat k.
Proof.
  revert n. induction k as [|k IH]; intros n Hn.
  - cbn [bitrev]. change (2 ^ Z.of_nat 0) with 1 in *.
    change (2 ^ Z.of_nat 1) with 2 in *.
    rewrite Z.div_1_r, Z.mod_small by lia. lia.
  - cbn [bitrev] in *. rewrite !pow2_S in *.
    pose proof (pow2_pos k) as Hp.
    assert (Hn2 : 0 ≤ n / 2 < 2 * 2 ^ Z.of_nat k).
    { split; [apply Z.div_pos; lia | apply Z.div_lt_upper_bound; lia]. }
    specialize (IH (n / 2) Hn2). cbn [bitrev] in IH. rewrite IH.
    replace ((n mod (2 * 2 ^ Z.of_nat k)) mod 2) with (n mod 2).
    2:{ rewrite Z.rem_mul_r by lia.
        rewrite Z.mul_comm, Z.mod_add by lia. rewrite Z.mod_mod; lia. }
    replace (n mod (2 * 2 ^ Z.of_nat k) / 2) with ((n / 2) mod 2 ^ Z.of_nat k).
    2:{ rewrite Z.rem_mul_r by lia.
        rewrite (Z.mul_comm 2), Z.div_add by lia.
        rewrite (Z.div_small (n mod 2)) by (apply Z.mod_pos_bound; lia). lia. }
    rewrite (Z.div_div n 2) by lia. lia.
Qed.

Lemma bitrev_involutive (k : nat) (n : Z) :
  0 ≤ n < 2 ^ Z.of_nat k → bitrev k (bitrev k n) = n.
Proof.
  revert n. induction k as [|k IH]; intros n Hn.
  - change (2 ^ Z.of_nat 0) with 1 in Hn. simpl. lia.
  - rewrite pow2_S in Hn. pose proof (pow2_pos k) as Hp.
    rewrite bitrev_top by (rewrite pow2_S; pose proof (bitrev_range (S k) n) as H;
                           rewrite pow2_S in H; exact H).
    cbn [bitrev].
    pose proof (bitrev_range k (n / 2)) as Hr.
    pose proof (Z.mod_pos_bound n 2 ltac:(lia)) as Hb.
    replace (2 ^ Z.of_nat k * (n mod 2) + bitrev k (n / 2))
      with (bitrev k (n / 2) + (n mod 2) * 2 ^ Z.of_nat k) by lia.
    rewrite Z.mod_add, Z.div_add by lia.
    rewrite (Z.mod_small (bitrev k (n / 2))), (Z.div_small (bitrev k (n / 2))) by lia.
    rewrite IH.
    + pose proof (Z.div_mod n 2 ltac:(lia)). lia.
    + split; [apply Z.div_pos; lia | apply Z.div_lt_upper_bound; lia].
Qed.

Lemma bitrev_inj (k : nat) (a b : Z) :
  0 ≤ a < 2 ^ Z.of_nat k → 0 ≤ b < 2 ^ Z.of_nat k →
  bitrev k a = bitrev k b → a = b.
Proof.
  intros Ha Hb E. rewrite <- (bitrev_involutive k a), <- (bitrev_involutive k b) by done.
  by rewrite E.
Qed.

Lemma bitrev_0 (k : nat) : bitrev k 0 = 0.
Proof. induction k as [|k IH]; [done|]. cbn [bitrev]. rewrite Z.mod_0_l, Z.div_0_l by lia. lia. Qed.

End BitReversal.

(** ** The reorder of the samples *)

Section MachineFacts.

Lemma to_size_small (z : Z) : 0 ≤ z < 2 ^ 64 → Mach.to_size z = z.
Proof. intros H. unfold Mach.to_size, Mach.size_bits. by apply Z.mod_small. Qed.

Lemma to_int_small (z : Z) : - 2 ^ 31 ≤ z < 2 ^ 31 → Mach.to_int z = z.
Proof.
  intros H. unfold Mach.to_int, Mach.int_bits.
  change (32 - 1) with 31. rewrite Z.mod_small; lia.
Qed.

Lemma pow2_split (a b : nat) :
  (a ≤ b)%nat → 2 ^ Z.of_nat b = 2 ^ Z.of_nat (b - a) * 2 ^ Z.of_nat a.
Proof. intros H. rewrite <- Z.pow_add_r by lia. f_equal. lia. Qed.

End MachineFacts.

Section Step.

Lemma quot_double (z : Z) : 0 ≤ z → Z.quot (2 * z) 2 = z.
Proof. intros H. rewrite Z.quot_div_nonneg, (Z.mul_comm 2), Z.div_mul; lia. Qed.

Lemma halve_again_small (N m l : Z) :
  0 ≤ m + l < 2 ^ 64 → halve_again N m l = bool_decide (N ≤ m + l).
Proof. intros H. unfold halve_again. by rewrite to_size_small. Qed.

(** Above the top bit of [m] the inner loop behaves as on the lower half. *)
Lemma do_halve_shift (fuel : nat) (N m l : Z) :
  0 < N → N < 2 ^ 62 → 0 ≤ m < N → 0 ≤ l ≤ N →
  do_halve fuel (2 * N) (N + m) l = do_halve fuel N m l.
Proof.
  intros HN HN' Hm. revert l. induction fuel as [|fuel IH]; intros l Hl.
  all: assert (Hq : 0 ≤ Z.quot l 2 ≤ N)
    by (rewrite Z.quot_div_nonneg by lia; split;
        [apply Z.div_pos; lia | apply Z.div_le_upper_bound; lia]).
  all: cbn [do_halve]; rewrite !halve_again_small by lia.
  all: repeat case_bool_decide; try lia; try done.
  by apply IH.
Qed.

Lemma next_m_pow2 (m : Z) (j : nat) :
  0 ≤ m → m + 2 ^ Z.of_nat j < 2 ^ 64 →
  next_m m (2 ^ Z.of_nat j) = m mod 2 ^ Z.of_nat j + 2 ^ Z.of_nat j.
Proof.
  intros Hm Hb. pose proof (pow2_pos j) as Hp. unfold next_m.
  pose proof (Z.mod_pos_bound m (2 ^ Z.of_nat j) Hp) as Hr.
  pose proof (Z.mod_le m (2 ^ Z.of_nat j) Hm Hp).
  rewrite (to_size_small (_ - 1)) by lia.
  replace (2 ^ Z.of_nat j - 1) with (Z.ones (Z.of_nat j))
    by (rewrite Z.ones_equiv; lia).
  rewrite Z.land_ones by lia. apply to_size_small. lia.
Qed.

(** The inner loop and the update of [m] on a power of two: from the
    reversal of [n] they produce the reversal of [n + 1], and the step
    taken is the largest halving of [N] that keeps [m + l] below [N]. *)
Lemma halve_step_spec (k : nat) : ∀ (fuel : nat) (n : Z),
  (k ≤ fuel)%nat → (k ≤ 62)%nat → 0 ≤ n → n + 1 < 2 ^ Z.of_nat k →
  ∃ j : nat,
    (j < k)%nat
    ∧ do_halve fuel (2 ^ Z.of_nat k) (bitrev k n) (2 ^ Z.of_nat k)
      = Some (2 ^ Z.of_nat j)
    ∧ bitrev k n + 2 ^ Z.of_nat j < 2 ^ Z.of_nat k
    ∧ (∀ j' : nat, (j < j' < k)%nat →
         2 ^ Z.of_nat k ≤ bitrev k n + 2 ^ Z.of_nat j')
    ∧ bitrev k n mod 2 ^ Z.of_nat j + 2 ^ Z.of_nat j = bitrev k (n + 1).
Proof.
  induction k as [|k IH]; intros fuel n Hf Hk Hn0 Hn.
  { change (2 ^ Z.of_nat 0) with 1 in Hn. lia. }
  pose proof (pow2_pos k) as Hp.
  pose proof (bitrev_range k (n / 2)) as Hr.
  assert (Hk62 : 2 ^ Z.of_nat k < 2 ^ 62).
  { apply Z.pow_lt_mono_r; lia. }
  rewrite pow2_S in *.
  pose proof (Z.div_mod n 2 ltac:(lia)) as Hdm.
  pose proof (Z.mod_pos_bound n 2 ltac:(lia)) as Hb.
  destruct (decide (n mod 2 = 0)) as [Heven|Hodd].
  - (* n even: the first halving is taken *)
    exists k. cbn [bitrev]. rewrite Heven, Z.mul_0_r, Z.add_0_l.
    assert (Hn1 : (n + 1) mod 2 = 1).
    { replace (n + 1) with (1 + (n / 2) * 2) by lia.
      rewrite Z.mod_add by lia. done. }
    assert (Hn2 : (n + 1) / 2 = n / 2).
    { replace (n + 1) with (1 + (n / 2) * 2) by lia.
      rewrite Z.div_add by lia. done. }
    rewrite Hn1, Hn2. split; [lia|]. split.
    + destruct fuel; cbn [do_halve].
      all: rewrite (quot_double (2 ^ Z.of_nat k)) by lia.
      all: rewrite halve_again_small by lia.
      all: rewrite bool_decide_eq_false_2 by lia; done.
    + split; [lia|]. split; [intros j' Hj'; lia|].
      rewrite Z.mod_small by lia. lia.
  - (* n odd: the top bit of m is set, continue on the lower half *)
    assert (Hb1 : n mod 2 = 1) by lia.
    destruct fuel as [|fuel]; [lia|].
    destruct (IH fuel (n / 2)) as (j & Hj & Hdo & Hlt & Hmax & Hnext);
      [lia | lia | apply Z.div_pos; lia | lia |].
    exists j. cbn [bitrev]. rewrite Hb1, Z.mul_1_r.
    assert (Hn1 : (n + 1) mod 2 = 0).
    { replace (n + 1) with (0 + (n / 2 + 1) * 2) by lia.
      rewrite Z.mod_add by lia. done. }
    assert (Hn2 : (n + 1) / 2 = n / 2 + 1).
    { replace (n + 1) with (0 + (n / 2 + 1) * 2) by lia.
      rewrite Z.div_add by lia. done. }
    rewrite Hn1, Hn2, Z.mul_0_r, Z.add_0_l.
    split; [lia|]. split.
    + cbn [do_halve].
      rewrite (quot_double (2 ^ Z.of_nat k)) by lia.
      rewrite halve_again_small by lia.
      rewrite bool_decide_eq_true_2 by lia.
      rewrite do_halve_shift by lia. exact Hdo.
    + split; [lia|]. split.
      * intros j' Hj'. destruct (decide (j' = k)) as [->|Hne]; [lia|].
        specialize (Hmax j' ltac:(lia)). lia.
      * rewrite <- Hnext.
        replace (2 ^ Z.of_nat k + bitrev k (n / 2))
          with (bitrev k (n / 2) + 2 ^ Z.of_nat (k - j) * 2 ^ Z.of_nat j)
          by (rewrite <- (pow2_split j k); lia).
        rewrite Z.mod_add by (pose proof (pow2_pos j); lia). done.
Qed.

End Step.

Section HalveDiverges.

(** [None] is a loop that never exits: when the halvings have brought an
    [int] to [0] and the test still holds, it holds for ever. *)
Lemma do_halve_None (fuel : nat) : ∀ (N m l : Z),
  Z.abs l < 2 ^ Z.of_nat fuel →
  do_halve fuel N m l = None →
  Z.quot 0 2 = 0 ∧ halve_again N m 0 = true.
Proof.
  induction fuel as [|fuel IH]; intros N m l Hl Hnone.
  - change (2 ^ Z.of_nat 0) with 1 in Hl. assert (l = 0) as -> by lia.
    cbn [do_halve] in Hnone. change (0 ÷ 2) with 0 in Hnone.
    split; [done|]. by destruct (halve_again N m 0).
  - cbn [do_halve] in Hnone.
    destruct (halve_again N m (l ÷ 2)) eqn:E; [|done].
    apply (IH N m (l ÷ 2)); [|done].
    rewrite pow2_S in Hl. rewrite <- Z.quot_abs by lia.
    change (Z.abs 2) with 2. apply Z.quot_lt_upper_bound; lia.
Qed.

End HalveDiverges.

Section BufferFacts.
Context {A : Type}.
Implicit Types (iq : list A) (i j p : Z).

Lemma get_in_range iq i :
  0 ≤ i < Z.of_nat (length iq) → is_Some (get iq i).
Proof.
  intros H. unfold get. rewrite bool_decide_eq_true_2 by lia.
  apply lookup_lt_is_Some. lia.
Qed.

Lemma get_ext iq iq' :
  length iq = length iq' →
  (∀ i, 0 ≤ i < Z.of_nat (length iq) → get iq i = get iq' i) →
  iq = iq'.
Proof.
  intros Hlen H. apply list_eq. intros n.
  destruct (decide (n < length iq)%nat) as [Hlt|Hge].
  - specialize (H (Z.of_nat n) ltac:(lia)). unfold get in H.
    rewrite bool_decide_eq_true_2, Nat2Z.id in H by lia. done.
  - rewrite !lookup_ge_None_2 by lia. done.
Qed.

Lemma set_length iq iq' i x : set iq i x = Some iq' → length iq' = length iq.
Proof.
  unfold set. case_bool_decide; [|done]. intros [= <-]. apply length_insert.
Qed.

Lemma get_set iq iq' i x p :
  set iq i x = Some iq' →
  get iq' p = if decide (p = i) then Some x else get iq p.
Proof.
  unfold set, get. case_bool_decide as Hi; [|done]. intros [= <-].
  case_decide as Hp.
  - subst p. rewrite bool_decide_eq_true_2 by lia.
    apply list_lookup_insert_eq. lia.
  - case_bool_decide; [|done]. apply list_lookup_insert_ne. lia.
Qed.

Lemma swap_spec iq i j :
  0 ≤ i < Z.of_nat (length iq) → 0 ≤ j < Z.of_nat (length iq) →
  ∃ iq', swap iq i j = Some iq'
         ∧ length iq' = length iq
         ∧ ∀ p, get iq' p = get iq (transp i j p).
Proof.
  intros Hi Hj.
  destruct (get_in_range iq i Hi) as [x Hx].
  destruct (get_in_range iq j Hj) as [y Hy].
  unfold swap. rewrite Hx, Hy. cbn [mbind option_bind].
  destruct (set iq i y) as [iq1|] eqn:E1.
  2:{ unfold set in E1. by rewrite bool_decide_eq_true_2 in E1. }
  pose proof (set_length _ _ _ _ E1) as L1. cbn [mbind option_bind].
  destruct (set iq1 j x) as [iq2|] eqn:E2.
  2:{ unfold set in E2. rewrite bool_decide_eq_true_2 in E2 by lia. done. }
  pose proof (set_length _ _ _ _ E2) as L2.
  exists iq2. split; [done|]. split; [congruence|].
  intros p. rewrite (get_set _ _ _ _ p E2), (get_set _ _ _ _ p E1).
  unfold transp. repeat case_decide; subst; congruence.
Qed.

End BufferFacts.

Section ReorderLoop.
Context {A : Type}.
Variable k : nat.
Hypothesis k_small : (k ≤ 30)%nat.

Let N : Z := 2 ^ Z.of_nat k.

Lemma N_bound : 0 < N ∧ N < 2 ^ 31.
Proof.
  split; [apply pow2_pos|]. apply Z.pow_lt_mono_r; lia.
Qed.

Lemma reorder_loop_spec (cnt : nat) : ∀ (n : Z) (cur : list A),
  1 ≤ n → n + Z.of_nat cnt = N → Z.of_nat (length cur) = N →
  ∃ out log,
    reorder_loop cnt N n (bitrev k (n - 1)) cur = Some (out, log)
    ∧ length out = length cur
    ∧ (∀ i, 0 ≤ i < N → get out i = get cur (pending k n i))
    ∧ Forall2 (step_ok k) (seqZ n (Z.of_nat cnt)) log.
Proof.
  pose proof N_bound as [HN0 HN1].
  induction cnt as [|cnt IH]; intros n cur Hn Hcnt Hlen.
  - exists cur, []. cbn [reorder_loop]. split; [done|]. split; [done|].
    split; [|by constructor].
    intros i Hi. unfold pending. rewrite bool_decide_eq_false_2 by lia. done.
  - cbn [reorder_loop].
    destruct (halve_step_spec k (Z.to_nat Mach.int_bits) (n - 1))
      as (j & Hj & Hdo & Hlt & Hmax & Hnext);
      [unfold Mach.int_bits; lia | lia | lia | fold N; lia |].
    replace (n - 1 + 1) with n in Hnext by lia. fold N in Hdo, Hlt.
    rewrite to_int_small by lia. rewrite Hdo. cbn [mbind option_bind].
    pose proof (bitrev_range k (n - 1)) as Hr1. fold N in Hr1.
    pose proof (bitrev_range k n) as Hr. fold N in Hr.
    rewrite next_m_pow2 by lia. rewrite Hnext.
    assert (Hinv : bitrev k (bitrev k n) = n)
      by (apply bitrev_involutive; fold N; lia).
    assert (Hstep : ∀ b, b = bool_decide (n < bitrev k n) →
              step_ok k n (ReorderStep n (2 ^ Z.of_nat j) (bitrev k n) b)).
    { intros b ->. unfold step_ok. cbn [rs_n rs_m rs_l rs_swapped].
      split; [done|]. split; [done|]. split; [done|]. split; [done|].
      exists j. split; [done|]. split; [done|]. split; [done|].
      intros j' Hj'. fold N. apply Hmax; lia. }
    rewrite seqZ_cons by lia.
    replace (Z.pred (Z.of_nat (S cnt))) with (Z.of_nat cnt) by lia.
    replace (Z.succ n) with (n + 1) by lia.
    assert (Hfacts : ∀ i, 0 ≤ i < N →
              (bitrev k i = bitrev k n → i = n)
              ∧ (bitrev k i = n → i = bitrev k n)
              ∧ (i = n → bitrev k i = bitrev k n)
              ∧ (i = bitrev k n → bitrev k i = n)
              ∧ 0 ≤ bitrev k i < N).
    { intros i Hi. split; [|split; [|split; [|split]]].
      - intros E. apply (bitrev_inj k); fold N; (lia || done).
      - intros E. rewrite <- E. symmetry. apply bitrev_involutive. fold N. lia.
      - by intros ->.
      - by intros ->.
      - apply bitrev_range. }
    destruct (decide (bitrev k n ≤ n)) as [Hle|Hle];
      [rewrite (bool_decide_eq_true_2 (bitrev k n ≤ n)) by done
      |rewrite (bool_decide_eq_false_2 (bitrev k n ≤ n)) by done].
    + (* m <= n: nothing to exchange *)
      destruct (IH (n + 1) cur) as (out & log & Hrun & Hlo & Hget & Hlog);
        [lia | lia | done |].
      replace (n + 1 - 1) with n in Hrun by lia. rewrite Hrun.
      cbn [mbind option_bind fst snd].
      eexists _, _. split; [reflexivity|]. split; [done|]. split.
      * intros i Hi. rewrite Hget by done. f_equal.
        destruct (Hfacts i Hi) as (F1 & F2 & F3 & F4 & F5).
        unfold pending. repeat case_bool_decide; lia.
      * constructor; [|done]. apply Hstep.
        rewrite bool_decide_eq_false_2 by lia. done.
    + (* m > n: exchange positions n and m *)
      destruct (swap_spec cur n (bitrev k n)) as (cur1 & Hsw & Hl1 & Hg1);
        [lia | lia |].
      rewrite Hsw. cbn [mbind option_bind].
      destruct (IH (n + 1) cur1) as (out & log & Hrun & Hlo & Hget & Hlog);
        [lia | lia | lia |].
      replace (n + 1 - 1) with n in Hrun by lia. rewrite Hrun.
      cbn [mbind option_bind fst snd].
      eexists _, _. split; [reflexivity|]. split; [congruence|]. split.
      * intros i Hi. rewrite Hget by done. rewrite Hg1. f_equal.
        destruct (Hfacts i Hi) as (F1 & F2 & F3 & F4 & F5).
        unfold pending, transp.
        repeat case_bool_decide; repeat case_decide; lia.
      * constructor; [|done]. apply Hstep.
        rewrite bool_decide_eq_true_2 by lia. done.
Qed.

End ReorderLoop.

Section ReorderSamples.
Context {A : Type}.
Implicit Types (iq : list A).

Lemma pending_start (k : nat) (i : Z) :
  0 ≤ i < 2 ^ Z.of_nat k → pending k 1 i = bitrev k i.
Proof.
  intros Hi. unfold pending. case_bool_decide as H; [done|].
  pose proof (bitrev_range k i) as Hr.
  destruct (decide (i = 0)) as [->|Hne]; [by rewrite bitrev_0|].
  assert (E : bitrev k i = bitrev k 0) by (rewrite bitrev_0; lia).
  apply bitrev_inj in E; [lia | done |]. pose proof (pow2_pos k). lia.
Qed.

(** On a power of two that fits an [int], the reorder returns, and
    position [i] of the result holds what was at the reversal of [i]. *)
Lemma fft_reorder_samples_log_spec (k : nat) iq :
  (k ≤ 30)%nat → Z.of_nat (length iq) = 2 ^ Z.of_nat k →
  ∃ out log,
    fft_reorder_samples_log iq (2 ^ Z.of_nat k) = Some (out, log)
    ∧ length out = length iq
    ∧ (∀ i, 0 ≤ i < 2 ^ Z.of_nat k → get out i = get iq (bitrev k i))
    ∧ Forall2 (step_ok k) (seqZ 1 (2 ^ Z.of_nat k - 1)) log.
Proof.
  intros Hk Hlen. pose proof (pow2_pos k) as Hp.
  destruct (reorder_loop_spec (A:=A) k Hk (Z.to_nat (2 ^ Z.of_nat k - 1)) 1 iq)
    as (out & log & Hrun & Hl & Hget & Hlog); [lia | lia | done |].
  change (1 - 1) with 0 in Hrun. rewrite bitrev_0 in Hrun.
  rewrite Z2Nat.id in Hlog by lia.
  exists out, log. split; [exact Hrun|]. split; [done|]. split; [|done].
  intros i Hi. rewrite Hget by done. by rewrite pending_start.
Qed.

Lemma fft_reorder_samples_twice_small (k : nat) iq :
  (k ≤ 30)%nat → Z.of_nat (length iq) = 2 ^ Z.of_nat k →
  ∃ iq', fft_reorder_samples iq (2 ^ Z.of_nat k) = Some iq'
         ∧ fft_reorder_samples iq' (2 ^ Z.of_nat k) = Some iq.
Proof.
  intros Hk Hlen.
  destruct (fft_reorder_samples_log_spec k iq Hk Hlen)
    as (out & log & Hrun & Hl & Hget & _).
  destruct (fft_reorder_samples_log_spec k out Hk ltac:(lia))
    as (out2 & log2 & Hrun2 & Hl2 & Hget2 & _).
  exists out. unfold fft_reorder_samples. rewrite Hrun, Hrun2. cbn.
  split; [done|]. f_equal. apply get_ext; [congruence|].
  intros i Hi. rewrite Hget2 by lia. rewrite Hget by (apply bitrev_range).
  rewrite bitrev_involutive by lia. done.
Qed.

(** When the conversion of [N] to [int] makes the inner loop stop at
    [l = 0] from [m = 0], [m] never moves and nothing is exchanged. *)
Lemma reorder_loop_stuck (N : Z) :
  do_halve (Z.to_nat Mach.int_bits) N 0 (Mach.to_int N) = Some 0 →
  ∀ (cnt : nat) (n : Z) iq, 0 ≤ n →
    ∃ log, reorder_loop cnt N n 0 iq = Some (iq, log).
Proof.
  intros Hdo. induction cnt as [|cnt IH]; intros n iq Hn.
  - by exists [].
  - cbn [reorder_loop]. rewrite Hdo. cbn [mbind option_bind].
    change (next_m 0 0) with 0. rewrite bool_decide_eq_true_2 by done.
    destruct (IH (n + 1) iq ltac:(lia)) as [log ->]. cbn. eauto.
Qed.

Lemma to_int_large_pow2 (k : nat) :
  (32 ≤ k)%nat → Mach.to_int (2 ^ Z.of_nat k) = 0.
Proof.
  intros Hk. unfold Mach.to_int, Mach.int_bits. change (32 - 1) with 31.
  replace (2 ^ Z.of_nat k) with (2 ^ Z.of_nat (k - 32) * 2 ^ 32)
    by (rewrite <- Z.pow_add_r by lia; f_equal; lia).
  rewrite Z.add_comm, Z.mod_add by lia. done.
Qed.

Lemma do_halve_large_pow2 (k : nat) :
  (31 ≤ k)%nat →
  do_halve (Z.to_nat Mach.int_bits) (2 ^ Z.of_nat k) 0
    (Mach.to_int (2 ^ Z.of_nat k)) = Some 0.
Proof.
  intros Hk. destruct (decide (k = 31%nat)) as [->|Hne].
  - vm_compute. reflexivity.
  - rewrite to_int_large_pow2 by lia. pose proof (pow2_pos k).
    change (Z.to_nat Mach.int_bits) with 32%nat. cbn [do_halve].
    change (0 ÷ 2) with 0. unfold halve_again.
    change (Mach.to_size (0 + 0)) with 0.
    rewrite bool_decide_eq_false_2 by lia. done.
Qed.

Lemma fft_reorder_samples_twice_large (k : nat) iq :
  (31 ≤ k)%nat →
  fft_reorder_samples iq (2 ^ Z.of_nat k) = Some iq.
Proof.
  intros Hk. unfold fft_reorder_samples, fft_reorder_samples_log.
  destruct (reorder_loop_stuck _ (do_halve_large_pow2 k Hk)
              (Z.to_nat (2 ^ Z.of_nat k - 1)) 1 iq ltac:(lia)) as [log ->].
  done.
Qed.

End ReorderSamples.

(** C6. The bit-reversal reorder is its own inverse: for every power of
    two [N = 2^k] and every buffer of [N] samples, [fft_reorder_samples]
    returns, and applied to its own result it returns the original
    buffer. (From [N = 2^31] on, the conversion of [N] to [int] makes
    the function leave the buffer as it is.) *)
Theorem fft_reorder_samples_involutive {A : Type} (k : nat) (iq : list A) :
  Z.of_nat (length iq) = 2 ^ Z.of_nat k →
  ∃ iq', fft_reorder_samples iq (2 ^ Z.of_nat k) = Some iq'
         ∧ fft_reorder_samples iq' (2 ^ Z.of_nat k) = Some iq.
Proof.
  intros Hlen. destruct (decide (k ≤ 30)%nat) as [Hk|Hk].
  - by apply fft_reorder_samples_twice_small.
  - exists iq. split; apply fft_reorder_samples_twice_large; lia.
Qed.

Lemma fft_reorder_samples_involutive_witness :
  ∃ iq', fft_reorder_samples [10; 11; 12; 13; 14; 15; 16; 17] (2 ^ Z.of_nat 3) = Some iq'
         ∧ fft_reorder_samples iq' (2 ^ Z.of_nat 3) = Some [10; 11; 12; 13; 14; 15; 16; 17].
Proof.
  apply (fft_reorder_samples_involutive 3 [10; 11; 12; 13; 14; 15; 16; 17]).
  reflexivity.
Defined.

Section SwapLog.
Variable k : nat.

(** The exchanges of a run are those of the indices below their own
    reversal. *)
Lemma swaps_of_log (ns : list Z) (log : list reorder_step) :
  Forall2 (step_ok k) ns log →
  swaps log = (λ n, (n, bitrev k n)) <$> filter (λ n, n < bitrev k n) ns.
Proof.
  induction 1 as [|n s ns log Hs _ IH]; [done|].
  destruct Hs as (Hn & Hm & Hsw & _).
  unfold swaps in *. cbn [omap list_omap]. rewrite Hsw, Hn, Hm.
  rewrite filter_cons. case_bool_decide; case_decide; try lia.
  - rewrite fmap_cons. by f_equal.
  - done.
Qed.

Lemma swaps_NoDup (a : Z) (len : Z) :
  NoDup ((λ n, (n, bitrev k n)) <$> filter (λ n, n < bitrev k n) (seqZ a len)).
Proof.
  apply NoDup_fmap_2_strong.
  - intros x y _ _ [= ->]. done.
  - apply NoDup_filter, NoDup_seqZ.
Qed.

End SwapLog.

(** C7, as the code has it. On [N = 2^k] (fitting an [int]) the loop
    visits [n = 1, ..., N - 1] in order; at each [n] the step [l] is the
    largest halving of [N] that keeps [m + l] below [N], the new [m] is
    the bit reversal of [n], and positions [n] and [m] are exchanged
    exactly when [n < m] (the iteration is skipped when [m ≤ n]); so
    the exchanges are those of the indices below their reversal, each
    pair once. *)
Theorem fft_reorder_samples_swaps {A : Type} (k : nat) (iq : list A) :
  (k ≤ 30)%nat → Z.of_nat (length iq) = 2 ^ Z.of_nat k →
  ∃ out log,
    fft_reorder_samples_log iq (2 ^ Z.of_nat k) = Some (out, log)
    ∧ Forall2 (step_ok k) (seqZ 1 (2 ^ Z.of_nat k - 1)) log
    ∧ swaps log
      = (λ n, (n, bitrev k n))
          <$> filter (λ n, n < bitrev k n) (seqZ 1 (2 ^ Z.of_nat k - 1))
    ∧ NoDup (swaps log)
    ∧ ∀ n m, (n, m) ∈ swaps log → n < m ∧ (m, n) ∉ swaps log.
Proof.
  intros Hk Hlen.
  destruct (fft_reorder_samples_log_spec k iq Hk Hlen)
    as (out & log & Hrun & _ & _ & Hlog).
  pose proof (swaps_of_log k _ _ Hlog) as Hsw.
  exists out, log. split; [done|]. split; [done|]. split; [done|].
  rewrite Hsw. split; [apply swaps_NoDup|].
  assert (Hlt : ∀ n m,
    (n, m) ∈ (λ n, (n, bitrev k n))
               <$> filter (λ n, n < bitrev k n) (seqZ 1 (2 ^ Z.of_nat k - 1))
    → n < m).
  { intros n m (x & [= -> ->] & Hx%list_elem_of_filter)%list_elem_of_fmap. tauto. }
  intros n m Hnm. split; [by apply Hlt|].
  intros Hmn. apply Hlt in Hnm, Hmn. lia.
Qed.

Lemma fft_reorder_samples_swaps_witness :
  ∃ out log,
    fft_reorder_samples_log [10; 11; 12; 13] (2 ^ Z.of_nat 2) = Some (out, log)
    ∧ Forall2 (step_ok 2) (seqZ 1 (2 ^ Z.of_nat 2 - 1)) log
    ∧ swaps log
      = (λ n, (n, bitrev 2 n))
          <$> filter (λ n, n < bitrev 2 n) (seqZ 1 (2 ^ Z.of_nat 2 - 1))
    ∧ NoDup (swaps log)
    ∧ ∀ n m, (n, m) ∈ swaps log → n < m ∧ (m, n) ∉ swaps log.
Proof.
  apply (fft_reorder_samples_swaps 2 [10; 11; 12; 13]).
  - lia.
  - reflexivity.
Defined.

(** C7 as stated fails: on four samples the iteration [n = 1] finds
    [m = 2] and exchanges the two positions although [m ≤ n] does not
    hold. *)
Lemma fft_reorder_samples_swaps_when_m_above_n :
  ∃ out log s,
    fft_reorder_samples_log [10; 11; 12; 13] 4 = Some (out, log)
    ∧ out = [10; 12; 11; 13]
    ∧ s ∈ log
    ∧ rs_n s = 1 ∧ rs_m s = 2 ∧ rs_swapped s = true
    ∧ ¬ (rs_m s ≤ rs_n s).
Proof.
  eexists _, _, (ReorderStep 1 2 2 true).
  split; [vm_compute; reflexivity|].
  split; [reflexivity|]. split; [apply list_elem_of_here|].
  cbn. repeat split; lia.
Qed.

(** ** Loops over a range and over an array *)

Section LoopFacts.
Context {St : Type}.
Implicit Types (body : Z → St → option St) (s : St).

Lemma loop_indices_done (lo hi step : Z) :
  0 < step → hi ≤ lo → loop_indices lo hi step = [].
Proof.
  intros Hs Hle. unfold loop_indices.
  rewrite seqZ_nil; [done|].
  enough ((hi - lo + step - 1) / step < 1) by lia.
  apply Z.div_lt_upper_bound; lia.
Qed.

Lemma loop_indices_next (lo hi step : Z) :
  0 < step → lo < hi →
  loop_indices lo hi step = lo :: loop_indices (lo + step) hi step.
Proof.
  intros Hs Hlt. unfold loop_indices.
  replace (hi - lo + step - 1) with ((hi - (lo + step) + step - 1) + 1 * step)
    by lia.
  rewrite Z.div_add by lia.
  assert (0 ≤ (hi - (lo + step) + step - 1) / step)
    by (apply Z.div_pos; lia).
  rewrite seqZ_cons by lia. rewrite fmap_cons. f_equal; [lia|].
  replace (Z.pred ((hi - (lo + step) + step - 1) / step + 1))
    with ((hi - (lo + step) + step - 1) / step) by lia.
  replace (Z.succ 0) with (1 + 0) by lia.
  rewrite <- (fmap_add_seqZ 1 0), <- list_fmap_compose.
  apply list_fmap_ext. intros _ k _. cbn. lia.
Qed.

(** A loop with a positive step runs its body over [loop_indices]. *)
Lemma for_fuel_indices (fuel : nat) body : ∀ (i hi step : Z) s,
  0 < step → hi - i ≤ Z.of_nat fuel →
  for_fuel fuel i hi step body s = fold_opt body (loop_indices i hi step) s.
Proof.
  induction fuel as [|fuel IH]; intros i hi step s Hs Hf.
  - cbn [for_fuel]. rewrite bool_decide_eq_false_2 by lia.
    rewrite loop_indices_done by lia. done.
  - cbn [for_fuel]. case_bool_decide as Hlt.
    + rewrite loop_indices_next by lia. cbn [fold_opt].
      destruct (body i s); [|done]. cbn. apply IH; lia.
    + rewrite loop_indices_done by lia. done.
Qed.

Lemma for_range_indices body (lo hi step : Z) s :
  0 < step →
  for_range lo hi step body s = fold_opt body (loop_indices lo hi step) s.
Proof. intros Hs. unfold for_range. apply for_fuel_indices; lia. Qed.

Lemma loop_indices_1 (lo hi : Z) : loop_indices lo hi 1 = seqZ lo (hi - lo).
Proof.
  unfold loop_indices. rewrite Z.div_1_r.
  replace (hi - lo + 1 - 1) with (hi - lo) by lia.
  replace lo with (lo + 0) at 2 by lia.
  rewrite <- (fmap_add_seqZ lo 0).
  apply list_fmap_ext. intros _ k _. lia.
Qed.

Lemma for_range_1 body (lo hi : Z) s :
  for_range lo hi 1 body s = fold_opt body (seqZ lo (hi - lo)) s.
Proof. rewrite for_range_indices by lia. by rewrite loop_indices_1. Qed.

(** A loop whose variable does not advance never exits. *)
Lemma for_fuel_stuck (fuel : nat) body (i hi : Z) s :
  i < hi → for_fuel fuel i hi 0 body s = None.
Proof.
  intros Hlt. revert s. induction fuel as [|fuel IH]; intros s.
  - cbn [for_fuel]. by rewrite bool_decide_eq_true_2.
  - cbn [for_fuel]. rewrite bool_decide_eq_true_2 by done.
    destruct (body i s); [|done]. cbn. rewrite Z.add_0_r. apply IH.
Qed.

End LoopFacts.

Section ArrayLoops.
Context {A : Type}.

Lemma get_app_r (pre todo : list A) (x : A) :
  get (pre ++ x :: todo) (Z.of_nat (length pre)) = Some x.
Proof.
  unfold get. rewrite bool_decide_eq_true_2, Nat2Z.id by lia.
  by rewrite list_lookup_middle.
Qed.

Lemma set_app_r (pre todo : list A) (x y : A) :
  set (pre ++ x :: todo) (Z.of_nat (length pre)) y = Some (pre ++ y :: todo).
Proof.
  unfold set. rewrite bool_decide_eq_true_2, Nat2Z.id.
  - f_equal. rewrite insert_app_r_alt, Nat.sub_diag by lia. done.
  - rewrite length_app. cbn [length]. lia.
Qed.

(** A loop that reads every element in turn. *)
Lemma read_loop_spec {St : Type} (f : St → A → St) (todo : list A) :
  ∀ (pre : list A) (s : St),
    fold_opt (λ n s, x ← get (pre ++ todo) n; Some (f s x))
             (seqZ (Z.of_nat (length pre)) (Z.of_nat (length todo))) s
    = Some (foldl f s todo).
Proof.
  induction todo as [|x todo IH]; intros pre s; [done|].
  cbn [length]. rewrite seqZ_cons by lia. cbn [fold_opt foldl].
  rewrite get_app_r. cbn [mbind option_bind].
  replace (Z.pred (Z.of_nat (S (length todo)))) with (Z.of_nat (length todo))
    by lia.
  specialize (IH (pre ++ [x]) (f s x)).
  rewrite length_app, <- app_assoc in IH. cbn in IH.
  replace (Z.succ (Z.of_nat (length pre)))
    with (Z.of_nat (length pre + 1)) by lia. exact IH.
Qed.

(** A loop that rewrites every element in turn. *)
Lemma update_loop_spec (g : Z → A → A) (todo : list A) :
  ∀ (pre : list A),
    fold_opt (λ n iq, x ← get iq n; set iq n (g n x))
             (seqZ (Z.of_nat (length pre)) (Z.of_nat (length todo)))
             (pre ++ todo)
    = Some (pre ++ zip_with g
              (seqZ (Z.of_nat (length pre)) (Z.of_nat (length todo))) todo).
Proof.
  induction todo as [|x todo IH]; intros pre; [done|].
  cbn [length]. rewrite seqZ_cons by lia. cbn [fold_opt zip_with].
  rewrite get_app_r. cbn [mbind option_bind]. rewrite set_app_r.
  cbn [mbind option_bind].
  replace (Z.pred (Z.of_nat (S (length todo)))) with (Z.of_nat (length todo))
    by lia.
  specialize (IH (pre ++ [g (Z.of_nat (length pre)) x])).
  rewrite length_app, <- !app_assoc in IH. cbn in IH.
  replace (Z.succ (Z.of_nat (length pre)))
    with (Z.of_nat (length pre + 1)) by lia. exact IH.
Qed.

Lemma zip_with_ignore_l {B : Type} (f : A → A) (ns : list B) (l : list A) :
  length ns = length l → zip_with (λ _ x, f x) ns l = f <$> l.
Proof.
  revert ns. induction l as [|x l IH]; intros [|n ns] Hlen; try done.
  cbn. f_equal. apply IH. by injection Hlen.
Qed.

End ArrayLoops.

(** ** DC removal *)

Section RemoveDC.
Implicit Types (iqbuf : list iq_t) (a : iq_t).

Lemma foldl_add_sums iqbuf a :
  foldl Complex.add a iqbuf
  = iq (Fixq15.value (Complex.real a) + sum_real iqbuf)
       (Fixq15.value (Complex.imag a) + sum_imag iqbuf).
Proof.
  revert a. induction iqbuf as [|x l IH]; intros [[ar] [ai]].
  - cbn. unfold iq. by rewrite !Z.add_0_r.
  - cbn [foldl]. rewrite IH. destruct x as [[xr] [xi]].
    cbn [sum_real sum_imag foldr Complex.add Complex.real Complex.imag
         sc_add Fixq15.fixq15_scalar Fixq15.add Fixq15.value].
    fold (sum_real l). fold (sum_imag l).
    unfold iq. f_equal; f_equal; lia.
Qed.

Lemma sums_after_sub iqbuf a :
  sum_real ((λ x, Complex.sub x a) <$> iqbuf)
    = sum_real iqbuf - Z.of_nat (length iqbuf) * Fixq15.value (Complex.real a)
  ∧ sum_imag ((λ x, Complex.sub x a) <$> iqbuf)
    = sum_imag iqbuf - Z.of_nat (length iqbuf) * Fixq15.value (Complex.imag a).
Proof.
  induction iqbuf as [|x l [IHr IHi]]; [done|].
  rewrite fmap_cons. cbn [sum_real sum_imag foldr length].
  fold (sum_real ((λ x, Complex.sub x a) <$> l)).
  fold (sum_imag ((λ x, Complex.sub x a) <$> l)).
  fold (sum_real l). fold (sum_imag l).
  rewrite IHr, IHi. cbn. lia.
Qed.

Lemma quot_rescaled (s N : Z) : 0 < N → (s * Q15) ÷ (N * Q15) = s ÷ N.
Proof. intros HN. apply Z.quot_mul_cancel_r; unfold Q15; lia. Qed.

Lemma quot_of_rem (s N : Z) : 0 < N → (s - N * (s ÷ N)) ÷ N = 0.
Proof.
  intros HN. apply Z.quot_small_iff; [lia|].
  pose proof (Z.quot_rem' s N) as E.
  pose proof (Z.rem_bound_abs s N ltac:(lia)). 
  replace (s - N * (s ÷ N)) with (Z.rem s N) by lia. done.
Qed.

(** What [remove_dc] computes on a buffer of [N] samples: the means of
    the two parts, truncated, are taken off every sample, unless both
    are zero. *)
Lemma remove_dc_spec iqbuf (N : Z) :
  0 < N → Z.of_nat (length iqbuf) = N →
  remove_dc iqbuf N
  = Some (if bool_decide (sum_real iqbuf ÷ N = 0 ∧ sum_imag iqbuf ÷ N = 0)
          then iqbuf
          else (λ x, Complex.sub x (iq (sum_real iqbuf ÷ N)
                                       (sum_imag iqbuf ÷ N))) <$> iqbuf).
Proof.
  intros HN Hlen. unfold remove_dc. rewrite !for_range_1, Z.sub_0_r.
  rewrite <- Hlen.
  rewrite (read_loop_spec Complex.add iqbuf []). cbn [mbind option_bind].
  rewrite foldl_add_sums. cbn [iq Complex.real Complex.imag Fixq15.value].
  rewrite !Z.add_0_l.
  unfold Complex.div_scalar. cbn [sc_div Fixq15.fixq15_scalar Complex.real Complex.imag iq].
  unfold Fixq15.div. cbn [Fixq15.value].
  rewrite bool_decide_eq_false_2 by (unfold Q15; lia).
  cbn [mbind option_bind]. rewrite !quot_rescaled by lia. rewrite Hlen.
  set (ar := sum_real iqbuf ÷ N). set (ai := sum_imag iqbuf ÷ N).
  destruct (decide (ar = 0 ∧ ai = 0)) as [[E1 E2]|Hne].
  - rewrite E1, E2. rewrite bool_decide_eq_true_2 by done.
    rewrite bool_decide_eq_true_2 by done. done.
  - rewrite bool_decide_eq_false_2.
    2:{ unfold iq. intros [= E1 E2]. tauto. }
    rewrite (bool_decide_eq_false_2 (ar = 0 ∧ ai = 0)) by done.
    pose proof (update_loop_spec
                  (λ (_ : Z) x, Complex.sub x (iq ar ai)) iqbuf []) as Hu.
    cbn [length app] in Hu. rewrite Hlen in Hu.
    change (Z.of_nat 0) with 0 in Hu.
    rewrite for_range_1, Z.sub_0_r. fold (iq ar ai). rewrite Hu.
    f_equal. apply zip_with_ignore_l. rewrite length_seqZ. lia.
Qed.

End RemoveDC.

(** C8. DC removal is idempotent: on every buffer of [N ≥ 1] samples
    [remove_dc] returns, a second application returns the same buffer as
    the first, and when the mean it computes (the sums of the two parts
    divided by [N], truncated) is the zero complex value the buffer is
    left as it was. *)
Theorem remove_dc_idempotent (iqbuf : list iq_t) (N : Z) :
  0 < N → Z.of_nat (length iqbuf) = N →
  ∃ iq1, remove_dc iqbuf N = Some iq1
         ∧ remove_dc iq1 N = Some iq1
         ∧ (sum_real iqbuf ÷ N = 0 ∧ sum_imag iqbuf ÷ N = 0 → iq1 = iqbuf).
Proof.
  intros HN Hlen. rewrite remove_dc_spec by done.
  case_bool_decide as Hz.
  - exists iqbuf. split; [done|]. split; [|done].
    rewrite remove_dc_spec by done. by rewrite bool_decide_eq_true_2.
  - eexists. split; [done|]. split; [|tauto].
    rewrite remove_dc_spec by (done || rewrite length_fmap; done).
    destruct (sums_after_sub iqbuf
                (iq (sum_real iqbuf ÷ N) (sum_imag iqbuf ÷ N))) as [-> ->].
    cbn [iq Complex.real Complex.imag Fixq15.value]. rewrite Hlen.
    rewrite !quot_of_rem by done. by rewrite bool_decide_eq_true_2.
Qed.

Lemma remove_dc_idempotent_witness :
  ∃ iq1, remove_dc [iq 768 (-512); iq 1024 256; iq (-256) 0; iq 512 1280] 4 = Some iq1
         ∧ remove_dc iq1 4 = Some iq1
         ∧ (sum_real [iq 768 (-512); iq 1024 256; iq (-256) 0; iq 512 1280] ÷ 4 = 0
            ∧ sum_imag [iq 768 (-512); iq 1024 256; iq (-256) 0; iq 512 1280] ÷ 4 = 0
            → iq1 = [iq 768 (-512); iq 1024 256; iq (-256) 0; iq 512 1280]).
Proof.
  apply (remove_dc_idempotent
           [iq 768 (-512); iq 1024 256; iq (-256) 0; iq 512 1280] 4).
  - lia.
  - reflexivity.
Defined.

(** ** Rounding, and the entries of the table *)

Section Rounding.
#[local] Open Scope R_scope.

Lemma c_round_near (x : R) (z : Z) : Rabs (x - IZR z) < / 2 → c_round x = z.
Proof.
  intros H. apply Rabs_def2 in H as [H1 H2]. unfold c_round.
  destruct (Rle_dec 0 x) as [Hx|Hx].
  - symmetry. apply Int_part_spec. lra.
  - enough (Int_part (- x + / 2) = (- z)%Z) as -> by lia.
    symmetry. apply Int_part_spec. rewrite opp_IZR. lra.
Qed.

Lemma c_round_bound (x : R) : Rabs (IZR (c_round x) - x) <= / 2.
Proof.
  unfold c_round. destruct (Rle_dec 0 x) as [Hx|Hx].
  - destruct (base_Int_part (x + / 2)) as [H1 H2].
    apply Rabs_le. lra.
  - destruct (base_Int_part (- x + / 2)) as [H1 H2].
    rewrite opp_IZR. apply Rabs_le. lra.
Qed.

Lemma c_round_IZR_mult (z : Z) (v : R) (s : Z) :
  v = IZR s → c_round (IZR z * v) = (z * s)%Z.
Proof.
  intros ->. apply c_round_near. rewrite mult_IZR.
  replace (IZR z * IZR s - IZR z * IZR s) with 0 by lra.
  rewrite Rabs_R0. lra.
Qed.

Lemma sqrt2_bounds : 1.414213 < sqrt 2 < 1.414214.
Proof.
  split.
  - rewrite <- (sqrt_square 1.414213) by lra. apply sqrt_lt_1; lra.
  - rewrite <- (sqrt_square 1.414214) by lra. apply sqrt_lt_1; lra.
Qed.

Lemma c_round_Q15_inv_sqrt2 : c_round (IZR Q15 * (1 / sqrt 2)) = 23170%Z.
Proof.
  apply c_round_near. pose proof sqrt2_bounds as [H1 H2].
  assert (Hs : 0 < sqrt 2) by lra.
  unfold Q15. apply Rabs_def1.
  - apply Rmult_lt_reg_r with (sqrt 2); [done|]. field_simplify; lra.
  - apply Rmult_lt_reg_r with (sqrt 2); [done|]. field_simplify; lra.
Qed.

Lemma c_round_Q15_neg_inv_sqrt2 :
  c_round (IZR Q15 * (-1 / sqrt 2)) = (-23170)%Z.
Proof.
  apply c_round_near. pose proof sqrt2_bounds as [H1 H2].
  assert (Hs : 0 < sqrt 2) by lra.
  unfold Q15. apply Rabs_def1.
  - apply Rmult_lt_reg_r with (sqrt 2); [done|]. field_simplify; lra.
  - apply Rmult_lt_reg_r with (sqrt 2); [done|]. field_simplify; lra.
Qed.

End Rounding.

Section FillLoop.
Context {A : Type}.

(** A loop that overwrites every element in turn. *)
Lemma fill_loop_spec (g : Z → A) (todo : list A) :
  ∀ (pre : list A),
    fold_opt (λ n e, set e n (g n))
             (seqZ (Z.of_nat (length pre)) (Z.of_nat (length todo)))
             (pre ++ todo)
    = Some (pre ++ (g <$> seqZ (Z.of_nat (length pre))
                               (Z.of_nat (length todo)))).
Proof.
  induction todo as [|x todo IH]; intros pre; [done|].
  cbn [length]. rewrite seqZ_cons by lia. cbn [fold_opt fmap list_fmap].
  rewrite set_app_r. cbn [mbind option_bind].
  replace (Z.pred (Z.of_nat (S (length todo)))) with (Z.of_nat (length todo))
    by lia.
  specialize (IH (pre ++ [g (Z.of_nat (length pre))])).
  rewrite length_app, <- !app_assoc in IH. cbn in IH.
  replace (Z.succ (Z.of_nat (length pre)))
    with (Z.of_nat (length pre + 1)) by lia. exact IH.
Qed.

End FillLoop.

Section Table.

(** The table [main] builds has [fft_size] entries, entry [i] being
    [twiddle i fft_size]. *)
Lemma main_table_spec (N : Z) :
  0 ≤ N → main_table N = Some ((λ i, twiddle i N) <$> seqZ 0 N).
Proof.
  intros HN. unfold main_table, generate_e_2pi_i, make_unique_iq.
  rewrite for_range_1, Z.sub_0_r.
  pose proof (fill_loop_spec (λ i, twiddle i N)
                (replicate (Z.to_nat N) (iq 0 0)) []) as Hf.
  rewrite length_replicate, Z2Nat.id in Hf by done. exact Hf.
Qed.

#[local] Open Scope R_scope.

Lemma trig_7PI4 : cos (7 * (PI / 4)) = 1 / sqrt 2 ∧ sin (7 * (PI / 4)) = -1 / sqrt 2.
Proof.
  replace (7 * (PI / 4)) with (2 * PI - PI / 4) by lra.
  rewrite cos_minus, sin_minus, cos_2PI, sin_2PI, cos_PI4, sin_PI4.
  split; lra.
Qed.

Lemma twiddle_eq (i N : Z) (x c s : R) (zc zs : Z) :
  2 * PI * IZR i / IZR N = x →
  cos x = c → sin x = s →
  c_round (IZR Q15 * c) = zc → c_round (IZR Q15 * s) = zs →
  twiddle i N = iq zc zs.
Proof. intros <- <- <- <- <-. reflexivity. Qed.

Lemma round_Q15_1 : c_round (IZR Q15 * 1) = 32768%Z.
Proof. by rewrite (c_round_IZR_mult Q15 1 1). Qed.
Lemma round_Q15_0 : c_round (IZR Q15 * 0) = 0%Z.
Proof. by rewrite (c_round_IZR_mult Q15 0 0). Qed.
Lemma round_Q15_m1 : c_round (IZR Q15 * -1) = (-32768)%Z.
Proof. by rewrite (c_round_IZR_mult Q15 (-1) (-1)). Qed.

Lemma main_table_4 :
  main_table 4 = Some [iq 32768 0; iq 0 32768; iq (-32768) 0; iq 0 (-32768)].
Proof.
  rewrite main_table_spec by lia. f_equal.
  change (seqZ 0 4) with [0; 1; 2; 3]%Z. cbn [fmap list_fmap].
  repeat f_equal.
  - apply (twiddle_eq 0 4 0 1 0); [lra | apply cos_0 | apply sin_0
                                  | apply round_Q15_1 | apply round_Q15_0].
  - apply (twiddle_eq 1 4 (PI / 2) 0 1);
      [lra | apply cos_PI2 | apply sin_PI2 | apply round_Q15_0 | apply round_Q15_1].
  - apply (twiddle_eq 2 4 PI (-1) 0);
      [lra | apply cos_PI | apply sin_PI | apply round_Q15_m1 | apply round_Q15_0].
  - apply (twiddle_eq 3 4 (3 * (PI / 2)) 0 (-1));
      [lra | apply cos_3PI2 | apply sin_3PI2 | apply round_Q15_0 | apply round_Q15_m1].
Qed.

Lemma main_table_8 :
  main_table 8
  = Some [iq 32768 0; iq 23170 23170; iq 0 32768; iq (-23170) 23170;
          iq (-32768) 0; iq (-23170) (-23170); iq 0 (-32768);
          iq 23170 (-23170)].
Proof.
  rewrite main_table_spec by lia. f_equal.
  change (seqZ 0 8) with [0; 1; 2; 3; 4; 5; 6; 7]%Z. cbn [fmap list_fmap].
  pose proof c_round_Q15_inv_sqrt2 as Hp.
  pose proof c_round_Q15_neg_inv_sqrt2 as Hm.
  pose proof trig_7PI4 as [Hc7 Hs7].
  repeat f_equal.
  - apply (twiddle_eq 0 8 0 1 0); [lra | apply cos_0 | apply sin_0
                                  | apply round_Q15_1 | apply round_Q15_0].
  - apply (twiddle_eq 1 8 (PI / 4) (1 / sqrt 2) (1 / sqrt 2));
      [lra | apply cos_PI4 | apply sin_PI4 | done | done].
  - apply (twiddle_eq 2 8 (PI / 2) 0 1);
      [lra | apply cos_PI2 | apply sin_PI2 | apply round_Q15_0 | apply round_Q15_1].
  - apply (twiddle_eq 3 8 (3 * (PI / 4)) (-1 / sqrt 2) (1 / sqrt 2));
      [lra | apply cos_3PI4 | apply sin_3PI4 | done | done].
  - apply (twiddle_eq 4 8 PI (-1) 0);
      [lra | apply cos_PI | apply sin_PI | apply round_Q15_m1 | apply round_Q15_0].
  - apply (twiddle_eq 5 8 (5 * (PI / 4)) (-1 / sqrt 2) (-1 / sqrt 2));
      [lra | apply cos_5PI4 | apply sin_5PI4 | done | done].
  - apply (twiddle_eq 6 8 (3 * (PI / 2)) 0 (-1));
      [lra | apply cos_3PI2 | apply sin_3PI2 | apply round_Q15_0 | apply round_Q15_m1].
  - apply (twiddle_eq 7 8 (7 * (PI / 4)) (1 / sqrt 2) (-1 / sqrt 2));
      [lra | done | done | done | done].
Qed.

End Table.

(** ** The blocks of the acquisition stage *)

Section ProducerFacts.
Context {Q : Type} `{RingBuffer Q (list iq_t)}.
Variable cfg : config.
Variable pf : string.
Implicit Types (src : list byte) (w : world) (orb : Q).

Lemma get_byte_at src (p : Z) :
  0 ≤ p < Z.of_nat (length src) → get src p = Some (byte_at src p).
Proof.
  intros Hp. unfold byte_at. destruct (get_in_range src p Hp) as [b ->]. done.
Qed.

Lemma convert_sample_step src (offset : Z) (pre todo : list iq_t) (x : iq_t) w :
  0 ≤ offset →
  offset + 2 * Z.of_nat (length pre) + 1 < Z.of_nat (length src) →
  convert_sample src offset (Z.of_nat (length pre)) (pre ++ x :: todo, w)
  = Some (pre ++ sample_at src (offset + 2 * Z.of_nat (length pre)) :: todo,
          fprintf_fp w (line_at src (offset + 2 * Z.of_nat (length pre)))).
Proof.
  intros Hoff Hlen. unfold convert_sample. cbn [fst snd].
  rewrite !get_byte_at by lia. cbn [mbind option_bind].
  rewrite set_app_r. cbn [mbind option_bind].
  unfold sample_at, line_at.
  replace (offset + (2 * Z.of_nat (length pre) + 0))
    with (offset + 2 * Z.of_nat (length pre)) by lia.
  replace (offset + (2 * Z.of_nat (length pre) + 1))
    with (offset + 2 * Z.of_nat (length pre) + 1) by lia.
  done.
Qed.

Lemma convert_loop_spec src (offset : Z) (todo : list iq_t) :
  ∀ (pre : list iq_t) w,
    0 ≤ offset →
    offset + 2 * Z.of_nat (length pre + length todo) ≤ Z.of_nat (length src) →
    fold_opt (convert_sample src offset)
             (seqZ (Z.of_nat (length pre)) (Z.of_nat (length todo)))
             (pre ++ todo, w)
    = Some (pre ++ ((λ i, sample_at src (offset + 2 * i))
                      <$> seqZ (Z.of_nat (length pre)) (Z.of_nat (length todo))),
            World (fp w ++ ((λ i, line_at src (offset + 2 * i))
                      <$> seqZ (Z.of_nat (length pre)) (Z.of_nat (length todo))))
                  (err w) (counter w)).
Proof.
  induction todo as [|x todo IH]; intros pre w Hoff Hlen.
  - cbn. rewrite !app_nil_r. by destruct w.
  - cbn [length]. rewrite seqZ_cons by lia. cbn [fold_opt fmap list_fmap].
    rewrite convert_sample_step by (cbn [length] in Hlen; lia).
    cbn [mbind option_bind].
    replace (Z.pred (Z.of_nat (S (length todo)))) with (Z.of_nat (length todo))
      by lia.
    specialize (IH (pre ++ [sample_at src (offset + 2 * Z.of_nat (length pre))])
                   (fprintf_fp w (line_at src (offset + 2 * Z.of_nat (length pre))))
                   Hoff).
    rewrite length_app, <- !app_assoc in IH. cbn [length app] in IH.
    replace (Z.succ (Z.of_nat (length pre)))
      with (Z.of_nat (length pre + 1)) by lia.
    cbn [fprintf_fp fp err counter] in IH.
    rewrite IH by (cbn [length] in Hlen; lia).
    rewrite <- !app_assoc. done.
Qed.

(** One block: [fft_size] lines go to the output file, whatever the
    queue answers. *)
Lemma producer_block_spec src (offset : Z) w orb :
  0 ≤ fft_size cfg → 0 ≤ offset →
  offset + 2 * fft_size cfg ≤ Z.of_nat (length src) →
  ∃ w' orb',
    producer_block cfg pf src offset (w, orb) = Some (w', orb')
    ∧ fp w' = fp w ++ ((λ i, line_at src (offset + 2 * i))
                         <$> seqZ 0 (fft_size cfg))
    ∧ counter w' = counter w.
Proof.
  intros HF Hoff Hlen. unfold producer_block.
  rewrite bool_decide_eq_false_2 by lia.
  rewrite for_range_1, Z.sub_0_r. cbn [fst snd].
  pose proof (convert_loop_spec src offset (make_unique_iq (fft_size cfg)) [] w Hoff)
    as Hc.
  unfold make_unique_iq in *. cbn [length app] in Hc.
  rewrite length_replicate, Z2Nat.id in Hc by done.
  change (Z.of_nat 0) with 0 in Hc. rewrite Hc by lia.
  cbn [mbind option_bind fst snd].
  destruct (rb_write orb _) as [st orb'].
  eexists _, orb'. split; [reflexivity|].
  case_bool_decide; cbn; done.
Qed.

(** The blocks of one raw buffer, one after the other. *)
Lemma producer_blocks_spec src (F : Z) (ks : list Z) :
  fft_size cfg = F → 0 ≤ F →
  (∀ k, k ∈ ks → 0 ≤ k ∧ k * (2 * F) + 2 * F ≤ Z.of_nat (length src)) →
  ∀ w orb,
  ∃ w' orb',
    fold_opt (producer_block cfg pf src) ((λ k, 0 + k * (2 * F)) <$> ks) (w, orb)
    = Some (w', orb')
    ∧ fp w' = fp w ++ concat ((λ k, (λ i, line_at src (2 * (k * F + i)))
                                      <$> seqZ 0 F) <$> ks)
    ∧ counter w' = counter w.
Proof.
  intros HF HF0. induction ks as [|k ks IH]; intros Hks w orb.
  - exists w, orb. cbn. by rewrite app_nil_r.
  - rewrite !fmap_cons. cbn [fold_opt concat].
    destruct (Hks k ltac:(apply list_elem_of_here)) as [Hk0 Hk1].
    destruct (producer_block_spec src (0 + k * (2 * F)) w orb)
      as (w1 & orb1 & -> & Hfp1 & Hc1); [lia | nia | rewrite HF; lia |].
    cbn [mbind option_bind].
    destruct (IH ltac:(intros k' Hk'; apply Hks; by apply list_elem_of_further)
                 w1 orb1) as (w2 & orb2 & -> & Hfp2 & Hc2).
    exists w2, orb2. split; [done|]. split; [|congruence].
    rewrite Hfp2, Hfp1, HF, <- app_assoc. do 2 f_equal.
    apply list_fmap_ext. intros _ i _. f_equal. lia.
Qed.

Lemma concat_blocks {B : Type} (g : Z → B) (F : Z) (K : nat) :
  0 ≤ F →
  concat ((λ k, (λ i, g (k * F + i)) <$> seqZ 0 F) <$> seqZ 0 (Z.of_nat K))
  = g <$> seqZ 0 (Z.of_nat K * F).
Proof.
  intros HF. induction K as [|K IH]; [done|].
  replace (Z.of_nat (S K)) with (Z.of_nat K + 1) by lia.
  rewrite seqZ_app by lia. rewrite fmap_app, concat_app, IH.
  replace ((Z.of_nat K + 1) * F) with (Z.of_nat K * F + F) by lia.
  rewrite (seqZ_app 0 (Z.of_nat K * F) F) by nia.
  rewrite fmap_app. f_equal.
  change (seqZ (0 + Z.of_nat K) 1) with [0 + Z.of_nat K].
  cbn [fmap list_fmap concat]. rewrite app_nil_r.
  replace (0 + Z.of_nat K * F) with (Z.of_nat K * F + 0) by lia.
  rewrite <- (fmap_add_seqZ (Z.of_nat K * F) 0), <- list_fmap_compose.
  apply list_fmap_ext. intros _ i _. cbn. f_equal; lia.
Qed.

End ProducerFacts.

Section ProducerTheorems.
Context {Q : Type} `{RingBuffer Q (list iq_t)}.
Implicit Types (cfg : config) (dev : read_sync) (w : world) (orb : Q).

(** The flag is [false] on a failed read, and only then. *)
Lemma producer_failed_read cfg pf dev w orb :
  sync_status dev ≠ 0 →
  producer cfg pf dev w orb
  = Some (false, fprintf_stderr w "rtlsdr_read_sync(16384) failed", orb).
Proof. intros Hs. unfold producer. by rewrite bool_decide_eq_true_2. Qed.

Lemma producer_false_only_on_failed_read cfg pf dev w orb w' orb' :
  producer cfg pf dev w orb = Some (false, w', orb') → sync_status dev ≠ 0.
Proof.
  unfold producer. repeat case_bool_decide; try done.
  destruct (for_range _ _ _ _ _); cbn; done.
Qed.

Lemma producer_short_read cfg pf dev w orb :
  sync_status dev = 0 → Mach.to_size (sync_n_read dev) ≠ IQBUF_SIZE →
  producer cfg pf dev w orb
  = Some (true,
          fprintf_stderr w
            ("rtlsdr_read_sync(16384) dropped samples - received "
             +:+ pretty (sync_n_read dev)),
          orb).
Proof.
  intros Hs Hn. unfold producer.
  rewrite bool_decide_eq_false_2 by (intros ?; done).
  by rewrite bool_decide_eq_true_2.
Qed.

Lemma producer_full_read cfg pf dev w orb (j : nat) :
  fft_size cfg = 2 ^ Z.of_nat j → (j ≤ 13)%nat →
  sync_status dev = 0 → sync_n_read dev = IQBUF_SIZE →
  Z.of_nat (length (sync_bytes dev)) = IQBUF_SIZE →
  IDLE_LOOPS_NUM ≤ counter w →
  ∃ w' orb',
    producer cfg pf dev w orb = Some (true, w', orb')
    ∧ fp w' = fp w ++ ((λ n, line_at (sync_bytes dev) (2 * n))
                         <$> seqZ 0 (IQBUF_SIZE / 2)).
Proof.
  intros HF Hj Hs Hn Hlen Hc. unfold producer.
  rewrite bool_decide_eq_false_2 by (intros ?; done).
  rewrite Hn. rewrite bool_decide_eq_false_2 by (intros E; apply E; done).
  rewrite bool_decide_eq_false_2 by lia.
  set (F := 2 ^ Z.of_nat j) in *.
  set (K := 2 ^ Z.of_nat (13 - j)).
  assert (HFpos : 0 < F) by apply pow2_pos.
  assert (HKpos : 0 < K) by apply pow2_pos.
  assert (HKF : K * F = 8192).
  { unfold K, F. rewrite <- Z.pow_add_r by lia.
    replace (Z.of_nat (13 - j) + Z.of_nat j) with 13 by lia. done. }
  assert (HFle : F ≤ 8192) by nia.
  rewrite HF. rewrite to_int_small by lia. rewrite to_size_small by lia.
  rewrite for_range_indices by lia. unfold loop_indices.
  replace ((IQBUF_SIZE - 0 + F * 2 - 1) / (F * 2)) with K.
  2:{ change IQBUF_SIZE with (8192 * 2). rewrite <- HKF.
      replace (K * F * 2 - 0 + F * 2 - 1) with (K * (F * 2) + (F * 2 - 1)) by lia.
      rewrite Z.div_add_l by lia. rewrite (Z.div_small (F * 2 - 1)) by lia. lia. }
  replace (F * 2) with (2 * F) by lia.
  set (w1 := World (fp w) (err w) (Mach.to_size (counter w + 1))).
  destruct (producer_blocks_spec cfg pf (sync_bytes dev) F (seqZ 0 K) HF ltac:(lia))
    with (w := w1) (orb := orb) as (w' & orb' & Hrun & Hfp & _).
  { intros k Hk%elem_of_seqZ. rewrite Hlen.
    change IQBUF_SIZE with (8192 * 2). nia. }
  rewrite Hrun. cbn [mbind option_bind fst snd].
  exists w', orb'. split; [done|]. rewrite Hfp. cbn [fp w1]. f_equal.
  pose proof (concat_blocks (λ n, line_at (sync_bytes dev) (2 * n)) F
                (Z.to_nat K) ltac:(lia)) as Hcat.
  rewrite Z2Nat.id in Hcat by lia. cbn beta in Hcat.
  rewrite Hcat, HKF. done.
Qed.

End ProducerTheorems.

(** ** The ways out of the analysis stage *)

Section FftStageFacts.
Context {Q : Type} `{RingBuffer Q (list iq_t)}.
Implicit Types (cfg : config) (e : list iq_t) (w : world) (irb : Q).

Lemma fft_stage_no_buffer cfg e w irb :
  (rb_read irb).1.1 ≠ 1 →
  fft_stage cfg e w irb = Some (false, w, (rb_read irb).2).
Proof.
  intros Hs. unfold fft_stage, get_iq_buffer_uptr.
  destruct (rb_read irb) as [[st buf] irb']. cbn [fst snd] in *.
  by rewrite bool_decide_eq_true_2.
Qed.

Lemma fft_stage_null_buffer cfg e w irb :
  (rb_read irb).1.2 = None →
  fft_stage cfg e w irb = Some (false, w, (rb_read irb).2).
Proof.
  unfold fft_stage, get_iq_buffer_uptr.
  destruct (rb_read irb) as [[st buf] irb']. cbn [fst snd]. intros ->.
  by case_bool_decide.
Qed.

Lemma fft_stage_false_inv cfg e w irb w' irb' :
  fft_stage cfg e w irb = Some (false, w', irb') →
  (rb_read irb).1.1 ≠ 1 ∨ (rb_read irb).1.2 = None.
Proof.
  unfold fft_stage, get_iq_buffer_uptr.
  destruct (rb_read irb) as [[st buf] irb0]. cbn [fst snd].
  case_bool_decide as Hst; [by left|]. destruct buf as [buf|]; [|by right].
  destruct (remove_dc _ _); cbn; [|done].
  destruct (fft _ _ _); cbn; done.
Qed.

Lemma fft_stage_true_inv cfg e w irb w' irb' :
  fft_stage cfg e w irb = Some (true, w', irb') →
  ∃ buf iq1 iq2,
    rb_read irb = (1, Some buf, irb')
    ∧ remove_dc buf (fft_size cfg) = Some iq1
    ∧ fft iq1 e (fft_size cfg) = Some iq2
    ∧ w' = print_fft w (frequency cfg) (bandwidth cfg) iq2 (fft_size cfg).
Proof.
  unfold fft_stage, get_iq_buffer_uptr.
  destruct (rb_read irb) as [[st buf] irb0].
  case_bool_decide as Hst; [done|]. destruct buf as [buf|]; [|done].
  destruct (remove_dc _ _) as [iq1|] eqn:E1; cbn; [|done].
  destruct (fft _ _ _) as [iq2|] eqn:E2; cbn; [|done].
  intros [= <- <-]. exists buf, iq1, iq2.
  assert (st = 1) as -> by (destruct (decide (st = 1)); [done | by elim Hst]).
  done.
Qed.

Lemma fft_stage_world cfg e w irb (b : bool) w' irb' :
  fft_stage cfg e w irb = Some (b, w', irb') → w' = w.
Proof.
  unfold fft_stage, get_iq_buffer_uptr.
  destruct (rb_read irb) as [[st buf] irb0].
  case_bool_decide as Hst; [by intros [= _ <- _]|].
  destruct buf as [buf|]; [|by intros [= _ <- _]].
  destruct (remove_dc _ _) as [iq1|]; cbn; [|done].
  destruct (fft _ _ _) as [iq2|]; cbn; [|done].
  by intros [= _ <- _].
Qed.

End FftStageFacts.

(** ** The power-of-two test *)

Section SizeCheck.

Lemma land_pred_pow2 (k : nat) :
  Z.land (2 ^ Z.of_nat k) (2 ^ Z.of_nat k - 1) = 0.
Proof.
  replace (2 ^ Z.of_nat k - 1) with (Z.ones (Z.of_nat k))
    by (rewrite Z.ones_equiv; lia).
  rewrite Z.land_ones by lia. apply Z.mod_same.
  pose proof (pow2_pos k). lia.
Qed.

Lemma land_pred_positive (x : Z) :
  0 < x → (∀ k : nat, x ≠ 2 ^ Z.of_nat k) → Z.land x (x - 1) ≠ 0.
Proof.
  intros Hx Hnp E.
  pose proof (Z.log2_spec x Hx) as [Hlo Hhi].
  pose proof (Z.log2_nonneg x) as Hl.
  assert (Hne : x ≠ 2 ^ Z.log2 x).
  { intros E'. apply (Hnp (Z.to_nat (Z.log2 x))). by rewrite Z2Nat.id. }
  assert (Hx1 : 0 < x - 1).
  { assert (0 < 2 ^ Z.log2 x) by (apply Z.pow_pos_nonneg; lia). lia. }
  assert (Hl1 : Z.log2 (x - 1) = Z.log2 x).
  { apply Z.log2_unique; [done|]. replace (Z.succ (Z.log2 x)) with (Z.log2 x + 1) in Hhi by lia.
    replace (Z.log2 x + 1) with (Z.succ (Z.log2 x)) by lia. lia. }
  pose proof (Z.bit_log2 x Hx) as B1.
  pose proof (Z.bit_log2 (x - 1) Hx1) as B2. rewrite Hl1 in B2.
  assert (B : Z.testbit (Z.land x (x - 1)) (Z.log2 x) = true)
    by (rewrite Z.land_spec, B1, B2; done).
  rewrite E, Z.bits_0 in B. done.
Qed.

Lemma land_pred_negative (x : Z) : x < 0 → Z.land x (x - 1) ≠ 0.
Proof.
  intros Hx. enough (Z.land x (x - 1) < 0) by lia.
  apply Z.land_neg. lia.
Qed.

(** Every size other than [0] and [INT_MIN] that is not a power of two,
    or is above the maximum, makes [main] exit before it touches the
    device. *)
Lemma main_rejects (cfg : config) (env : environment) :
  Mach.INT_MIN < fft_size cfg ≤ Mach.INT_MAX →
  fft_size cfg ≠ 0 →
  (∀ k : nat, fft_size cfg ≠ 2 ^ Z.of_nat k) ∨ FFT_SIZE_MAX < fft_size cfg →
  ∃ site, main cfg env = Exit_failure site ∧ before_device site = true.
Proof.
  intros Hr H0 Hbad. unfold main.
  destruct (fopen_ok env); cbn [negb]; [|by eexists].
  case_bool_decide; [by eexists|].
  unfold Mach.INT_MIN, Mach.INT_MAX, Mach.int_bits in Hr.
  change (32 - 1) with 31 in Hr.
  rewrite to_int_small by lia.
  case_bool_decide as Hland; [by eexists|].
  case_bool_decide as Hmax; [by eexists|].
  exfalso. destruct Hbad as [Hnp|Hbig]; [|lia].
  revert Hland. destruct (decide (0 < fft_size cfg)).
  - by apply land_pred_positive.
  - apply land_pred_negative. lia.
Qed.

(** The sizes [main] lets through are the powers of two up to the
    maximum. *)
Lemma main_accepts_pow2 (cfg : config) (env : environment) (k : nat) :
  fft_size cfg = 2 ^ Z.of_nat k → (k ≤ 13)%nat →
  fopen_ok env = true → frequency cfg ≠ 0 →
  0 ≤ device_index env → 0 ≤ open_status env →
  gain_status env = 0 → reset_status env = 0 →
  freq_status env = 0 → rate_status env = 0 →
  main cfg env = Pipeline_started cfg (main_table (fft_size cfg)).
Proof.
  intros HF Hk Hfo Hfr Hd Ho Hg Hre Hfq Hra. unfold main.
  rewrite Hfo. cbn [negb].
  rewrite bool_decide_eq_false_2 by done.
  assert (0 < 2 ^ Z.of_nat k ≤ 2 ^ 13).
  { split; [apply pow2_pos|]. apply Z.pow_le_mono_r; lia. }
  rewrite HF, to_int_small by lia. rewrite land_pred_pow2.
  rewrite bool_decide_eq_false_2 by (intros E; apply E; done).
  rewrite bool_decide_eq_false_2 by (unfold FFT_SIZE_MAX; lia).
  rewrite !bool_decide_eq_false_2 by (lia || (intros E; apply E; done)).
  done.
Qed.

End SizeCheck.

(** ** The transform *)

Section Coefficients.
Context {A : Type}.
Implicit Types (iq : list A).

(** The positions [coefficients_loop] still has to exchange at [n]. *)
Lemma coefficients_loop_spec (h : Z) (cnt : nat) : ∀ (n : Z) iq,
  0 ≤ n → n + Z.of_nat cnt = h → Z.of_nat (length iq) = 2 * h →
  ∃ out,
    coefficients_loop cnt (2 * h) n iq = Some out
    ∧ length out = length iq
    ∧ ∀ i, 0 ≤ i < 2 * h →
        get out i
        = get iq (if bool_decide (n ≤ i < h) then i + h
                  else if bool_decide (n + h ≤ i) then i - h else i).
Proof.
  induction cnt as [|cnt IH]; intros n iq Hn Hcnt Hlen.
  - exists iq. split; [done|]. split; [done|]. intros i Hi.
    rewrite bool_decide_eq_false_2 by lia.
    rewrite bool_decide_eq_false_2 by lia. done.
  - cbn [coefficients_loop].
    replace (2 * h / 2) with h by (rewrite Z.mul_comm, Z.div_mul; lia).
    destruct (swap_spec iq n (n + h)) as (iq1 & -> & L1 & G1); [lia | lia |].
    cbn [mbind option_bind].
    destruct (IH (n + 1) iq1) as (out & Hrun & L & G); [lia | lia | lia |].
    replace (2 * h / 2) with h in Hrun by (rewrite Z.mul_comm, Z.div_mul; lia).
    exists out. split; [done|]. split; [congruence|].
    intros i Hi. rewrite G, G1 by done. f_equal. unfold transp.
    repeat case_bool_decide; repeat case_decide; lia.
Qed.

(** [fft_reorder_coefficients] exchanges the two halves of the buffer. *)
Lemma fft_reorder_coefficients_spec (h : Z) iq :
  0 ≤ h → Z.of_nat (length iq) = 2 * h →
  ∃ out,
    fft_reorder_coefficients iq (2 * h) = Some out
    ∧ length out = length iq
    ∧ ∀ i, 0 ≤ i < 2 * h → get out i = get iq ((i + h) mod (2 * h)).
Proof.
  intros Hh Hlen. unfold fft_reorder_coefficients.
  replace (2 * h / 2) with h by (rewrite Z.mul_comm, Z.div_mul; lia).
  destruct (coefficients_loop_spec h (Z.to_nat h) 0 iq) as (out & -> & L & G);
    [lia | lia | done |].
  exists out. split; [done|]. split; [done|].
  intros i Hi. rewrite G by done. f_equal.
  destruct (decide (i < h)).
  - rewrite bool_decide_eq_true_2 by lia. rewrite Z.mod_small; lia.
  - rewrite bool_decide_eq_false_2 by lia.
    rewrite bool_decide_eq_true_2 by lia.
    replace (i + h) with (i - h + 1 * (2 * h)) by lia.
    rewrite Z.mod_add by lia. rewrite Z.mod_small; lia.
Qed.

End Coefficients.

Section FftTotal.
Context {C : Type} `{Numeric C}.
Implicit Types (iq e : list C).

(** A loop whose body keeps an invariant of the state returns, and the
    invariant holds of what it returns. *)
Lemma fold_opt_invariant {St : Type} (P : St → Prop)
    (body : Z → St → option St) (idx : list Z) (s : St) :
  (∀ i s, i ∈ idx → P s → ∃ s', body i s = Some s' ∧ P s') →
  P s → ∃ s', fold_opt body idx s = Some s' ∧ P s'.
Proof.
  revert s. induction idx as [|i idx IH]; intros s Hbody Hs; [by exists s|].
  cbn [fold_opt].
  destruct (Hbody i s ltac:(apply list_elem_of_here) Hs) as (s1 & -> & Hs1).
  cbn [mbind option_bind]. apply IH; [|done].
  intros j s' Hj. apply Hbody. by apply list_elem_of_further.
Qed.

Lemma elem_of_loop_indices (lo hi step i : Z) :
  0 < step → i ∈ loop_indices lo hi step →
  ∃ q, i = lo + q * step ∧ 0 ≤ q ∧ lo + q * step < hi.
Proof.
  intros Hs (q & -> & Hq%elem_of_seqZ)%list_elem_of_fmap.
  exists q. split; [done|]. split; [lia|].
  assert (q * step ≤ hi - lo - 1); [|lia].
  assert (Hq1 : q + 1 ≤ (hi - lo + step - 1) / step) by lia.
  pose proof (Z.mul_div_le (hi - lo + step - 1) step Hs).
  nia.
Qed.

Lemma set_in_range iq (i : Z) (x : C) :
  0 ≤ i < Z.of_nat (length iq) →
  ∃ iq', set iq i x = Some iq' ∧ length iq' = length iq.
Proof.
  intros Hi. unfold set. rewrite bool_decide_eq_true_2 by done.
  eexists. split; [done|]. apply length_insert.
Qed.

Lemma butterfly_total e iq (mh j r : Z) :
  0 ≤ r → 0 ≤ j < mh → mh ≤ Z.of_nat (length e) →
  r + j + mh < Z.of_nat (length iq) →
  ∃ iq', butterfly e mh j r iq = Some iq' ∧ length iq' = length iq.
Proof.
  intros Hr Hj He Hlen. unfold butterfly.
  destruct (get_in_range iq (r + j) ltac:(lia)) as [u ->].
  destruct (get_in_range iq (r + j + mh) ltac:(lia)) as [x ->].
  destruct (get_in_range e j ltac:(lia)) as [w ->].
  cbn [mbind option_bind].
  destruct (set_in_range iq (r + j) (num_add u (num_mul x w)) ltac:(lia))
    as (iq1 & -> & L1).
  cbn [mbind option_bind].
  destruct (set_in_range iq1 (r + j + mh) (num_sub u (num_mul x w)) ltac:(lia))
    as (iq2 & -> & L2).
  exists iq2. split; [done|]. congruence.
Qed.

Lemma fft_pass_total e iq (k : nat) (s : Z) :
  (k ≤ 30)%nat → 0 ≤ s < Z.of_nat k →
  Z.of_nat (length iq) = 2 ^ Z.of_nat k →
  2 ^ Z.of_nat k ≤ 2 * Z.of_nat (length e) →
  ∃ iq', fft_pass e (2 ^ Z.of_nat k) s iq = Some iq'
         ∧ length iq' = length iq.
Proof.
  intros Hk Hs Hlen He. unfold fft_pass.
  rewrite Z.shiftl_1_l.
  set (mh := 2 ^ s).
  assert (Hmh : 0 < mh) by (apply Z.pow_pos_nonneg; lia).
  assert (HN : 2 ^ Z.of_nat k = 2 ^ (Z.of_nat k - s - 1) * (mh * 2)).
  { unfold mh. rewrite <- (Z.pow_1_r 2) at 4.
    rewrite <- !Z.pow_add_r by lia. f_equal. lia. }
  assert (Hq : 0 < 2 ^ (Z.of_nat k - s - 1)) by (apply Z.pow_pos_nonneg; lia).
  assert (HNb : 2 ^ Z.of_nat k < 2 ^ 31) by (apply Z.pow_lt_mono_r; lia).
  rewrite to_int_small by lia.
  rewrite for_range_1.
  apply (fold_opt_invariant (λ iq' : list C, length iq' = length iq)); [|done].
  intros j iq1 Hj%elem_of_seqZ L1.
  rewrite for_range_indices by lia.
  apply (fold_opt_invariant (λ iq' : list C, length iq' = length iq)); [|done].
  intros r iq2 (q & -> & Hq0 & Hqlt)%elem_of_loop_indices L2; [|lia].
  destruct (butterfly_total e iq2 mh j (0 + q * (mh * 2))) as (iq3 & -> & L3);
    [lia | lia | nia | |].
  - rewrite L2, Hlen.
    assert (q + 1 ≤ 2 ^ (Z.of_nat k - s - 1)) by nia. nia.
  - exists iq3. split; [done|]. congruence.
Qed.

Lemma coefficients_loop_total (cnt : nat) : ∀ (N n : Z) iq,
  0 ≤ n → 0 ≤ N / 2 → n + Z.of_nat cnt + N / 2 ≤ Z.of_nat (length iq) →
  ∃ iq', coefficients_loop cnt N n iq = Some iq' ∧ length iq' = length iq.
Proof.
  induction cnt as [|cnt IH]; intros N n iq Hn HN Hlen; [by exists iq|].
  cbn [coefficients_loop].
  destruct (swap_spec iq n (n + N / 2)) as (iq1 & -> & L1 & _); [lia | lia |].
  cbn [mbind option_bind].
  destruct (IH N (n + 1) iq1) as (iq2 & -> & L2); [lia | lia | lia |].
  exists iq2. split; [done|]. congruence.
Qed.

(** On a power of two that fits an [int], with a table of at least half
    the size, [fft] stays inside its buffer and returns a buffer of the
    same length. *)
Lemma fft_total iq e (k : nat) :
  (k ≤ 30)%nat →
  Z.of_nat (length iq) = 2 ^ Z.of_nat k →
  2 ^ Z.of_nat k ≤ 2 * Z.of_nat (length e) →
  ∃ out, fft iq e (2 ^ Z.of_nat k) = Some out ∧ length out = length iq.
Proof.
  intros Hk Hlen He. unfold fft.
  destruct (fft_reorder_samples_log_spec k iq Hk Hlen)
    as (iq1 & log & Hrun & L1 & _).
  unfold fft_reorder_samples. rewrite Hrun. cbn [fmap option_fmap option_map fst mbind option_bind].
  unfold ilog2. rewrite Z.log2_pow2 by lia. rewrite for_range_1.
  destruct (fold_opt_invariant (λ iq' : list C, length iq' = length iq)
              (fft_pass e (2 ^ Z.of_nat k)) (seqZ 0 (Z.of_nat k - 0)) iq1)
    as (iq2 & -> & L2); [|done|].
  { intros s iq' Hs%elem_of_seqZ L.
    destruct (fft_pass_total e iq' k s Hk ltac:(lia) ltac:(lia) He)
      as (iq'' & -> & L'). exists iq''. split; [done|]. congruence. }
  cbn [mbind option_bind]. unfold fft_reorder_coefficients.
  pose proof (pow2_pos k) as Hp.
  assert (0 ≤ 2 ^ Z.of_nat k / 2) by (apply Z.div_pos; lia).
  destruct (coefficients_loop_total (Z.to_nat (2 ^ Z.of_nat k / 2))
              (2 ^ Z.of_nat k) 0 iq2) as (out & -> & L3); [lia | lia | |].
  - rewrite Z2Nat.id by lia. rewrite L2, Hlen.
    pose proof (Z.mul_div_le (2 ^ Z.of_nat k) 2 ltac:(lia)). lia.
  - exists out. split; [done|]. congruence.
Qed.

End FftTotal.

Section Dataflow.
Context {C : Type} `{Numeric C}.
Variables x0 x1 x2 x3 x4 x5 x6 x7 : C.
Variables e0 e1 e2 e3 : C.

#[local] Infix "⊕" := num_add (at level 50, left associativity).
#[local] Infix "⊖" := num_sub (at level 50, left associativity).
#[local] Infix "⊗" := num_mul (at level 40, left associativity).

(** Four samples: the pass of width two multiplies by [e[0]], the pass
    of width four by [e[0]] and [e[1]]. *)
Lemma fft_4_dataflow :
  fft [x0; x1; x2; x3] [e0; e1; e2; e3] 4
  = let a0 := x0 ⊕ x2 ⊗ e0 in let a1 := x0 ⊖ x2 ⊗ e0 in
    let a2 := x1 ⊕ x3 ⊗ e0 in let a3 := x1 ⊖ x3 ⊗ e0 in
    Some [a0 ⊖ a2 ⊗ e0; a1 ⊖ a3 ⊗ e1; a0 ⊕ a2 ⊗ e0; a1 ⊕ a3 ⊗ e1].
Proof. vm_compute. reflexivity. Qed.

(** Eight samples: the pass of width four multiplies by [e[1]], the
    entry of the table of size eight, where a transform of size four
    has the entry [e[2]]. *)
Lemma fft_8_dataflow :
  fft [x0; x1; x2; x3; x4; x5; x6; x7] [e0; e1; e2; e3] 8
  = let a0 := x0 ⊕ x4 ⊗ e0 in let a1 := x0 ⊖ x4 ⊗ e0 in
    let a2 := x2 ⊕ x6 ⊗ e0 in let a3 := x2 ⊖ x6 ⊗ e0 in
    let a4 := x1 ⊕ x5 ⊗ e0 in let a5 := x1 ⊖ x5 ⊗ e0 in
    let a6 := x3 ⊕ x7 ⊗ e0 in let a7 := x3 ⊖ x7 ⊗ e0 in
    let b0 := a0 ⊕ a2 ⊗ e0 in let b2 := a0 ⊖ a2 ⊗ e0 in
    let b1 := a1 ⊕ a3 ⊗ e1 in let b3 := a1 ⊖ a3 ⊗ e1 in
    let b4 := a4 ⊕ a6 ⊗ e0 in let b6 := a4 ⊖ a6 ⊗ e0 in
    let b5 := a5 ⊕ a7 ⊗ e1 in let b7 := a5 ⊖ a7 ⊗ e1 in
    Some [b0 ⊖ b4 ⊗ e0; b1 ⊖ b5 ⊗ e1; b2 ⊖ b6 ⊗ e2; b3 ⊖ b7 ⊗ e3;
          b0 ⊕ b4 ⊗ e0; b1 ⊕ b5 ⊗ e1; b2 ⊕ b6 ⊗ e2; b3 ⊕ b7 ⊗ e3].
Proof. vm_compute. reflexivity. Qed.

End Dataflow.

(** On four samples the code and the transform agree. *)
Example fft_4_is_the_dft :
  fft [iq 256 (-512); iq 1024 768; iq (-1280) 0; iq 512 256] Sample.e4 4
  = dft_ascending [iq 256 (-512); iq 1024 768; iq (-1280) 0; iq 512 256]
      Sample.e4 4.
Proof. vm_compute. reflexivity. Qed.

(** C1, evaluated where it fails. The buffer is the one the producer
    makes of a raw block that is silent but for I = +100 at sample 2 and
    I = -100 at sample 6; its mean is zero, so [remove_dc] hands it to
    [fft] as it is. With the table [main] builds for eight samples, [fft]
    returns [(36203, 36203)] at position 1 where the transform of that
    buffer, in ascending order and with the same table and arithmetic,
    has [(0, 51200)], and so on at every odd position: the output of
    [fft] is not the discrete Fourier transform. *)
Theorem fft_8_is_not_the_dft :
  ∃ e out ref,
    main_table 8 = Some e
    ∧ Sample.tone
      = [iq 0 0; iq 0 0; iq 25600 0; iq 0 0; iq 0 0; iq 0 0; iq (-25600) 0; iq 0 0]
    ∧ remove_dc Sample.tone 8 = Some Sample.tone
    ∧ fft Sample.tone e 8 = Some out
    ∧ dft_ascending Sample.tone e 8 = Some ref
    ∧ out = [iq 0 0; iq 36203 36203; iq 0 0; iq (-36203) (-36203);
             iq 0 0; iq 36203 36203; iq 0 0; iq (-36203) (-36203)]
    ∧ ref = [iq 0 0; iq 0 51200; iq 0 0; iq 0 (-51200);
             iq 0 0; iq 0 51200; iq 0 0; iq 0 (-51200)]
    ∧ out ≠ ref.
Proof.
  eexists _, _, _. split; [apply main_table_8|].
  split; [vm_compute; reflexivity|].
  split; [vm_compute; reflexivity|].
  split; [vm_compute; reflexivity|].
  split; [vm_compute; reflexivity|].
  split; [reflexivity|]. split; [reflexivity|]. discriminate.
Qed.

(** ** The table main builds *)

(** C2, as the code has it. For a transform size [N], [main] builds a
    table of [N] entries (not [N / 2]); entry [k], for [k] in [[0, N)],
    is [e^(+2 pi i k / N)]: its parts are within one half of
    [Q15 * cos (2 pi k / N)] and [Q15 * sin (2 pi k / N)], the nearest
    integers. It is built by the one pair of statements of [main]. *)
Theorem twiddle_table_entries (N : Z) :
  0 ≤ N →
  ∃ e,
    main_table N = Some e
    ∧ Z.of_nat (length e) = N
    ∧ (∀ k, 0 ≤ k < N →
         ∃ re im,
           get e k = Some (iq re im)
           ∧ (Rabs (IZR re - IZR Q15 * cos (2 * PI * IZR k / IZR N)) <= / 2)%R
           ∧ (Rabs (IZR im - IZR Q15 * sin (2 * PI * IZR k / IZR N)) <= / 2)%R)
    ∧ (∀ cfg env cfg' t,
         fft_size cfg = N → main cfg env = Pipeline_started cfg' t → t = Some e).
Proof.
  intros HN. rewrite main_table_spec by done. eexists. split; [done|].
  split; [rewrite length_fmap, length_seqZ; lia|]. split.
  - intros k Hk. eexists _, _. split; [|split; apply c_round_bound].
    unfold get. rewrite bool_decide_eq_true_2 by lia.
    rewrite list_lookup_fmap, lookup_seqZ_lt by lia. cbn.
    rewrite Z2Nat.id by lia. done.
  - intros cfg env cfg' t HF. unfold main.
    repeat (case_match; try done). intros [= <- <-].
    rewrite HF. by apply main_table_spec.
Qed.

Lemma twiddle_table_entries_witness :
  ∃ e,
    main_table 4 = Some e
    ∧ Z.of_nat (length e) = 4
    ∧ (∀ k, 0 ≤ k < 4 →
         ∃ re im,
           get e k = Some (iq re im)
           ∧ (Rabs (IZR re - IZR Q15 * cos (2 * PI * IZR k / IZR 4)) <= / 2)%R
           ∧ (Rabs (IZR im - IZR Q15 * sin (2 * PI * IZR k / IZR 4)) <= / 2)%R)
    ∧ (∀ cfg env cfg' t,
         fft_size cfg = 4 → main cfg env = Pipeline_started cfg' t → t = Some e).
Proof. apply (twiddle_table_entries 4). lia. Defined.

(** C2 as stated fails: for [N = 4] the table has four entries, not two,
    and entry 1 is [(0, 32768)], that is [+i], where [e^(-2 pi i / 4)]
    is [-i], [(0, -32768)]. *)
Lemma twiddle_table_4 :
  ∃ e,
    main_table 4 = Some e
    ∧ length e = 4%nat
    ∧ Z.of_nat (length e) ≠ 4 / 2
    ∧ get e 1 = Some (iq 0 32768)
    ∧ spec_twiddle 1 4 = iq 0 (-32768)
    ∧ get e 1 ≠ Some (spec_twiddle 1 4).
Proof.
  assert (Hs : spec_twiddle 1 4 = iq 0 (-32768)).
  { unfold spec_twiddle.
    replace (- (2 * PI * 1 / 4))%R with (- (PI / 2))%R by lra.
    rewrite cos_neg, sin_neg, cos_PI2, sin_PI2.
    replace (- (1))%R with (-1)%R by lra.
    rewrite round_Q15_0, round_Q15_m1. done. }
  eexists. split; [apply main_table_4|]. split; [done|]. split; [done|].
  split; [done|]. split; [done|]. rewrite Hs. discriminate.
Qed.

(** ** What the analysis stage writes and returns *)

(** The analysis stage on a delivered buffer of [fft_size] samples, the
    size a power of two: it removes the mean, transforms, calls
    [print_fft] and returns [true]. *)
Lemma fft_stage_processes {Q : Type} `{RingBuffer Q (list iq_t)}
    (cfg : config) (e : list iq_t) (w : world) (irb : Q)
    (k : nat) (buf : list iq_t) (irb' : Q) :
  fft_size cfg = 2 ^ Z.of_nat k → (k ≤ 30)%nat →
  2 ^ Z.of_nat k ≤ 2 * Z.of_nat (length e) →
  rb_read irb = (1, Some buf, irb') →
  Z.of_nat (length buf) = fft_size cfg →
  ∃ iq1 iq2,
    remove_dc buf (fft_size cfg) = Some iq1
    ∧ fft iq1 e (fft_size cfg) = Some iq2
    ∧ length iq2 = length buf
    ∧ fft_stage cfg e w irb
      = Some (true,
              print_fft w (frequency cfg) (bandwidth cfg) iq2 (fft_size cfg),
              irb').
Proof.
  intros HF Hk He Hread Hlen. pose proof (pow2_pos k) as Hp.
  pose proof (remove_dc_spec buf (fft_size cfg) ltac:(lia) Hlen) as Hdc.
  match type of Hdc with _ = Some ?r => set (iq1 := r) in Hdc end.
  assert (L1 : length iq1 = length buf).
  { unfold iq1. case_bool_decide; [done|]. by rewrite length_fmap. }
  destruct (fft_total iq1 e k Hk) as (iq2 & Hfft & L2); [lia | done |].
  exists iq1, iq2. rewrite HF in *. split; [done|]. split; [done|].
  split; [congruence|].
  unfold fft_stage, get_iq_buffer_uptr. rewrite Hread.
  rewrite bool_decide_eq_false_2 by (intros E; by apply E).
  rewrite HF, Hdc. cbn [mbind option_bind]. rewrite Hfft. done.
Qed.

(** C3, as the code has it. Whenever the analysis stage returns, the
    output file and [stderr] are as it found them. For every buffer it
    processes (a buffer of [fft_size] samples delivered by the queue, the
    size a power of two), [print_fft] is handed the [fft_size] bins of
    the transformed buffer with the centre frequency and the bandwidth,
    and writes nothing. *)
Theorem fft_stage_writes_nothing {Q : Type} `{RingBuffer Q (list iq_t)}
    (cfg : config) (e : list iq_t) (w : world) (irb : Q)
    (k : nat) (buf : list iq_t) (irb' : Q) :
  fft_size cfg = 2 ^ Z.of_nat k → (k ≤ 30)%nat →
  2 ^ Z.of_nat k ≤ 2 * Z.of_nat (length e) →
  rb_read irb = (1, Some buf, irb') →
  Z.of_nat (length buf) = fft_size cfg →
  (∃ iq1 iq2,
     remove_dc buf (fft_size cfg) = Some iq1
     ∧ fft iq1 e (fft_size cfg) = Some iq2
     ∧ Z.of_nat (length iq2) = fft_size cfg
     ∧ print_fft w (frequency cfg) (bandwidth cfg) iq2 (fft_size cfg) = w
     ∧ fft_stage cfg e w irb = Some (true, w, irb'))
  ∧ (∀ (b : bool) w1 w' irb1 irb'',
       fft_stage cfg e w1 irb1 = Some (b, w', irb'') →
       fp w' = fp w1 ∧ err w' = err w1).
Proof.
  intros HF Hk He Hread Hlen. split.
  - destruct (fft_stage_processes cfg e w irb k buf irb' HF Hk He Hread Hlen)
      as (iq1 & iq2 & Hdc & Hfft & L & Hrun).
    exists iq1, iq2. split; [done|]. split; [done|]. split; [lia|]. done.
  - intros b w1 w' irb1 irb'' Hrun.
    by rewrite (fft_stage_world _ _ _ _ _ _ _ Hrun).
Qed.

Lemma fft_stage_writes_nothing_witness :
  (∃ iq1 iq2,
     remove_dc (Sample.impulse 1 4) (fft_size (Sample.cfg 4)) = Some iq1
     ∧ fft iq1 Sample.e4 (fft_size (Sample.cfg 4)) = Some iq2
     ∧ Z.of_nat (length iq2) = fft_size (Sample.cfg 4)
     ∧ print_fft Sample.w1 (frequency (Sample.cfg 4)) (bandwidth (Sample.cfg 4))
         iq2 (fft_size (Sample.cfg 4)) = Sample.w1
     ∧ fft_stage (Sample.cfg 4) Sample.e4 Sample.w1
         (Sample.queue_of (Sample.impulse 1 4))
       = Some (true, Sample.w1, Sample.empty_queue))
  ∧ (∀ (b : bool) w1 w' irb1 irb'',
       fft_stage (Sample.cfg 4) Sample.e4 w1 irb1 = Some (b, w', irb'') →
       fp w' = fp w1 ∧ err w' = err w1).
Proof.
  apply (fft_stage_writes_nothing (Sample.cfg 4) Sample.e4 Sample.w1
           (Sample.queue_of (Sample.impulse 1 4)) 2 (Sample.impulse 1 4)
           Sample.empty_queue).
  - reflexivity.
  - lia.
  - vm_compute. discriminate.
  - reflexivity.
  - reflexivity.
Defined.

(** C3 as stated fails: the stage takes a buffer of four samples off its
    queue, transforms it and returns [true], and the output file has
    received no line. *)
Lemma fft_stage_sink_receives_nothing :
  ∃ e w',
    main_table 4 = Some e
    ∧ fft_stage (Sample.cfg 4) e (World [] [] 1)
        (Sample.queue_of (Sample.impulse 1 4))
      = Some (true, w', Sample.empty_queue)
    ∧ fp w' = [].
Proof.
  eexists _, _. split; [apply main_table_4|].
  split; [vm_compute; reflexivity|]. reflexivity.
Qed.

(** The analysis stage on the queue of the spec when it is empty and
    open. *)
Lemma fft_stage_empty_open_queue `{QueueText (list iq_t)}
    (cfg : config) (e : list iq_t) (w : world) (capacity : nat) :
  fft_stage cfg e w (BoundedQueue [] capacity false)
  = Some (false, w, BoundedQueue [] capacity false).
Proof. reflexivity. Qed.

(** C4, as the code has it. The acquisition stage returns [false] only on
    a failed read of the source. The analysis stage returns [false]
    exactly when the read of its input queue hands it no buffer: a
    status other than 1, which is the case of a queue that is empty but
    open, or a status 1 with a null buffer; it then leaves the streams
    as they were. It returns [true] only after a buffer was delivered
    and processed: [remove_dc] and [fft] ran on it and [print_fft] was
    called with the result. *)
Theorem stage_false_conditions {Q : Type} `{RingBuffer Q (list iq_t)}
    (cfg : config) (pf : string) (e : list iq_t) (dev : read_sync) (w : world)
    (irb orb : Q) :
  (∀ w' orb', producer cfg pf dev w orb = Some (false, w', orb') →
     sync_status dev ≠ 0)
  ∧ ((rb_read irb).1.1 ≠ 1 ∨ (rb_read irb).1.2 = None →
       fft_stage cfg e w irb = Some (false, w, (rb_read irb).2))
  ∧ (∀ w' irb', fft_stage cfg e w irb = Some (false, w', irb') →
       (rb_read irb).1.1 ≠ 1 ∨ (rb_read irb).1.2 = None)
  ∧ (∀ w' irb', fft_stage cfg e w irb = Some (true, w', irb') →
       ∃ buf iq1 iq2,
         rb_read irb = (1, Some buf, irb')
         ∧ remove_dc buf (fft_size cfg) = Some iq1
         ∧ fft iq1 e (fft_size cfg) = Some iq2
         ∧ w' = print_fft w (frequency cfg) (bandwidth cfg) iq2
                  (fft_size cfg)).
Proof.
  split; [intros w' orb'; apply producer_false_only_on_failed_read|].
  split; [intros [Hst|Hnull];
          [by apply fft_stage_no_buffer | by apply fft_stage_null_buffer]|].
  split; [intros w' irb'; apply fft_stage_false_inv|].
  intros w' irb'. apply fft_stage_true_inv.
Qed.

Lemma stage_false_conditions_witness :
  fft_stage (Sample.cfg 2048) Sample.e8 Sample.w1 Sample.empty_queue
  = Some (false, Sample.w1, (rb_read Sample.empty_queue).2).
Proof.
  apply (stage_false_conditions (Sample.cfg 2048) Sample.pretty_function
           Sample.e8 Sample.failed_read Sample.w1 Sample.empty_queue
           Sample.empty_queue).
  left. vm_compute. discriminate.
Defined.

(** C4 as stated fails: the analysis stage finds its input queue empty
    and open, and returns [false]. *)
Lemma fft_stage_empty_queue_returns_false :
  bq_items Sample.empty_queue = []
  ∧ bq_closed Sample.empty_queue = false
  ∧ fft_stage (Sample.cfg 2048) Sample.e8 Sample.w1 Sample.empty_queue
    = Some (false, Sample.w1, Sample.empty_queue).
Proof. repeat split. Qed.

(** ** The size check of main *)

(** With a transform size of zero the acquisition stage, once past its
    idle call, never returns from a full read: the offset of its loop
    over the raw block does not advance. *)
Lemma producer_spins_on_size_zero {Q : Type} `{RingBuffer Q (list iq_t)}
    (cfg : config) (pf : string) (dev : read_sync) (w : world) (orb : Q) :
  fft_size cfg = 0 → sync_status dev = 0 → sync_n_read dev = IQBUF_SIZE →
  IDLE_LOOPS_NUM ≤ counter w →
  producer cfg pf dev w orb = None.
Proof.
  intros HF Hs Hn Hc. unfold producer.
  rewrite bool_decide_eq_false_2 by (intros ?; done).
  rewrite Hn. rewrite bool_decide_eq_false_2 by (intros E; apply E; done).
  rewrite bool_decide_eq_false_2 by lia.
  rewrite HF. change (Mach.to_size (Mach.to_int (0 * 2))) with 0.
  unfold for_range. rewrite for_fuel_stuck by done. done.
Qed.

(** C5, evaluated where it fails. A transform size of [0] is not a power
    of two, yet it passes both checks of [main] ([0 & -1] is [0], and
    [0] is not above the maximum): with a frequency given and the device
    calls succeeding, [main] builds an empty table and starts the
    pipeline with size [0]. *)
Theorem main_starts_with_fft_size_zero :
  (∀ k : nat, fft_size (Sample.cfg 0) ≠ 2 ^ Z.of_nat k)
  ∧ main (Sample.cfg 0) Sample.env_ok = Pipeline_started (Sample.cfg 0) (Some []).
Proof.
  split; [|reflexivity].
  intros k. cbn. pose proof (pow2_pos k). lia.
Qed.

(** ** What the acquisition stage writes and returns *)

(** C9. The acquisition stage returns [false] exactly on a failed read:
    a failed read makes it log and return [false], and it returns
    [false] in no other case. On a short read it writes one line to
    [stderr], leaves the output file, its counter and the queue as they
    were, and returns [true]. *)
Theorem producer_false_iff_failed_read {Q : Type} `{RingBuffer Q (list iq_t)}
    (cfg : config) (pf : string) (dev : read_sync) (w : world) (orb : Q) :
  (sync_status dev ≠ 0 →
     ∃ w', producer cfg pf dev w orb = Some (false, w', orb)
           ∧ fp w' = fp w ∧ err w' = err w ++ ["rtlsdr_read_sync(16384) failed"])
  ∧ (∀ w' orb', producer cfg pf dev w orb = Some (false, w', orb') →
       sync_status dev ≠ 0)
  ∧ (sync_status dev = 0 → Mach.to_size (sync_n_read dev) ≠ IQBUF_SIZE →
       ∃ w', producer cfg pf dev w orb = Some (true, w', orb)
             ∧ fp w' = fp w ∧ counter w' = counter w
             ∧ err w' = err w ++
                 ["rtlsdr_read_sync(16384) dropped samples - received "
                  +:+ pretty (sync_n_read dev)]).
Proof.
  split; [|split].
  - intros Hs. rewrite producer_failed_read by done. eauto.
  - intros w' orb'. apply producer_false_only_on_failed_read.
  - intros Hs Hn. rewrite producer_short_read by done. eauto.
Qed.

Lemma producer_false_iff_failed_read_witness :
  (∃ w', producer (Sample.cfg 2048) Sample.pretty_function Sample.failed_read Sample.w1
           Sample.empty_queue = Some (false, w', Sample.empty_queue)
         ∧ fp w' = fp Sample.w1
         ∧ err w' = err Sample.w1 ++ ["rtlsdr_read_sync(16384) failed"])
  ∧ (∃ w', producer (Sample.cfg 2048) Sample.pretty_function Sample.short_read Sample.w1
             Sample.empty_queue = Some (true, w', Sample.empty_queue)
           ∧ fp w' = fp Sample.w1 ∧ counter w' = counter Sample.w1
           ∧ err w' = err Sample.w1 ++
               ["rtlsdr_read_sync(16384) dropped samples - received "
                +:+ pretty (sync_n_read Sample.short_read)]).
Proof.
  split.
  - apply (producer_false_iff_failed_read (Sample.cfg 2048) Sample.pretty_function Sample.failed_read
             Sample.w1 Sample.empty_queue).
    vm_compute. discriminate.
  - apply (producer_false_iff_failed_read (Sample.cfg 2048) Sample.pretty_function Sample.short_read
             Sample.w1 Sample.empty_queue).
    + reflexivity.
    + vm_compute. discriminate.
Defined.

(** C10. For every full raw block the acquisition stage converts (the
    read succeeded with the full count, the idle call is past, the size
    is a power of two up to the maximum), it returns [true] and has
    appended to the output file one line per sample of the block, in
    order: the text of [fprintf(fp, "%d   %d\n", ...)], which is the
    decimal of [byte - 127] of the in-phase byte, three spaces, and the
    decimal of [byte - 127] of the quadrature byte, before any
    scaling. *)
Theorem producer_writes_time_samples {Q : Type} `{RingBuffer Q (list iq_t)}
    (cfg : config) (pf : string) (dev : read_sync) (w : world) (orb : Q)
    (j : nat) :
  fft_size cfg = 2 ^ Z.of_nat j → (j ≤ 13)%nat →
  sync_status dev = 0 → sync_n_read dev = IQBUF_SIZE →
  Z.of_nat (length (sync_bytes dev)) = IQBUF_SIZE →
  IDLE_LOOPS_NUM ≤ counter w →
  ∃ w' orb',
    producer cfg pf dev w orb = Some (true, w', orb')
    ∧ fp w' = fp w ++
        ((λ n, pretty (u8 (byte_at (sync_bytes dev) (2 * n)) - 127)
               +:+ "   "
               +:+ pretty (u8 (byte_at (sync_bytes dev) (2 * n + 1)) - 127))
           <$> seqZ 0 (IQBUF_SIZE / 2)).
Proof. apply producer_full_read. Qed.

Lemma producer_writes_time_samples_witness :
  ∃ w' orb',
    producer (Sample.cfg 2048) Sample.pretty_function Sample.full_read
      Sample.w1 Sample.empty_queue
    = Some (true, w', orb')
    ∧ fp w' = replicate (Z.to_nat (IQBUF_SIZE / 2)) "3   -7".
Proof.
  destruct (producer_writes_time_samples (Sample.cfg 2048)
              Sample.pretty_function Sample.full_read Sample.w1
              Sample.empty_queue 11)
    as (w' & orb' & Hrun & Hfp).
  - reflexivity.
  - lia.
  - reflexivity.
  - reflexivity.
  - vm_compute. reflexivity.
  - vm_compute. discriminate.
  - exists w', orb'. split; [exact Hrun|]. rewrite Hfp.
    vm_compute. reflexivity.
Defined.

(** The first line a converted block of the sample run leaves in the
    output file. *)
Example producer_first_line :
  sample_line (u8 (byte_at (sync_bytes Sample.full_read) 0) - 127)
              (u8 (byte_at (sync_bytes Sample.full_read) 1) - 127)
  = "3   -7".
Proof. vm_compute. reflexivity. Qed.

(** The lines of the block of eight samples with I = +100 at sample 2
    and I = -100 at sample 6. *)
Example producer_lines_of_tone :
  (λ n, pretty (u8 (byte_at Sample.tone_bytes (2 * n)) - 127)
        +:+ "   "
        +:+ pretty (u8 (byte_at Sample.tone_bytes (2 * n + 1)) - 127))
    <$> seqZ 0 8
  = ["0   0"; "0   0"; "100   0"; "0   0"; "0   0"; "0   0"; "-100   0";
     "0   0"].
Proof. vm_compute. reflexivity. Qed.

(* ------------------------------------------------------------------ *)
(** * Further properties of the code *)

Section ReorderAnySize.
Context {A : Type}.
Implicit Types (iq : list A).

Lemma land_le_r (a b : Z) : 0 ≤ b → Z.land a b ≤ b.
Proof.
  intros Hb. pose proof (Zbitwise.Z.sub_land_same_l b a) as E.
  assert (0 ≤ Z.land b (Z.lnot a)) by (apply Z.land_nonneg; lia).
  rewrite (Z.land_comm a b). lia.
Qed.

Lemma get_Some_lookup iq (i : Z) (x : A) :
  get iq i = Some x → iq !! Z.to_nat i = Some x.
Proof. unfold get. by case_bool_decide. Qed.

Lemma set_Some_insert iq iq' (i : Z) (x : A) :
  set iq i x = Some iq' → iq' = <[Z.to_nat i := x]> iq.
Proof. unfold set. case_bool_decide; [|done]. by intros [= <-]. Qed.

Lemma swap_Permutation iq iq' (i j : Z) : swap iq i j = Some iq' → iq' ≡ₚ iq.
Proof.
  unfold swap.
  destruct (get iq i) as [x|] eqn:Ex; [|done]. cbn [mbind option_bind].
  destruct (get iq j) as [y|] eqn:Ey; [|done]. cbn [mbind option_bind].
  destruct (set iq i y) as [iq1|] eqn:E1; [|done]. cbn [mbind option_bind].
  intros E2. apply set_Some_insert in E1 as ->. apply set_Some_insert in E2 as ->.
  apply Permutation_insert_swap; by apply get_Some_lookup.
Qed.

(** The inner loop from a step within [[0, N]] and an index below [N]:
    it exits, with a step no larger than half of where it started. *)
Lemma do_halve_bounds (fuel : nat) : ∀ (N m l0 : Z),
  0 ≤ m < N → N < 2 ^ 63 → 0 ≤ l0 ≤ N → l0 < 2 ^ Z.of_nat fuel →
  ∃ l, do_halve fuel N m l0 = Some l ∧ 0 ≤ l ∧ 2 * l ≤ l0 ∧ m + l < N.
Proof.
  assert (H63 : 2 ^ 63 < 2 ^ 64) by reflexivity.
  induction fuel as [|fuel IH]; intros N m l0 Hm HN Hl0 Hf.
  - change (2 ^ Z.of_nat 0) with 1 in Hf. assert (l0 = 0) as -> by lia.
    cbn [do_halve]. change (0 ÷ 2) with 0.
    rewrite halve_again_small by lia.
    rewrite bool_decide_eq_false_2 by lia. exists 0. split; [done|lia].
  - cbn [do_halve]. rewrite Z.quot_div_nonneg by lia.
    assert (Hq : 0 ≤ l0 / 2) by (apply Z.div_pos; lia).
    pose proof (Z.mul_div_le l0 2 ltac:(lia)) as Hq2.
    rewrite halve_again_small by lia.
    case_bool_decide as Hc.
    + rewrite pow2_S in Hf.
      destruct (IH N m (l0 / 2)) as (l & -> & Hl1 & Hl2 & Hl3);
        [done | done | lia | |].
      { apply Z.div_lt_upper_bound; lia. }
      exists l. split; [done|lia].
    + exists (l0 / 2). split; [done|lia].
Qed.

Lemma next_m_bound (m l N : Z) :
  0 ≤ m < N → N < 2 ^ 63 → 0 ≤ l → 2 * l ≤ N → 0 ≤ next_m m l < N.
Proof.
  intros Hm HN Hl0 Hl. unfold next_m.
  assert (H63 : 2 ^ 63 < 2 ^ 64) by reflexivity.
  destruct (decide (l = 0)) as [->|Hne].
  - change (Mach.to_size (0 - 1)) with (Z.ones 64).
    rewrite Z.land_ones by lia. rewrite Z.mod_small by lia.
    rewrite Z.add_0_r, to_size_small; lia.
  - rewrite (to_size_small (l - 1)) by lia.
    pose proof (land_le_r m (l - 1) ltac:(lia)).
    assert (0 ≤ Z.land m (l - 1)) by (apply Z.land_nonneg; lia).
    rewrite to_size_small; lia.
Qed.

Lemma reorder_loop_any (N : Z) (cnt : nat) : ∀ (n m : Z) iq,
  0 ≤ N < 2 ^ 31 → Z.of_nat (length iq) = N →
  1 ≤ n → n + Z.of_nat cnt = N → 0 ≤ m < N →
  ∃ out log, reorder_loop cnt N n m iq = Some (out, log) ∧ out ≡ₚ iq.
Proof.
  assert (H31 : 2 ^ 31 < 2 ^ 63) by reflexivity.
  induction cnt as [|cnt IH]; intros n m iq HN Hlen Hn Hcnt Hm.
  - by exists iq, [].
  - cbn [reorder_loop]. rewrite to_int_small by lia.
    destruct (do_halve_bounds (Z.to_nat Mach.int_bits) N m N)
      as (l & -> & Hl0 & Hl1 & Hl2); [done | lia | lia | |].
    { change (Z.of_nat (Z.to_nat Mach.int_bits)) with 32. lia. }
    cbn [mbind option_bind].
    pose proof (next_m_bound m l N Hm ltac:(lia) Hl0 Hl1) as Hm'.
    case_bool_decide.
    + destruct (IH (n + 1) (next_m m l) iq) as (out & log & -> & Hp);
        [done | done | lia | lia | done |].
      cbn. eauto.
    + destruct (swap_spec iq n (next_m m l)) as (iq1 & Hsw & L1 & _);
        [lia | lia |].
      rewrite Hsw. cbn [mbind option_bind].
      destruct (IH (n + 1) (next_m m l) iq1) as (out & log & -> & Hp);
        [done | lia | lia | lia | done |].
      cbn. eexists _, _. split; [done|].
      rewrite Hp. by eapply swap_Permutation.
Qed.

End ReorderAnySize.

Section CoefficientsAnySize.
Context {A : Type}.
Implicit Types (iq : list A).

Lemma coefficients_loop_any (N : Z) (cnt : nat) : ∀ (n : Z) iq,
  0 ≤ N → 0 ≤ n → n + Z.of_nat cnt = N / 2 → Z.of_nat (length iq) = N →
  ∃ out,
    coefficients_loop cnt N n iq = Some out
    ∧ length out = length iq
    ∧ ∀ i, 0 ≤ i < N →
        get out i
        = get iq (if bool_decide (n ≤ i < N / 2) then i + N / 2
                  else if bool_decide (n + N / 2 ≤ i < 2 * (N / 2))
                       then i - N / 2 else i).
Proof.
  induction cnt as [|cnt IH]; intros n iq HN Hn Hcnt Hlen.
  all: pose proof (Z.mul_div_le N 2 ltac:(lia)) as Hh.
  - exists iq. split; [done|]. split; [done|]. intros i Hi.
    rewrite bool_decide_eq_false_2 by lia.
    rewrite bool_decide_eq_false_2 by lia. done.
  - cbn [coefficients_loop].
    destruct (swap_spec iq n (n + N / 2)) as (iq1 & -> & L1 & G1); [lia | lia |].
    cbn [mbind option_bind].
    destruct (IH (n + 1) iq1) as (out & Hrun & L & G); [lia | lia | lia | lia |].
    exists out. split; [done|]. split; [congruence|].
    intros i Hi. rewrite G, G1 by done. f_equal. unfold transp.
    repeat case_bool_decide; repeat case_decide; lia.
Qed.

Lemma fft_reorder_coefficients_any (N : Z) iq :
  0 ≤ N → Z.of_nat (length iq) = N →
  ∃ out,
    fft_reorder_coefficients iq N = Some out
    ∧ length out = length iq
    ∧ ∀ i, 0 ≤ i < N →
        get out i
        = get iq (if bool_decide (i < N / 2) then i + N / 2
                  else if bool_decide (i < 2 * (N / 2)) then i - N / 2 else i).
Proof.
  intros HN Hlen. unfold fft_reorder_coefficients.
  assert (0 ≤ N / 2) by (apply Z.div_pos; lia).
  destruct (coefficients_loop_any N (Z.to_nat (N / 2)) 0 iq) as (out & -> & L & G);
    [lia | lia | lia | done |].
  exists out. split; [done|]. split; [done|].
  intros i Hi. rewrite G by done. f_equal.
  repeat case_bool_decide; lia.
Qed.

End CoefficientsAnySize.

(** X3. [fft_reorder_coefficients] exchanges the first [N / 2] samples
    with the [N / 2] that follow them, for every length [N], and leaves
    the last sample of a buffer of odd length where it is; applied to its
    own result it gives the buffer back. *)
Theorem fft_reorder_coefficients_halves {A : Type} (iq : list A) (N : Z) :
  0 ≤ N → Z.of_nat (length iq) = N →
  ∃ out,
    fft_reorder_coefficients iq N = Some out
    ∧ length out = length iq
    ∧ (∀ i, 0 ≤ i < N / 2 →
         get out i = get iq (i + N / 2) ∧ get out (i + N / 2) = get iq i)
    ∧ (∀ i, 2 * (N / 2) ≤ i < N → get out i = get iq i)
    ∧ fft_reorder_coefficients out N = Some iq.
Proof.
  intros HN Hlen. pose proof (Z.mul_div_le N 2 ltac:(lia)) as Hh.
  assert (0 ≤ N / 2) by (apply Z.div_pos; lia).
  destruct (fft_reorder_coefficients_any N iq HN Hlen) as (out & Hrun & L & G).
  destruct (fft_reorder_coefficients_any N out HN ltac:(lia))
    as (out2 & Hrun2 & L2 & G2).
  exists out. split; [done|]. split; [done|]. split; [|split].
  - intros i Hi. rewrite !G by lia. split; f_equal; repeat case_bool_decide; lia.
  - intros i Hi. rewrite G by lia. f_equal. repeat case_bool_decide; lia.
  - rewrite Hrun2. f_equal. apply get_ext; [congruence|].
    intros i Hi. rewrite G2 by lia. rewrite G by (repeat case_bool_decide; lia).
    f_equal. repeat case_bool_decide; lia.
Qed.

Lemma fft_reorder_coefficients_halves_witness :
  ∃ out,
    fft_reorder_coefficients [10; 11; 12; 13; 14] 5 = Some out
    ∧ length out = length [10; 11; 12; 13; 14]
    ∧ (∀ i, 0 ≤ i < 5 / 2 →
         get out i = get [10; 11; 12; 13; 14] (i + 5 / 2)
         ∧ get out (i + 5 / 2) = get [10; 11; 12; 13; 14] i)
    ∧ (∀ i, 2 * (5 / 2) ≤ i < 5 → get out i = get [10; 11; 12; 13; 14] i)
    ∧ fft_reorder_coefficients out 5 = Some [10; 11; 12; 13; 14].
Proof.
  apply (fft_reorder_coefficients_halves [10; 11; 12; 13; 14] 5).
  - lia.
  - reflexivity.
Defined.

(** The bits of a reversal are the bits of the index, last first. *)
Lemma bitrev_testbit (k : nat) : ∀ (n : Z) (b : nat),
  0 ≤ n → (b < k)%nat →
  Z.testbit (bitrev k n) (Z.of_nat b) = Z.testbit n (Z.of_nat (k - 1 - b)).
Proof.
  induction k as [|k IH]; intros n b Hn Hb; [lia|].
  cbn [bitrev]. pose proof (pow2_pos k) as Hp.
  pose proof (bitrev_range k (n / 2)) as Hr.
  pose proof (Z.mod_pos_bound n 2 ltac:(lia)) as Hc.
  destruct (decide (b = k)) as [->|Hne].
  - replace (S k - 1 - k)%nat with 0%nat by lia.
    replace (Z.of_nat k) with (0 + Z.of_nat k) at 2 by lia.
    rewrite <- Z.div_pow2_bits by lia.
    replace (2 ^ Z.of_nat k * (n mod 2) + bitrev k (n / 2))
      with (bitrev k (n / 2) + (n mod 2) * 2 ^ Z.of_nat k) by lia.
    rewrite Z.div_add by lia. rewrite (Z.div_small (bitrev k (n / 2))) by lia.
    rewrite Z.add_0_l. change 2 with (2 ^ 1) at 1.
    apply Z.mod_pow2_bits_low. lia.
  - rewrite <- (Z.mod_pow2_bits_low _ (Z.of_nat k)) by lia.
    replace (2 ^ Z.of_nat k * (n mod 2) + bitrev k (n / 2))
      with (bitrev k (n / 2) + (n mod 2) * 2 ^ Z.of_nat k) by lia.
    rewrite Z.mod_add by lia. rewrite Z.mod_small by lia.
    rewrite IH by (lia || apply Z.div_pos; lia).
    change 2 with (2 ^ 1) at 1. rewrite Z.div_pow2_bits by lia.
    f_equal. lia.
Qed.

(** X1. On [N = 2^k] samples ([N] fitting an [int]) [fft_reorder_samples]
    is the bit-reversal permutation: it returns, and position [i] of the
    result holds the sample that was at the position whose [k] bits are
    those of [i] in reverse. *)
Theorem fft_reorder_samples_bit_reversal {A : Type} (k : nat) (iq : list A) :
  (k ≤ 30)%nat → Z.of_nat (length iq) = 2 ^ Z.of_nat k →
  ∃ out,
    fft_reorder_samples iq (2 ^ Z.of_nat k) = Some out
    ∧ length out = length iq
    ∧ ∀ i, 0 ≤ i < 2 ^ Z.of_nat k →
        get out i = get iq (bitrev k i)
        ∧ 0 ≤ bitrev k i < 2 ^ Z.of_nat k
        ∧ ∀ b, (b < k)%nat →
            Z.testbit (bitrev k i) (Z.of_nat b)
            = Z.testbit i (Z.of_nat (k - 1 - b)).
Proof.
  intros Hk Hlen.
  destruct (fft_reorder_samples_log_spec k iq Hk Hlen)
    as (out & log & Hrun & L & G & _).
  exists out. unfold fft_reorder_samples. rewrite Hrun.
  split; [done|]. split; [done|]. intros i Hi.
  split; [by apply G|]. split; [apply bitrev_range|].
  intros b Hb. apply bitrev_testbit; lia.
Qed.

Lemma fft_reorder_samples_bit_reversal_witness :
  ∃ out,
    fft_reorder_samples [10; 11; 12; 13; 14; 15; 16; 17] (2 ^ Z.of_nat 3)
    = Some out
    ∧ length out = length [10; 11; 12; 13; 14; 15; 16; 17]
    ∧ ∀ i, 0 ≤ i < 2 ^ Z.of_nat 3 →
        get out i = get [10; 11; 12; 13; 14; 15; 16; 17] (bitrev 3 i)
        ∧ 0 ≤ bitrev 3 i < 2 ^ Z.of_nat 3
        ∧ ∀ b, (b < 3)%nat →
            Z.testbit (bitrev 3 i) (Z.of_nat b)
            = Z.testbit i (Z.of_nat (3 - 1 - b)).
Proof.
  apply (fft_reorder_samples_bit_reversal 3 [10; 11; 12; 13; 14; 15; 16; 17]).
  - lia.
  - reflexivity.
Defined.

(** X2. For every length [N] that fits an [int], a power of two or not,
    [fft_reorder_samples] stays inside the buffer, comes to an end, and
    returns a rearrangement of the samples it was given. *)
Theorem fft_reorder_samples_permutes {A : Type} (iq : list A) (N : Z) :
  0 ≤ N < 2 ^ 31 → Z.of_nat (length iq) = N →
  ∃ out, fft_reorder_samples iq N = Some out ∧ out ≡ₚ iq.
Proof.
  intros HN Hlen. unfold fft_reorder_samples, fft_reorder_samples_log.
  destruct (decide (N ≤ 1)) as [Hs|Hs].
  - replace (Z.to_nat (N - 1)) with 0%nat by lia. by exists iq.
  - destruct (reorder_loop_any N (Z.to_nat (N - 1)) 1 0 iq)
      as (out & log & -> & Hp); [done | done | lia | lia | lia |].
    by exists out.
Qed.

Lemma fft_reorder_samples_permutes_witness :
  ∃ out, fft_reorder_samples [10; 11; 12; 13; 14; 15] 6 = Some out
         ∧ out ≡ₚ [10; 11; 12; 13; 14; 15].
Proof.
  apply (fft_reorder_samples_permutes [10; 11; 12; 13; 14; 15] 6).
  - lia.
  - reflexivity.
Defined.

Section Impulse.
Implicit Types (a w : iq_t) (e : list iq_t).

Lemma mul_zero_l w : Complex.mul (iq 0 0) w = iq 0 0.
Proof. destruct w as [[wr] [wi]]. reflexivity. Qed.

Lemma add_zero_r a : Complex.add a (iq 0 0) = a.
Proof.
  destruct a as [[ar] [ai]].
  cbv [Complex.add iq Complex.real Complex.imag sc_add Fixq15.fixq15_scalar
       Fixq15.add Fixq15.value].
  by rewrite !Z.add_0_r.
Qed.

Lemma sub_zero_r a : Complex.sub a (iq 0 0) = a.
Proof.
  destruct a as [[ar] [ai]].
  cbv [Complex.sub iq Complex.real Complex.imag sc_sub Fixq15.fixq15_scalar
       Fixq15.sub Fixq15.value].
  by rewrite !Z.sub_0_r.
Qed.

Lemma leading_length a (N c : Z) :
  0 ≤ c ≤ N → Z.of_nat (length (leading a N c)) = N.
Proof. intros H. unfold leading. rewrite length_app, !length_replicate. lia. Qed.

Lemma leading_get_lt a (N c i : Z) :
  0 ≤ i < c → get (leading a N c) i = Some a.
Proof.
  intros H. unfold get, leading. rewrite bool_decide_eq_true_2 by lia.
  rewrite lookup_app_l by (rewrite length_replicate; lia).
  apply lookup_replicate_2. lia.
Qed.

Lemma leading_get_ge a (N c i : Z) :
  0 ≤ c ≤ i → i < N → get (leading a N c) i = Some (iq 0 0).
Proof.
  intros H1 H2. unfold get, leading. rewrite bool_decide_eq_true_2 by lia.
  rewrite lookup_app_r by (rewrite length_replicate; lia).
  apply lookup_replicate_2. rewrite length_replicate. lia.
Qed.

Lemma set_same {A : Type} (l : list A) (i : Z) (x : A) :
  get l i = Some x → set l i x = Some l.
Proof.
  intros G. pose proof (get_Some_lookup _ _ _ G) as Hl.
  unfold get in G. case_bool_decide; [|done].
  unfold set. rewrite bool_decide_eq_true_2.
  - by rewrite list_insert_id.
  - apply lookup_lt_Some in Hl. lia.
Qed.

Lemma leading_set_next a (N c : Z) :
  0 ≤ c < N → set (leading a N c) c a = Some (leading a N (c + 1)).
Proof.
  intros H. unfold set. rewrite bool_decide_eq_true_2
    by (rewrite leading_length; lia).
  f_equal. unfold leading.
  replace (Z.to_nat (N - c)) with (S (Z.to_nat (N - (c + 1)))) by lia.
  replace (Z.to_nat (c + 1)) with (Z.to_nat c + 1)%nat by lia.
  cbn [replicate]. rewrite insert_app_r_alt by (rewrite length_replicate; lia).
  rewrite length_replicate, Nat.sub_diag. cbn.
  rewrite replicate_add, <- app_assoc. done.
Qed.

(** The butterfly of the first block, at the edge of the leading part. *)
Lemma butterfly_edge a e (N mh j : Z) w :
  0 ≤ j < mh → mh + j < N → get e j = Some w →
  butterfly e mh j 0 (leading a N (mh + j)) = Some (leading a N (mh + j + 1)).
Proof.
  intros Hj HN He. unfold butterfly.
  rewrite (leading_get_lt a N (mh + j) (0 + j)) by lia.
  rewrite (leading_get_ge a N (mh + j) (0 + j + mh)) by lia.
  rewrite He. cbn [mbind option_bind].
  cbn [num_mul num_add num_sub Complex.complex_numeric].
  rewrite mul_zero_l, add_zero_r, sub_zero_r.
  rewrite set_same by (apply leading_get_lt; lia). cbn [mbind option_bind].
  replace (0 + j + mh) with (mh + j) by lia.
  apply leading_set_next. lia.
Qed.

(** A butterfly that lies in the zeros leaves them. *)
Lemma butterfly_zeros a e (N c mh j r : Z) w :
  0 ≤ j < mh → 0 ≤ c ≤ r + j → r + j + mh < N → get e j = Some w →
  butterfly e mh j r (leading a N c) = Some (leading a N c).
Proof.
  intros Hj Hc HN He. unfold butterfly.
  rewrite (leading_get_ge a N c (r + j)) by lia.
  rewrite (leading_get_ge a N c (r + j + mh)) by lia.
  rewrite He. cbn [mbind option_bind].
  cbn [num_mul num_add num_sub Complex.complex_numeric].
  rewrite mul_zero_l, add_zero_r, sub_zero_r.
  rewrite set_same by (apply leading_get_ge; lia). cbn [mbind option_bind].
  apply set_same, leading_get_ge; lia.
Qed.

Lemma fold_opt_fixed {St : Type} (body : Z → St → option St) (idx : list Z)
    (s : St) :
  (∀ i, i ∈ idx → body i s = Some s) → fold_opt body idx s = Some s.
Proof.
  induction idx as [|i idx IH]; intros Hb; [done|].
  cbn [fold_opt]. rewrite Hb by apply list_elem_of_here. cbn.
  apply IH. intros j Hj. apply Hb. by apply list_elem_of_further.
Qed.

(** The loop over the blocks, for one [j]. *)
Lemma block_loop_leading a e (k : nat) (s j : Z) w :
  (k ≤ 30)%nat → 0 ≤ s < Z.of_nat k → 0 ≤ j < 2 ^ s → get e j = Some w →
  for_range 0 (Mach.to_int (2 ^ Z.of_nat k)) (2 ^ s * 2)
    (butterfly e (2 ^ s) j) (leading a (2 ^ Z.of_nat k) (2 ^ s + j))
  = Some (leading a (2 ^ Z.of_nat k) (2 ^ s + j + 1)).
Proof.
  intros Hk Hs Hj He.
  set (mh := 2 ^ s) in *. set (N := 2 ^ Z.of_nat k).
  assert (Hmh : 0 < mh) by (apply Z.pow_pos_nonneg; lia).
  assert (HN : N = 2 ^ (Z.of_nat k - s - 1) * (mh * 2)).
  { unfold N, mh. rewrite <- (Z.pow_1_r 2) at 4.
    rewrite <- !Z.pow_add_r by lia. f_equal. lia. }
  assert (Hq : 0 < 2 ^ (Z.of_nat k - s - 1)) by (apply Z.pow_pos_nonneg; lia).
  assert (HNb : N < 2 ^ 31) by (apply Z.pow_lt_mono_r; lia).
  rewrite to_int_small by lia.
  rewrite for_range_indices by lia.
  rewrite loop_indices_next by nia. cbn [fold_opt].
  rewrite (butterfly_edge a e N mh j w) by (lia || nia || done).
  cbn [mbind option_bind]. apply fold_opt_fixed.
  intros r (q & -> & Hq0 & Hqlt)%elem_of_loop_indices; [|lia].
  apply (butterfly_zeros a e N _ mh j _ w); [lia | nia | | done].
  assert (q + 2 ≤ 2 ^ (Z.of_nat k - s - 1)) by nia. nia.
Qed.

(** One pass doubles the leading part. *)
Lemma fft_pass_leading a e (k : nat) (s : Z) :
  (k ≤ 30)%nat → 0 ≤ s < Z.of_nat k →
  2 ^ Z.of_nat k ≤ 2 * Z.of_nat (length e) →
  fft_pass e (2 ^ Z.of_nat k) s (leading a (2 ^ Z.of_nat k) (2 ^ s))
  = Some (leading a (2 ^ Z.of_nat k) (2 ^ (s + 1))).
Proof.
  intros Hk Hs He. unfold fft_pass. rewrite Z.shiftl_1_l.
  assert (Hmh : 0 < 2 ^ s) by (apply Z.pow_pos_nonneg; lia).
  assert (Hle : 2 * 2 ^ s ≤ 2 ^ Z.of_nat k).
  { rewrite <- Z.pow_succ_r by lia. apply Z.pow_le_mono_r; lia. }
  rewrite for_range_1, Z.sub_0_r.
  assert (Hgen : ∀ (cnt : nat) (j : Z), 0 ≤ j → j + Z.of_nat cnt = 2 ^ s →
    fold_opt (λ j0, for_range 0 (Mach.to_int (2 ^ Z.of_nat k)) (2 ^ s * 2)
                      (butterfly e (2 ^ s) j0))
      (seqZ j (Z.of_nat cnt)) (leading a (2 ^ Z.of_nat k) (2 ^ s + j))
    = Some (leading a (2 ^ Z.of_nat k) (2 ^ (s + 1)))).
  { induction cnt as [|cnt IH]; intros j Hj Hcnt.
    - cbn. do 2 f_equal. rewrite Z.pow_add_r, Z.pow_1_r by lia. lia.
    - rewrite seqZ_cons by lia. cbn [fold_opt].
      destruct (get_in_range e j ltac:(lia)) as [w Hw].
      rewrite (block_loop_leading a e k s j w) by (lia || done).
      cbn [mbind option_bind].
      replace (Z.pred (Z.of_nat (S cnt))) with (Z.of_nat cnt) by lia.
      replace (2 ^ s + j + 1) with (2 ^ s + Z.succ j) by lia.
      apply IH; lia. }
  specialize (Hgen (Z.to_nat (2 ^ s)) 0 ltac:(lia) ltac:(lia)).
  rewrite Z2Nat.id, Z.add_0_r in Hgen by lia. exact Hgen.
Qed.

(** The passes, from a leading part of [2^s] on. *)
Lemma fft_passes_leading a e (k : nat) :
  (k ≤ 30)%nat → 2 ^ Z.of_nat k ≤ 2 * Z.of_nat (length e) →
  ∀ (cnt : nat) (s : Z), 0 ≤ s → s + Z.of_nat cnt = Z.of_nat k →
    fold_opt (fft_pass e (2 ^ Z.of_nat k)) (seqZ s (Z.of_nat cnt))
      (leading a (2 ^ Z.of_nat k) (2 ^ s))
    = Some (leading a (2 ^ Z.of_nat k) (2 ^ Z.of_nat k)).
Proof.
  intros Hk He. induction cnt as [|cnt IH]; intros s Hs Hcnt.
  - cbn. do 3 f_equal. lia.
  - rewrite seqZ_cons by lia. cbn [fold_opt].
    rewrite fft_pass_leading by (lia || done). cbn [mbind option_bind].
    replace (Z.pred (Z.of_nat (S cnt))) with (Z.of_nat cnt) by lia.
    replace (s + 1) with (Z.succ s) by lia. apply IH; lia.
Qed.

Lemma reorder_impulse a (k : nat) :
  (k ≤ 30)%nat →
  fft_reorder_samples (leading a (2 ^ Z.of_nat k) 1) (2 ^ Z.of_nat k)
  = Some (leading a (2 ^ Z.of_nat k) 1).
Proof.
  intros Hk. pose proof (pow2_pos k) as Hp.
  destruct (fft_reorder_samples_log_spec k (leading a (2 ^ Z.of_nat k) 1) Hk)
    as (out & log & Hrun & L & G & _); [apply leading_length; lia|].
  unfold fft_reorder_samples. rewrite Hrun. cbn. f_equal.
  apply get_ext; [done|]. intros i Hi. rewrite L, leading_length in Hi by lia.
  rewrite G by done. pose proof (bitrev_range k i) as Hr.
  destruct (decide (i = 0)) as [->|Hne]; [by rewrite bitrev_0|].
  assert (bitrev k i ≠ 0).
  { intros E. apply Hne. apply (bitrev_inj k); [lia | lia |].
    by rewrite bitrev_0. }
  rewrite !leading_get_ge by lia. done.
Qed.

Lemma coefficients_constant a (k : nat) :
  fft_reorder_coefficients (leading a (2 ^ Z.of_nat k) (2 ^ Z.of_nat k))
    (2 ^ Z.of_nat k)
  = Some (leading a (2 ^ Z.of_nat k) (2 ^ Z.of_nat k)).
Proof.
  pose proof (pow2_pos k) as Hp.
  destruct (fft_reorder_coefficients_any (2 ^ Z.of_nat k)
              (leading a (2 ^ Z.of_nat k) (2 ^ Z.of_nat k)))
    as (out & -> & L & G); [lia | apply leading_length; lia |].
  f_equal. apply get_ext; [done|]. intros i Hi.
  rewrite L, leading_length in Hi by lia.
  pose proof (Z.mul_div_le (2 ^ Z.of_nat k) 2 ltac:(lia)).
  assert (0 ≤ 2 ^ Z.of_nat k / 2) by (apply Z.div_pos; lia).
  rewrite G by done. rewrite !leading_get_lt; [done | lia |].
  repeat case_bool_decide; lia.
Qed.

Lemma fft_leading_one a e (k : nat) :
  (k ≤ 30)%nat → 2 ^ Z.of_nat k ≤ 2 * Z.of_nat (length e) →
  fft (leading a (2 ^ Z.of_nat k) 1) e (2 ^ Z.of_nat k)
  = Some (leading a (2 ^ Z.of_nat k) (2 ^ Z.of_nat k)).
Proof.
  intros Hk He. unfold fft. rewrite reorder_impulse by done.
  cbn [mbind option_bind]. unfold ilog2. rewrite Z.log2_pow2 by lia.
  rewrite for_range_1, Z.sub_0_r.
  pose proof (fft_passes_leading a e k Hk He k 0 ltac:(lia) ltac:(lia)) as Hp.
  change (2 ^ 0) with 1 in Hp. rewrite Hp. cbn [mbind option_bind].
  apply coefficients_constant.
Qed.

End Impulse.

(** ** The transform: what it reads, and what it makes of simple buffers *)

Section TableReads.
Context {C : Type} `{Numeric C}.
Implicit Types (iq e : list C).

Lemma for_fuel_ext {St : Type} (body body' : Z → St → option St)
    (fuel : nat) : ∀ (i hi step : Z) (s : St),
  (∀ i s, body i s = body' i s) →
  for_fuel fuel i hi step body s = for_fuel fuel i hi step body' s.
Proof.
  induction fuel as [|fuel IH]; intros i hi step s Hb; [done|].
  cbn [for_fuel]. case_bool_decide; [|done].
  rewrite Hb. destruct (body' i s); [|done]. cbn. by apply IH.
Qed.

Lemma fold_opt_ext_in {St : Type} (body body' : Z → St → option St)
    (idx : list Z) : ∀ s : St,
  (∀ i s, i ∈ idx → body i s = body' i s) →
  fold_opt body idx s = fold_opt body' idx s.
Proof.
  induction idx as [|i idx IH]; intros s Hb; [done|].
  cbn [fold_opt]. rewrite Hb by apply list_elem_of_here.
  destruct (body' i s); [|done]. cbn. apply IH.
  intros j s' Hj. apply Hb. by apply list_elem_of_further.
Qed.

Lemma butterfly_ext e e' (mh j r : Z) iq :
  get e j = get e' j → butterfly e mh j r iq = butterfly e' mh j r iq.
Proof. intros E. unfold butterfly. by rewrite E. Qed.

Lemma fft_pass_ext e e' (N s : Z) iq :
  0 ≤ s → (∀ j, 0 ≤ j < 2 ^ s → get e j = get e' j) →
  fft_pass e N s iq = fft_pass e' N s iq.
Proof.
  intros Hs E. unfold fft_pass. rewrite Z.shiftl_1_l, !for_range_1.
  apply fold_opt_ext_in. intros j iq' Hj%elem_of_seqZ.
  unfold for_range. apply for_fuel_ext. intros r iq''.
  apply butterfly_ext, E. lia.
Qed.

Lemma fft_table_ext iq e e' (N : Z) :
  (∀ j, 0 ≤ j < N / 2 → get e j = get e' j) → fft iq e N = fft iq e' N.
Proof.
  intros E. unfold fft. destruct (fft_reorder_samples iq N) as [iq1|]; [|done].
  cbn [mbind option_bind]. rewrite !for_range_1.
  rewrite (fold_opt_ext_in (fft_pass e N) (fft_pass e' N)); [done|].
  intros s iq' Hs%elem_of_seqZ. unfold ilog2 in Hs.
  apply fft_pass_ext; [lia|]. intros j Hj. apply E.
  assert (HN : 0 < N).
  { destruct (decide (0 < N)); [done|].
    rewrite Z.log2_nonpos in Hs by lia. lia. }
  pose proof (Z.log2_spec N HN) as [Hlo _].
  assert (2 ^ (s + 1) ≤ 2 ^ Z.log2 N) by (apply Z.pow_le_mono_r; lia).
  rewrite Z.pow_add_r, Z.pow_1_r in * by lia.
  assert (2 ^ s ≤ N / 2) by (apply Z.div_le_lower_bound; lia). lia.
Qed.

End TableReads.

(** X4. On a buffer of [N = 2^k] samples, [k] up to 30, and a table of at
    least [N / 2] entries, [fft] returns: every read and write of the
    three loops stays inside the buffer and the table, and the buffer
    keeps its length. *)
Theorem fft_stays_in_bounds {C : Type} `{Numeric C} (iq e : list C) (k : nat) :
  (k ≤ 30)%nat →
  Z.of_nat (length iq) = 2 ^ Z.of_nat k →
  2 ^ Z.of_nat k ≤ 2 * Z.of_nat (length e) →
  ∃ out, fft iq e (2 ^ Z.of_nat k) = Some out ∧ length out = length iq.
Proof. apply fft_total. Qed.

Lemma fft_stays_in_bounds_witness :
  ∃ out, fft (Sample.impulse 1 8) (take 4 Sample.e8) (2 ^ Z.of_nat 3) = Some out
         ∧ length out = length (Sample.impulse 1 8).
Proof.
  apply (fft_stays_in_bounds (Sample.impulse 1 8) (take 4 Sample.e8) 3);
    [lia | reflexivity | vm_compute; discriminate].
Defined.

(** X5. [fft] reads only the entries of the table below [N / 2]: two
    tables that agree there give the same result on every buffer, for
    every [N]. The upper half of the table of [N] entries that [main]
    builds is never used. ([ilog2] is exact on the powers of two and
    taken as the floor of the binary logarithm elsewhere.) *)
Theorem fft_reads_half_of_table {C : Type} `{Numeric C}
    (iq e e' : list C) (N : Z) :
  (∀ j, 0 ≤ j < N / 2 → get e j = get e' j) →
  fft iq e N = fft iq e' N.
Proof. apply fft_table_ext. Qed.

Lemma fft_reads_half_of_table_witness :
  fft Sample.tone Sample.e8 8 = fft Sample.tone (take 4 Sample.e8) 8.
Proof.
  apply (fft_reads_half_of_table Sample.tone Sample.e8 (take 4 Sample.e8) 8).
  intros j Hj. change (8 / 2) with 4 in Hj.
  assert (E : j = 0 ∨ j = 1 ∨ j = 2 ∨ j = 3) by lia.
  destruct E as [-> | [-> | [-> | ->]]]; reflexivity.
Defined.

(** X6. The transform of an impulse is flat. A buffer of [N = 2^k] samples
    that holds [a] at index 0 and zero elsewhere comes back as [N] times
    [a], whatever the table holds: every product the butterflies take
    has the factor zero. *)
Theorem fft_impulse_is_flat (a : iq_t) (e : list iq_t) (k : nat) :
  (k ≤ 30)%nat → 2 ^ Z.of_nat k ≤ 2 * Z.of_nat (length e) →
  fft (a :: replicate (Z.to_nat (2 ^ Z.of_nat k - 1)) (iq 0 0)) e
      (2 ^ Z.of_nat k)
  = Some (replicate (Z.to_nat (2 ^ Z.of_nat k)) a).
Proof.
  intros Hk He. pose proof (fft_leading_one a e k Hk He) as F.
  unfold leading in F. rewrite Z.sub_diag in F.
  change (Z.to_nat 0) with 0%nat in F. change (Z.to_nat 1) with 1%nat in F.
  cbn [replicate app] in F. by rewrite app_nil_r in F.
Qed.

Lemma fft_impulse_is_flat_witness :
  fft (iq 1000 (-7) :: replicate (Z.to_nat (2 ^ Z.of_nat 3 - 1)) (iq 0 0))
      (take 4 Sample.e8) (2 ^ Z.of_nat 3)
  = Some (replicate (Z.to_nat (2 ^ Z.of_nat 3)) (iq 1000 (-7))).
Proof.
  apply (fft_impulse_is_flat (iq 1000 (-7)) (take 4 Sample.e8) 3);
    [lia | vm_compute; discriminate].
Defined.

Lemma sum_real_replicate (c : iq_t) (n : nat) :
  sum_real (replicate n c) = Z.of_nat n * Fixq15.value (Complex.real c).
Proof.
  induction n as [|n IH]; [done|]. rewrite Nat2Z.inj_succ.
  unfold sum_real in *. cbn [replicate foldr]. rewrite IH. lia.
Qed.

Lemma sum_imag_replicate (c : iq_t) (n : nat) :
  sum_imag (replicate n c) = Z.of_nat n * Fixq15.value (Complex.imag c).
Proof.
  induction n as [|n IH]; [done|]. rewrite Nat2Z.inj_succ.
  unfold sum_imag in *. cbn [replicate foldr]. rewrite IH. lia.
Qed.

Lemma remove_dc_constant (c : iq_t) (N : Z) :
  0 < N →
  remove_dc (replicate (Z.to_nat N) c) N
  = Some (replicate (Z.to_nat N) (iq 0 0)).
Proof.
  intros HN. rewrite remove_dc_spec by (rewrite ?length_replicate; lia).
  rewrite sum_real_replicate, sum_imag_replicate, Z2Nat.id by lia.
  rewrite !(Z.mul_comm N), !Z.quot_mul by lia.
  destruct c as [[cr] [ci]]. cbn [Complex.real Complex.imag Fixq15.value].
  f_equal. case_bool_decide as E.
  - destruct E as [-> ->]. done.
  - rewrite fmap_replicate. f_equal. unfold Complex.sub, iq. cbn.
    unfold Fixq15.sub. cbn. by rewrite !Z.sub_diag.
Qed.

Lemma fft_zero (e : list iq_t) (k : nat) :
  (k ≤ 30)%nat → 2 ^ Z.of_nat k ≤ 2 * Z.of_nat (length e) →
  fft (replicate (Z.to_nat (2 ^ Z.of_nat k)) (iq 0 0)) e (2 ^ Z.of_nat k)
  = Some (replicate (Z.to_nat (2 ^ Z.of_nat k)) (iq 0 0)).
Proof.
  intros Hk He. pose proof (fft_leading_one (iq 0 0) e k Hk He) as F.
  pose proof (pow2_pos k) as Hp.
  unfold leading in F. rewrite Z.sub_diag in F.
  change (Z.to_nat 0) with 0%nat in F. rewrite app_nil_r in F.
  rewrite <- replicate_add in F.
  by replace (Z.to_nat 1 + Z.to_nat (2 ^ Z.of_nat k - 1))%nat
    with (Z.to_nat (2 ^ Z.of_nat k)) in F by lia.
Qed.

(** X7. A constant buffer has no spectrum left. [remove_dc] takes a buffer
    of [N = 2^k] equal samples to the all-zero buffer, and [fft] leaves
    the all-zero buffer as it is: after the two steps of the analysis
    stage every bin is zero. *)
Theorem constant_buffer_has_zero_spectrum (c : iq_t) (e : list iq_t) (k : nat) :
  (k ≤ 30)%nat → 2 ^ Z.of_nat k ≤ 2 * Z.of_nat (length e) →
  ∃ iq1,
    remove_dc (replicate (Z.to_nat (2 ^ Z.of_nat k)) c) (2 ^ Z.of_nat k)
    = Some iq1
    ∧ iq1 = replicate (Z.to_nat (2 ^ Z.of_nat k)) (iq 0 0)
    ∧ fft iq1 e (2 ^ Z.of_nat k)
      = Some (replicate (Z.to_nat (2 ^ Z.of_nat k)) (iq 0 0)).
Proof.
  intros Hk He. eexists. split; [apply remove_dc_constant, pow2_pos|].
  split; [done|]. by apply fft_zero.
Qed.

Lemma constant_buffer_has_zero_spectrum_witness :
  ∃ iq1,
    remove_dc (replicate (Z.to_nat (2 ^ Z.of_nat 3)) (iq 768 (-256)))
      (2 ^ Z.of_nat 3) = Some iq1
    ∧ iq1 = replicate (Z.to_nat (2 ^ Z.of_nat 3)) (iq 0 0)
    ∧ fft iq1 Sample.e8 (2 ^ Z.of_nat 3)
      = Some (replicate (Z.to_nat (2 ^ Z.of_nat 3)) (iq 0 0)).
Proof.
  apply (constant_buffer_has_zero_spectrum (iq 768 (-256)) Sample.e8 3);
    [lia | vm_compute; discriminate].
Defined.

(** ** The tables and the data flow of the smallest sizes *)

Lemma main_table_1 : main_table 1 = Some [iq 32768 0].
Proof.
  rewrite main_table_spec by lia. f_equal.
  change (seqZ 0 1) with [0]%Z. cbn [fmap list_fmap].
  repeat f_equal.
  apply (twiddle_eq 0 1 0 1 0); [lra | apply cos_0 | apply sin_0
                                | apply round_Q15_1 | apply round_Q15_0].
Qed.

Lemma main_table_2 : main_table 2 = Some [iq 32768 0; iq (-32768) 0].
Proof.
  rewrite main_table_spec by lia. f_equal.
  change (seqZ 0 2) with [0; 1]%Z. cbn [fmap list_fmap].
  repeat f_equal.
  - apply (twiddle_eq 0 2 0 1 0); [lra | apply cos_0 | apply sin_0
                                  | apply round_Q15_1 | apply round_Q15_0].
  - apply (twiddle_eq 1 2 PI (-1) 0);
      [lra | apply cos_PI | apply sin_PI | apply round_Q15_m1 | apply round_Q15_0].
Qed.

Section SmallDataflow.
Context {C : Type} `{Numeric C}.
Variables (x0 x1 e0 e1 : C).

#[local] Infix "⊕" := num_add (at level 50, left associativity).
#[local] Infix "⊖" := num_sub (at level 50, left associativity).
#[local] Infix "⊗" := num_mul (at level 40, left associativity).

Lemma fft_1_dataflow : fft [x0] [e0] 1 = Some [x0].
Proof. vm_compute. reflexivity. Qed.

Lemma fft_2_dataflow :
  fft [x0; x1] [e0; e1] 2 = Some [x0 ⊖ x1 ⊗ e0; x0 ⊕ x1 ⊗ e0].
Proof. vm_compute. reflexivity. Qed.

End SmallDataflow.

(** The products with the four entries of the table of size four are
    exact. *)
Lemma shiftr_Q15 (z : Z) : Z.shiftr (z * 32768) 15 = z.
Proof. rewrite Z.shiftr_div_pow2 by lia. apply Z.div_mul. done. Qed.

Lemma shiftr_neg_Q15 (z : Z) : Z.shiftr (z * -32768) 15 = - z.
Proof.
  replace (z * -32768) with (- z * 32768) by lia. apply shiftr_Q15.
Qed.

Lemma shiftr_zero (z : Z) : Z.shiftr (z * 0) 15 = 0.
Proof. by rewrite Z.mul_0_r. Qed.

(** ** What remove_dc leaves *)

Lemma remove_dc_residual (iqbuf : list iq_t) (N : Z) :
  0 < N → Z.of_nat (length iqbuf) = N →
  ∃ out,
    remove_dc iqbuf N = Some out
    ∧ out = (λ x, Complex.sub x (iq (sum_real iqbuf ÷ N) (sum_imag iqbuf ÷ N)))
              <$> iqbuf
    ∧ sum_real out = Z.rem (sum_real iqbuf) N
    ∧ sum_imag out = Z.rem (sum_imag iqbuf) N.
Proof.
  intros HN Hlen. rewrite remove_dc_spec by done.
  set (a := iq (sum_real iqbuf ÷ N) (sum_imag iqbuf ÷ N)).
  assert (E : (if bool_decide (sum_real iqbuf ÷ N = 0 ∧ sum_imag iqbuf ÷ N = 0)
               then iqbuf else (λ x, Complex.sub x a) <$> iqbuf)
              = (λ x, Complex.sub x a) <$> iqbuf).
  { case_bool_decide as E; [|done]. destruct E as [E1 E2].
    unfold a. rewrite E1, E2. symmetry.
    rewrite <- (list_fmap_id iqbuf) at 2.
    apply list_fmap_ext. intros _ x _. apply sub_zero_r. }
  rewrite E. eexists. split; [done|]. split; [done|].
  destruct (sums_after_sub iqbuf a) as [-> ->]. rewrite Hlen.
  unfold a, iq. cbn [Complex.real Complex.imag Fixq15.value].
  rewrite !Z.rem_eq by lia. done.
Qed.

(** X9. [remove_dc] on a buffer of [N >= 1] samples subtracts from every
    sample the mean of the buffer, each part of the mean truncated
    toward zero. What it leaves has, in each part, the sum that is the
    remainder of the former sum by [N]: less than [N] in magnitude, not
    always zero. *)
Theorem remove_dc_subtracts_truncated_mean (iqbuf : list iq_t) (N : Z) :
  0 < N → Z.of_nat (length iqbuf) = N →
  ∃ out,
    remove_dc iqbuf N = Some out
    ∧ out = (λ x, Complex.sub x (iq (sum_real iqbuf ÷ N) (sum_imag iqbuf ÷ N)))
              <$> iqbuf
    ∧ sum_real out = Z.rem (sum_real iqbuf) N
    ∧ sum_imag out = Z.rem (sum_imag iqbuf) N
    ∧ Z.abs (sum_real out) < N ∧ Z.abs (sum_imag out) < N.
Proof.
  intros HN Hlen.
  destruct (remove_dc_residual iqbuf N HN Hlen) as (out & Hrun & Hout & Hr & Hi).
  exists out. repeat split; try done.
  - rewrite Hr. pose proof (Z.rem_bound_abs (sum_real iqbuf) N). lia.
  - rewrite Hi. pose proof (Z.rem_bound_abs (sum_imag iqbuf) N). lia.
Qed.

Lemma remove_dc_subtracts_truncated_mean_witness :
  ∃ out,
    remove_dc [iq 7 (-7); iq 0 0; iq 0 0; iq 0 0] 4 = Some out
    ∧ out = (λ x, Complex.sub x
                    (iq (sum_real [iq 7 (-7); iq 0 0; iq 0 0; iq 0 0] ÷ 4)
                        (sum_imag [iq 7 (-7); iq 0 0; iq 0 0; iq 0 0] ÷ 4)))
              <$> [iq 7 (-7); iq 0 0; iq 0 0; iq 0 0]
    ∧ sum_real out = Z.rem (sum_real [iq 7 (-7); iq 0 0; iq 0 0; iq 0 0]) 4
    ∧ sum_imag out = Z.rem (sum_imag [iq 7 (-7); iq 0 0; iq 0 0; iq 0 0]) 4
    ∧ Z.abs (sum_real out) < 4 ∧ Z.abs (sum_imag out) < 4.
Proof.
  apply (remove_dc_subtracts_truncated_mean
           [iq 7 (-7); iq 0 0; iq 0 0; iq 0 0] 4); [lia | reflexivity].
Defined.

(** ** The shape of the table *)

Section TableShape.
#[local] Open Scope R_scope.

Lemma Int_part_half : Int_part (0 + / 2) = 0%Z.
Proof. symmetry. apply Int_part_spec. lra. Qed.

Lemma c_round_opp (x : R) : c_round (- x) = (- c_round x)%Z.
Proof.
  unfold c_round.
  destruct (Rle_dec 0 x) as [Hx|Hx], (Rle_dec 0 (- x)) as [Hx'|Hx'].
  - assert (x = 0) as -> by lra. rewrite Ropp_0, Int_part_half. done.
  - by rewrite Ropp_involutive.
  - lia.
  - lra.
Qed.

Lemma c_round_Q15_range (c : R) :
  -1 <= c <= 1 → (- Q15 ≤ c_round (IZR Q15 * c) ≤ Q15)%Z.
Proof.
  intros Hc. pose proof (c_round_bound (IZR Q15 * c)) as Hb.
  unfold Rabs in Hb. change (IZR Q15) with 32768 in *.
  destruct (Rcase_abs _) as [Hneg|Hpos] in Hb.
  all: set (z := c_round (32768 * c)) in *.
  all: split;
    [ apply Z.lt_succ_r, lt_IZR; rewrite succ_IZR;
      change (IZR (- Q15)) with (-32768); lra
    | apply Z.lt_succ_r, lt_IZR; rewrite succ_IZR;
      change (IZR Q15) with 32768; lra ].
Qed.

Lemma twiddle_range (k N : Z) (re im : Z) :
  twiddle k N = iq re im →
  (- Q15 ≤ re ≤ Q15 ∧ - Q15 ≤ im ≤ Q15)%Z.
Proof.
  unfold twiddle. intros [= <- <-].
  split; apply c_round_Q15_range; [apply COS_bound | apply SIN_bound].
Qed.

Lemma twiddle_0 (N : Z) : twiddle 0 N = iq Q15 0.
Proof.
  apply (twiddle_eq 0 N 0 1 0);
    [unfold Rdiv; by rewrite Rmult_0_r, Rmult_0_l | apply cos_0 | apply sin_0
    | apply round_Q15_1 | apply round_Q15_0].
Qed.

Lemma twiddle_conj (k N : Z) (re im : Z) :
  (N ≠ 0)%Z → twiddle k N = iq re im → twiddle (N - k) N = iq re (- im).
Proof.
  intros HN. unfold twiddle. intros [= <- <-].
  assert (HR : IZR N ≠ 0) by (by apply not_0_IZR).
  replace (2 * PI * IZR (N - k) / IZR N)
    with (- (2 * PI * IZR k / IZR N) + 2 * INR 1 * PI)
    by (rewrite minus_IZR; cbn [INR]; field; done).
  rewrite cos_period, sin_period, cos_neg, sin_neg.
  rewrite Ropp_mult_distr_r_reverse, c_round_opp. done.
Qed.

Lemma twiddle_half_turn (k N : Z) (re im : Z) :
  (N ≠ 0)%Z → (N mod 2 = 0)%Z →
  twiddle k N = iq re im → twiddle (k + N / 2) N = iq (- re) (- im).
Proof.
  intros HN Heven. unfold twiddle. intros [= <- <-].
  assert (HR : IZR N ≠ 0) by (by apply not_0_IZR).
  assert (E : N = (2 * (N / 2))%Z) by (apply Z_div_exact_full_2; lia).
  assert (ER : IZR N = 2 * IZR (N / 2)) by (rewrite E at 1; by rewrite mult_IZR).
  replace (2 * PI * IZR (k + N / 2) / IZR N)
    with (2 * PI * IZR k / IZR N + PI).
  2:{ rewrite plus_IZR. apply (Rmult_eq_reg_r (IZR N)); [|done].
      unfold Rdiv. rewrite Rmult_plus_distr_r.
      rewrite !Rmult_assoc, Rinv_l, !Rmult_1_r by done. rewrite ER at 1. lra. }
  rewrite neg_cos, neg_sin, !Ropp_mult_distr_r_reverse, !c_round_opp. done.
Qed.

End TableShape.

Lemma main_table_get (N k : Z) :
  0 ≤ k < N →
  ∃ e, main_table N = Some e ∧ get e k = Some (twiddle k N).
Proof.
  intros Hk. rewrite main_table_spec by lia. eexists. split; [done|].
  unfold get. rewrite bool_decide_eq_true_2 by lia.
  rewrite list_lookup_fmap, lookup_seqZ_lt by lia. cbn.
  rewrite Z2Nat.id by lia. done.
Qed.

Lemma main_table_shape (N : Z) :
  1 ≤ N →
  ∃ e, main_table N = Some e
    ∧ get e 0 = Some (iq Q15 0)
    ∧ (∀ k re im, 0 ≤ k < N → get e k = Some (iq re im) →
         - Q15 ≤ re ≤ Q15 ∧ - Q15 ≤ im ≤ Q15)
    ∧ (∀ k re im, 0 < k < N → get e k = Some (iq re im) →
         get e (N - k) = Some (iq re (- im)))
    ∧ (∀ k re im, N mod 2 = 0 → 0 ≤ k < N / 2 → get e k = Some (iq re im) →
         get e (k + N / 2) = Some (iq (- re) (- im))).
Proof.
  intros HN. destruct (main_table_get N 0 ltac:(lia)) as (e & He & H0).
  exists e. split; [done|].
  assert (G : ∀ k, 0 ≤ k < N → get e k = Some (twiddle k N)).
  { intros k Hk. destruct (main_table_get N k Hk) as (e' & He' & Hg).
    congruence. }
  split; [by rewrite H0, twiddle_0|]. split; [|split].
  - intros k re im Hk Hg. rewrite G in Hg by done.
    apply (twiddle_range k N). congruence.
  - intros k re im Hk Hg. rewrite G in Hg by lia. rewrite G by lia.
    f_equal. apply twiddle_conj; [lia | congruence].
  - intros k re im Heven Hk Hg.
    assert (N = 2 * (N / 2)) by (apply Z_div_exact_full_2; lia).
    rewrite G in Hg by lia. rewrite G by lia.
    f_equal. apply twiddle_half_turn; [lia | done | congruence].
Qed.

(** X10. The table [main] builds for [N >= 1] has the symmetries of the
    unit circle, exactly, after rounding: entry 0 is [(Q15, 0)]; the
    parts of every entry lie in [[-Q15, Q15]]; entry [N - k] is the
    conjugate of entry [k]; and for even [N] entry [k + N / 2] is the
    opposite of entry [k]. ([cos], [sin] and [round] are those of the
    real numbers.) *)
Theorem twiddle_table_symmetries (N : Z) :
  1 ≤ N →
  ∃ e, main_table N = Some e
    ∧ get e 0 = Some (iq Q15 0)
    ∧ (∀ k re im, 0 ≤ k < N → get e k = Some (iq re im) →
         - Q15 ≤ re ≤ Q15 ∧ - Q15 ≤ im ≤ Q15)
    ∧ (∀ k re im, 0 < k < N → get e k = Some (iq re im) →
         get e (N - k) = Some (iq re (- im)))
    ∧ (∀ k re im, N mod 2 = 0 → 0 ≤ k < N / 2 → get e k = Some (iq re im) →
         get e (k + N / 2) = Some (iq (- re) (- im))).
Proof. apply main_table_shape. Qed.

Lemma twiddle_table_symmetries_witness :
  ∃ e, main_table 8 = Some e
    ∧ get e 0 = Some (iq Q15 0)
    ∧ (∀ k re im, 0 ≤ k < 8 → get e k = Some (iq re im) →
         - Q15 ≤ re ≤ Q15 ∧ - Q15 ≤ im ≤ Q15)
    ∧ (∀ k re im, 0 < k < 8 → get e k = Some (iq re im) →
         get e (8 - k) = Some (iq re (- im)))
    ∧ (∀ k re im, 8 mod 2 = 0 → 0 ≤ k < 8 / 2 → get e k = Some (iq re im) →
         get e (k + 8 / 2) = Some (iq (- re) (- im))).
Proof. apply (twiddle_table_symmetries 8). lia. Defined.

(** ** The sizes on which the code is a transform, and which one *)

Section SpecKernel.

Lemma spec_twiddle_conjugate (k N : Z) :
  spec_twiddle k N = conjugate (twiddle k N).
Proof.
  unfold spec_twiddle, twiddle, conjugate, iq.
  cbn [Complex.real Complex.imag Fixq15.value].
  by rewrite cos_neg, sin_neg, Ropp_mult_distr_r_reverse, c_round_opp.
Qed.

(** The table of the kernel of the spec is the table of [main],
    conjugated. *)
Lemma spec_table (N : Z) (e : list iq_t) :
  main_table N = Some e →
  ∀ j, 0 ≤ j < N → get (conjugate <$> e) j = Some (spec_twiddle j N).
Proof.
  intros He j Hj. destruct (main_table_get N j Hj) as (e' & He' & Hg).
  assert (e' = e) as -> by congruence.
  pose proof (get_Some_lookup _ _ _ Hg) as Hl.
  unfold get. rewrite bool_decide_eq_true_2 by lia.
  by rewrite list_lookup_fmap, Hl, spec_twiddle_conjugate.
Qed.

Lemma spec_dft_bin_table (x tbl : list iq_t) (N k : Z) :
  0 < N → (∀ j, 0 ≤ j < N → get tbl j = Some (spec_twiddle j N)) →
  spec_dft_bin x N k = dft_bin x tbl N k.
Proof.
  intros HN Ht. unfold spec_dft_bin, dft_bin, for_range.
  apply for_fuel_ext. intros n acc. destruct (get x n) as [xn|]; [|done].
  cbn [mbind option_bind].
  by rewrite Ht by (apply Z.mod_pos_bound; lia).
Qed.

End SpecKernel.

Section DftBins.
Variables (x0 x1 x2 x3 e0 e1 e2 e3 : iq_t).

#[local] Infix "⊕" := Complex.add (at level 50, left associativity).
#[local] Infix "⊗" := Complex.mul (at level 40, left associativity).

Lemma dft_bin_1 : dft_bin [x0] [e0] 1 0 = Some (iq 0 0 ⊕ x0 ⊗ e0).
Proof. vm_compute. reflexivity. Qed.

Lemma dft_bin_2_0 :
  dft_bin [x0; x1] [e0; e1] 2 0 = Some (iq 0 0 ⊕ x0 ⊗ e0 ⊕ x1 ⊗ e0).
Proof. vm_compute. reflexivity. Qed.

Lemma dft_bin_2_1 :
  dft_bin [x0; x1] [e0; e1] 2 1 = Some (iq 0 0 ⊕ x0 ⊗ e0 ⊕ x1 ⊗ e1).
Proof. vm_compute. reflexivity. Qed.

Lemma dft_bin_4_0 :
  dft_bin [x0; x1; x2; x3] [e0; e1; e2; e3] 4 0
  = Some (iq 0 0 ⊕ x0 ⊗ e0 ⊕ x1 ⊗ e0 ⊕ x2 ⊗ e0 ⊕ x3 ⊗ e0).
Proof. vm_compute. reflexivity. Qed.

Lemma dft_bin_4_1 :
  dft_bin [x0; x1; x2; x3] [e0; e1; e2; e3] 4 1
  = Some (iq 0 0 ⊕ x0 ⊗ e0 ⊕ x1 ⊗ e1 ⊕ x2 ⊗ e2 ⊕ x3 ⊗ e3).
Proof. vm_compute. reflexivity. Qed.

Lemma dft_bin_4_2 :
  dft_bin [x0; x1; x2; x3] [e0; e1; e2; e3] 4 2
  = Some (iq 0 0 ⊕ x0 ⊗ e0 ⊕ x1 ⊗ e2 ⊕ x2 ⊗ e0 ⊕ x3 ⊗ e2).
Proof. vm_compute. reflexivity. Qed.

Lemma dft_bin_4_3 :
  dft_bin [x0; x1; x2; x3] [e0; e1; e2; e3] 4 3
  = Some (iq 0 0 ⊕ x0 ⊗ e0 ⊕ x1 ⊗ e3 ⊕ x2 ⊗ e2 ⊕ x3 ⊗ e1).
Proof. vm_compute. reflexivity. Qed.

End DftBins.

Lemma fft_small_mirrored (N : Z) (buf : list iq_t) :
  N = 1 ∨ N = 2 ∨ N = 4 → Z.of_nat (length buf) = N →
  ∃ e out,
    main_table N = Some e
    ∧ fft buf e N = Some out
    ∧ Z.of_nat (length out) = N
    ∧ ∀ i, 0 ≤ i < N →
        ∃ bin, spec_dft_bin buf N ((N / 2 - i) mod N) = Some bin
               ∧ get out i = Some bin.
Proof.
  intros [-> | [-> | ->]] Hlen.
  3: destruct buf
       as [|[[r0] [i0]] [|[[r1] [i1]] [|[[r2] [i2]] [|[[r3] [i3]] [|]]]]];
       try (cbn in Hlen; lia);
     eexists _, _; (split; [apply main_table_4|]);
     (split; [apply (fft_4_dataflow (C := iq_t))|]);
     (split; [reflexivity|]); intros i Hi;
     rewrite (spec_dft_bin_table _ _ 4 _ ltac:(lia)
                (spec_table 4 _ main_table_4));
     assert (i = 0 ∨ i = 1 ∨ i = 2 ∨ i = 3) as [-> | [-> | [-> | ->]]] by lia;
     [change ((4 / 2 - 0) mod 4) with 2 | change ((4 / 2 - 1) mod 4) with 1
     | change ((4 / 2 - 2) mod 4) with 0 | change ((4 / 2 - 3) mod 4) with 3];
     cbn [fmap list_fmap];
     rewrite ?dft_bin_4_0, ?dft_bin_4_1, ?dft_bin_4_2, ?dft_bin_4_3.
  2: destruct buf as [|[[r0] [i0]] [|[[r1] [i1]] [|]]];
       try (cbn in Hlen; lia);
     eexists _, _; (split; [apply main_table_2|]);
     (split; [apply (fft_2_dataflow (C := iq_t))|]);
     (split; [reflexivity|]); intros i Hi;
     rewrite (spec_dft_bin_table _ _ 2 _ ltac:(lia)
                (spec_table 2 _ main_table_2));
     assert (i = 0 ∨ i = 1) as [-> | ->] by lia;
     [change ((2 / 2 - 0) mod 2) with 1 | change ((2 / 2 - 1) mod 2) with 0];
     cbn [fmap list_fmap]; rewrite ?dft_bin_2_0, ?dft_bin_2_1.
  1: destruct buf as [|[[r0] [i0]] [|]]; try (cbn in Hlen; lia);
     eexists _, _; (split; [apply main_table_1|]);
     (split; [apply (fft_1_dataflow (C := iq_t))|]);
     (split; [reflexivity|]); intros i Hi;
     rewrite (spec_dft_bin_table _ _ 1 _ ltac:(lia)
                (spec_table 1 _ main_table_1));
     assert (i = 0) as -> by lia;
     change ((1 / 2 - 0) mod 1) with 0;
     cbn [fmap list_fmap]; rewrite dft_bin_1.
  all: (eexists; split; [|reflexivity]);
    cbn [num_add num_sub num_mul Complex.complex_numeric];
    unfold conjugate, Complex.add, Complex.sub, Complex.mul, iq;
    cbn [Complex.real Complex.imag sc_add sc_sub sc_mul Fixq15.fixq15_scalar
         Fixq15.value];
    unfold Fixq15.add, Fixq15.sub, Fixq15.mul; cbn [Fixq15.value];
    change (- 32768) with (-32768); change (- -32768) with 32768;
    change (- 0) with 0;
    rewrite ?shiftr_Q15, ?shiftr_neg_Q15, ?shiftr_zero;
    repeat match goal with
           | |- Some _ = Some _ => f_equal
           | |- Complex.Complex _ _ = Complex.Complex _ _ => f_equal
           | |- Fixq15.FixQ15 _ = Fixq15.FixQ15 _ => f_equal
           end;
    lia.
Qed.

(** X8. For [N] = 1, 2 and 4, on every buffer of [N] samples and with the
    table [main] builds for [N], [fft] returns the bins of the discrete
    Fourier transform of the buffer, taken with the kernel the spec
    words, [e^(-2 pi i n k / N)], but with the frequency axis mirrored:
    position [i] holds bin [(N / 2 - i) mod N], where the ascending
    order of the spec has bin [(i + N / 2) mod N]. The two orders agree
    at the positions [0] and [N / 2] only: the code multiplies by the
    conjugate kernel, [e^(+2 pi i k / N)]. *)
Theorem fft_is_the_mirrored_dft_up_to_size_4 (N : Z) (buf : list iq_t) :
  N = 1 ∨ N = 2 ∨ N = 4 → Z.of_nat (length buf) = N →
  ∃ e out,
    main_table N = Some e
    ∧ fft buf e N = Some out
    ∧ Z.of_nat (length out) = N
    ∧ ∀ i, 0 ≤ i < N →
        ∃ bin, spec_dft_bin buf N ((N / 2 - i) mod N) = Some bin
               ∧ get out i = Some bin.
Proof. apply fft_small_mirrored. Qed.

Lemma fft_is_the_mirrored_dft_up_to_size_4_witness :
  ∃ e out,
    main_table 4 = Some e
    ∧ fft [iq 256 0; iq 0 256; iq (-256) 0; iq 0 (-256)] e 4 = Some out
    ∧ Z.of_nat (length out) = 4
    ∧ ∀ i, 0 ≤ i < 4 →
        ∃ bin,
          spec_dft_bin [iq 256 0; iq 0 256; iq (-256) 0; iq 0 (-256)] 4
            ((4 / 2 - i) mod 4) = Some bin
          ∧ get out i = Some bin.
Proof.
  apply (fft_is_the_mirrored_dft_up_to_size_4 4
           [iq 256 0; iq 0 256; iq (-256) 0; iq 0 (-256)]);
    [right; right; reflexivity | reflexivity].
Defined.

(** The tone [x[n] = 256 i^n], one cycle in four samples at the
    frequency [+fs/4]: its transform with the kernel of the spec has the
    one bin 1. [fft] puts it at position 1, the place of bin 3, the
    frequency [-fs/4], in the ascending order. *)
Example fft_4_tone_is_mirrored :
  ∃ e out,
    main_table 4 = Some e
    ∧ fft [iq 256 0; iq 0 256; iq (-256) 0; iq 0 (-256)] e 4 = Some out
    ∧ out = [iq 0 0; iq 1024 0; iq 0 0; iq 0 0]
    ∧ spec_dft_bin [iq 256 0; iq 0 256; iq (-256) 0; iq 0 (-256)] 4 1
      = Some (iq 1024 0)
    ∧ spec_dft_bin [iq 256 0; iq 0 256; iq (-256) 0; iq 0 (-256)] 4
        ((1 + 4 / 2) mod 4)
      = Some (iq 0 0).
Proof.
  eexists _, _. split; [apply main_table_4|].
  split; [vm_compute; reflexivity|]. split; [reflexivity|].
  rewrite !(spec_dft_bin_table _ _ 4 _ ltac:(lia)
                (spec_table 4 _ main_table_4)).
  split; vm_compute; reflexivity.
Qed.

(** ** What the acquisition stage hands to the queue *)

Section ProducerQueue.
Context {Q : Type} `{RingBuffer Q (list iq_t)}.
Implicit Types (cfg : config) (src : list byte) (w : world) (orb : Q).

(** One block: the buffer of the block is offered to the queue. *)
Lemma producer_block_offer cfg pf src (offset : Z) w orb :
  0 ≤ fft_size cfg → 0 ≤ offset →
  offset + 2 * fft_size cfg ≤ Z.of_nat (length src) →
  ∃ w' orb',
    producer_block cfg pf src offset (w, orb) = Some (w', orb')
    ∧ fp w' = fp w ++ ((λ i, line_at src (offset + 2 * i))
                         <$> seqZ 0 (fft_size cfg))
    ∧ counter w' = counter w
    ∧ (err w', orb')
      = offer pf (err w, orb)
          ((λ i, sample_at src (offset + 2 * i)) <$> seqZ 0 (fft_size cfg)).
Proof.
  intros HF Hoff Hlen. unfold producer_block.
  rewrite bool_decide_eq_false_2 by lia.
  rewrite for_range_1, Z.sub_0_r. cbn [fst snd].
  pose proof (convert_loop_spec src offset (make_unique_iq (fft_size cfg)) [] w Hoff)
    as Hc.
  unfold make_unique_iq in *. cbn [length app] in Hc.
  rewrite length_replicate, Z2Nat.id in Hc by done.
  change (Z.of_nat 0) with 0 in Hc. rewrite Hc by lia.
  cbn [mbind option_bind fst snd]. unfold offer. cbn [fst snd].
  destruct (rb_write orb _) as [st orb'].
  eexists _, orb'. split; [reflexivity|].
  case_bool_decide; cbn; rewrite <- ?app_assoc; done.
Qed.

Lemma producer_blocks_offer cfg pf src (F : Z) (ks : list Z) :
  fft_size cfg = F → 0 ≤ F →
  (∀ k, k ∈ ks → 0 ≤ k ∧ k * (2 * F) + 2 * F ≤ Z.of_nat (length src)) →
  ∀ w orb,
  ∃ w' orb',
    fold_opt (producer_block cfg pf src) ((λ k, 0 + k * (2 * F)) <$> ks) (w, orb)
    = Some (w', orb')
    ∧ counter w' = counter w
    ∧ (err w', orb') = foldl (offer pf) (err w, orb) (block_at src F <$> ks).
Proof.
  intros HF HF0. induction ks as [|k ks IH]; intros Hks w orb.
  - exists w, orb. done.
  - rewrite !fmap_cons. cbn [fold_opt foldl].
    destruct (Hks k ltac:(apply list_elem_of_here)) as [Hk0 Hk1].
    destruct (producer_block_offer cfg pf src (0 + k * (2 * F)) w orb)
      as (w1 & orb1 & -> & _ & Hc1 & Ho1); [lia | nia | rewrite HF; lia |].
    cbn [mbind option_bind].
    destruct (IH ltac:(intros k' Hk'; apply Hks; by apply list_elem_of_further)
                 w1 orb1) as (w2 & orb2 & -> & Hc2 & Ho2).
    exists w2, orb2. split; [done|]. split; [congruence|].
    rewrite Ho2, Ho1, HF. do 2 f_equal. unfold block_at.
    apply list_fmap_ext. intros _ i _. f_equal. lia.
Qed.

Lemma producer_full_read_offers cfg pf (dev : read_sync) w orb (j : nat) :
  fft_size cfg = 2 ^ Z.of_nat j → (j ≤ 13)%nat →
  sync_status dev = 0 → sync_n_read dev = IQBUF_SIZE →
  Z.of_nat (length (sync_bytes dev)) = IQBUF_SIZE →
  IDLE_LOOPS_NUM ≤ counter w →
  ∃ w' orb',
    producer cfg pf dev w orb = Some (true, w', orb')
    ∧ counter w' = Mach.to_size (counter w + 1)
    ∧ (err w', orb')
      = foldl (offer pf) (err w, orb)
          (block_at (sync_bytes dev) (2 ^ Z.of_nat j)
             <$> seqZ 0 (2 ^ Z.of_nat (13 - j))).
Proof.
  intros HF Hj Hs Hn Hlen Hc. unfold producer.
  rewrite bool_decide_eq_false_2 by (intros ?; done).
  rewrite Hn. rewrite bool_decide_eq_false_2 by (intros E; apply E; done).
  rewrite bool_decide_eq_false_2 by lia.
  set (F := 2 ^ Z.of_nat j) in *.
  set (K := 2 ^ Z.of_nat (13 - j)).
  assert (HFpos : 0 < F) by apply pow2_pos.
  assert (HKpos : 0 < K) by apply pow2_pos.
  assert (HKF : K * F = 8192).
  { unfold K, F. rewrite <- Z.pow_add_r by lia.
    replace (Z.of_nat (13 - j) + Z.of_nat j) with 13 by lia. done. }
  assert (HFle : F ≤ 8192) by nia.
  rewrite HF. rewrite to_int_small by lia. rewrite to_size_small by lia.
  rewrite for_range_indices by lia. unfold loop_indices.
  replace ((IQBUF_SIZE - 0 + F * 2 - 1) / (F * 2)) with K.
  2:{ change IQBUF_SIZE with (8192 * 2). rewrite <- HKF.
      replace (K * F * 2 - 0 + F * 2 - 1) with (K * (F * 2) + (F * 2 - 1)) by lia.
      rewrite Z.div_add_l by lia. rewrite (Z.div_small (F * 2 - 1)) by lia. lia. }
  replace (F * 2) with (2 * F) by lia.
  set (w1 := World (fp w) (err w) (Mach.to_size (counter w + 1))).
  destruct (producer_blocks_offer cfg pf (sync_bytes dev) F (seqZ 0 K) HF ltac:(lia))
    with (w := w1) (orb := orb) as (w' & orb' & Hrun & Hcnt & Hoff).
  { intros k Hk%elem_of_seqZ. rewrite Hlen.
    change IQBUF_SIZE with (8192 * 2). nia. }
  rewrite Hrun. cbn [mbind option_bind fst snd].
  exists w', orb'. split; [done|]. split; [done|]. exact Hoff.
Qed.

(** A queue that refuses whatever it is offered. *)
Lemma foldl_offer_refused (pf : string) orb (st : Z)
    (bufs : list (list iq_t)) :
  (∀ buf, rb_write orb buf = (st, orb)) → st ≠ 1 →
  ∀ errs,
    foldl (offer pf) (errs, orb) bufs
    = (errs ++ concat (replicate (length bufs)
                         [pf +:+ ": orb->write() failed"; rb_to_string orb]),
       orb).
Proof.
  intros Hw Hst. induction bufs as [|b bufs IH]; intros errs.
  - cbn. by rewrite app_nil_r.
  - cbn [foldl length replicate concat]. unfold offer at 2. cbn [fst snd].
    rewrite Hw, bool_decide_eq_true_2 by done. rewrite IH.
    by rewrite <- !app_assoc.
Qed.

End ProducerQueue.

Lemma sample_at_range (src : list byte) (p : Z) (re im : Z) :
  sample_at src p = iq re im →
  (-32512 ≤ re ≤ 32768 ∧ re mod 256 = 0)
  ∧ (-32512 ≤ im ≤ 32768 ∧ im mod 256 = 0).
Proof.
  unfold sample_at. intros [= <- <-].
  assert (Hu : ∀ b, 0 ≤ u8 b ≤ 255).
  { intros b. unfold u8. pose proof (Byte.to_N_bounded b). lia. }
  pose proof (Hu (byte_at src p)). pose proof (Hu (byte_at src (p + 1))).
  rewrite !Z.mod_mul by lia. lia.
Qed.

(** The bounded queue: what fits is appended, what does not is dropped
    with its two lines, the second the text of the full queue. *)
Lemma foldl_offer_open `{QueueText (list iq_t)} (pf : string)
    (bufs : list (list iq_t)) :
  ∀ (errs : list string) (items : list (list iq_t)) (cap : nat),
    (length items ≤ cap)%nat →
    foldl (offer pf) (errs, BoundedQueue items cap false) bufs
    = (errs ++ concat (replicate (length bufs - (cap - length items))
                         [pf +:+ ": orb->write() failed";
                          queue_text
                            (BoundedQueue
                               (items ++ take (cap - length items) bufs)
                               cap false)]),
       BoundedQueue (items ++ take (cap - length items) bufs) cap false).
Proof.
  induction bufs as [|b bufs IH]; intros errs items cap Hcap.
  - cbn. by rewrite take_nil, !app_nil_r.
  - cbn [foldl]. unfold offer at 2. cbn [fst snd rb_write bounded_queue_ring].
    unfold bq_write. cbn [bq_closed bq_capacity bq_items].
    case_bool_decide as Hfull.
    + rewrite bool_decide_eq_true_2 by done.
      cbn [rb_to_string bounded_queue_ring].
      assert (E : length items = cap) by lia.
      rewrite IH by done. rewrite E, Nat.sub_diag, !take_0, Nat.sub_0_r.
      cbn [length replicate concat]. by rewrite !app_nil_r, <- !app_assoc.
    + rewrite bool_decide_eq_false_2 by (intros E; by apply E).
      rewrite IH by (rewrite length_app; cbn; lia).
      rewrite length_app. cbn [length].
      replace (cap - length items)%nat with (S (cap - (length items + 1)))
        by lia.
      cbn [take]. rewrite <- app_assoc. cbn [app].
      done.
Qed.

Lemma block_at_get (src : list byte) (F k i : Z) :
  0 ≤ i < F → get (block_at src F k) i = Some (sample_at src (2 * (k * F + i))).
Proof.
  intros Hi. unfold get, block_at. rewrite bool_decide_eq_true_2 by lia.
  rewrite list_lookup_fmap, lookup_seqZ_lt by lia. cbn.
  rewrite Z2Nat.id by lia. done.
Qed.

Lemma block_at_length (src : list byte) (F k : Z) :
  0 ≤ F → Z.of_nat (length (block_at src F k)) = F.
Proof. intros HF. unfold block_at. rewrite length_fmap, length_seqZ. lia. Qed.

(** X11. On a full read, past its idle call and with a transform size
    [F = 2^j] up to 8192, the acquisition stage cuts the raw block into
    [16384 / (2 F)] buffers of [F] samples and offers them to its queue
    one after the other, in the order of the block, whatever the queue
    answers; each answer other than 1 costs two lines on [stderr], the
    text of [__PRETTY_FUNCTION__] followed by [: orb->write() failed],
    then what [to_string()] of the queue gives. Sample
    [i] of buffer [k] has the parts [(byte - 127) * 256] of the bytes at
    [2 (k F + i)] and the next, between -32512 and 32768. *)
Theorem producer_offers_blocks_in_order {Q : Type} `{RingBuffer Q (list iq_t)}
    (cfg : config) (pf : string) (dev : read_sync) (w : world) (orb : Q) (j : nat) :
  fft_size cfg = 2 ^ Z.of_nat j → (j ≤ 13)%nat →
  sync_status dev = 0 → sync_n_read dev = IQBUF_SIZE →
  Z.of_nat (length (sync_bytes dev)) = IQBUF_SIZE →
  IDLE_LOOPS_NUM ≤ counter w →
  ∃ w' orb',
    producer cfg pf dev w orb = Some (true, w', orb')
    ∧ (err w', orb')
      = foldl (offer pf) (err w, orb)
          (block_at (sync_bytes dev) (2 ^ Z.of_nat j)
             <$> seqZ 0 (IQBUF_SIZE / (2 * 2 ^ Z.of_nat j)))
    ∧ ∀ k i re im,
        0 ≤ i < 2 ^ Z.of_nat j →
        get (block_at (sync_bytes dev) (2 ^ Z.of_nat j) k) i = Some (iq re im) →
        re = (u8 (byte_at (sync_bytes dev) (2 * (k * 2 ^ Z.of_nat j + i))) - 127)
             * 256
        ∧ im = (u8 (byte_at (sync_bytes dev)
                      (2 * (k * 2 ^ Z.of_nat j + i) + 1)) - 127) * 256
        ∧ -32512 ≤ re ≤ 32768 ∧ -32512 ≤ im ≤ 32768.
Proof.
  intros HF Hj Hs Hn Hlen Hc.
  destruct (producer_full_read_offers cfg pf dev w orb j HF Hj Hs Hn Hlen Hc)
    as (w' & orb' & Hrun & _ & Hoff).
  exists w', orb'. split; [done|]. split.
  - rewrite Hoff. do 3 f_equal.
    change IQBUF_SIZE with (2 ^ 14). rewrite <- (Z.pow_succ_r 2) by lia.
    rewrite <- Z.pow_sub_r by lia. f_equal. lia.
  - intros k i re im Hi Hg. rewrite block_at_get in Hg by done.
    assert (Hg' : sample_at (sync_bytes dev) (2 * (k * 2 ^ Z.of_nat j + i))
                  = iq re im) by congruence.
    pose proof (sample_at_range _ _ _ _ Hg') as Hr.
    unfold sample_at in Hg'. injection Hg' as <- <-. lia.
Qed.

Lemma producer_offers_blocks_in_order_witness :
  ∃ w' orb',
    producer (Sample.cfg 2048) Sample.pretty_function Sample.full_read Sample.w1 Sample.empty_queue
    = Some (true, w', orb')
    ∧ (err w', orb')
      = foldl (offer Sample.pretty_function) (err Sample.w1, Sample.empty_queue)
          (block_at (sync_bytes Sample.full_read) (2 ^ Z.of_nat 11)
             <$> seqZ 0 (IQBUF_SIZE / (2 * 2 ^ Z.of_nat 11)))
    ∧ ∀ k i re im,
        0 ≤ i < 2 ^ Z.of_nat 11 →
        get (block_at (sync_bytes Sample.full_read) (2 ^ Z.of_nat 11) k) i
        = Some (iq re im) →
        re = (u8 (byte_at (sync_bytes Sample.full_read)
                    (2 * (k * 2 ^ Z.of_nat 11 + i))) - 127) * 256
        ∧ im = (u8 (byte_at (sync_bytes Sample.full_read)
                      (2 * (k * 2 ^ Z.of_nat 11 + i) + 1)) - 127) * 256
        ∧ -32512 ≤ re ≤ 32768 ∧ -32512 ≤ im ≤ 32768.
Proof.
  apply (producer_offers_blocks_in_order (Sample.cfg 2048) Sample.pretty_function Sample.full_read
           Sample.w1 Sample.empty_queue 11);
    [reflexivity | lia | reflexivity | reflexivity | vm_compute; reflexivity
    | vm_compute; discriminate].
Defined.

Lemma producer_into_open_queue `{QueueText (list iq_t)}
    (cfg : config) (pf : string) (dev : read_sync) (w : world)
    (items : list (list iq_t)) (cap : nat) (j : nat) :
  fft_size cfg = 2 ^ Z.of_nat j → (j ≤ 13)%nat →
  sync_status dev = 0 → sync_n_read dev = IQBUF_SIZE →
  Z.of_nat (length (sync_bytes dev)) = IQBUF_SIZE →
  IDLE_LOOPS_NUM ≤ counter w →
  (length items ≤ cap)%nat →
  ∃ w',
    producer cfg pf dev w (BoundedQueue items cap false)
    = Some (true, w',
            BoundedQueue
              (items ++ take (cap - length items)
                          (block_at (sync_bytes dev) (2 ^ Z.of_nat j)
                             <$> seqZ 0 (2 ^ Z.of_nat (13 - j))))
              cap false)
    ∧ err w'
      = err w ++ concat (replicate (2 ^ (13 - j) - (cap - length items))
                           [pf +:+ ": orb->write() failed";
                            queue_text
                              (BoundedQueue
                                 (items ++ take (cap - length items)
                                    (block_at (sync_bytes dev) (2 ^ Z.of_nat j)
                                       <$> seqZ 0 (2 ^ Z.of_nat (13 - j))))
                                 cap false)]).
Proof.
  intros HF Hj Hs Hn Hlen Hc Hcap.
  destruct (producer_full_read_offers cfg pf dev w (BoundedQueue items cap false)
              j HF Hj Hs Hn Hlen Hc) as (w' & orb' & Hrun & _ & Hoff).
  rewrite foldl_offer_open in Hoff by done.
  injection Hoff as He Ho. exists w'. rewrite Hrun, Ho, He. split; [done|].
  rewrite length_fmap, length_seqZ. do 4 f_equal.
  rewrite <- (Nat2Z.id (2 ^ (13 - j))). f_equal.
  by rewrite Nat2Z.inj_pow.
Qed.

(** X12. The same call on the bounded queue, open and holding [items]:
    the buffers are appended in order as long as there is room, and the
    buffers that find the queue full are dropped, each with the two
    lines on [stderr] (the text of [__PRETTY_FUNCTION__] followed by
    [: orb->write() failed], then what [to_string()] gives for the full
    queue, both texts left open); the stage returns [true] in both
    cases, it never waits for room. *)
Theorem producer_fills_queue_and_drops_the_rest `{QueueText (list iq_t)}
    (cfg : config) (pf : string) (dev : read_sync) (w : world)
    (items : list (list iq_t)) (cap : nat) (j : nat) :
  fft_size cfg = 2 ^ Z.of_nat j → (j ≤ 13)%nat →
  sync_status dev = 0 → sync_n_read dev = IQBUF_SIZE →
  Z.of_nat (length (sync_bytes dev)) = IQBUF_SIZE →
  IDLE_LOOPS_NUM ≤ counter w →
  (length items ≤ cap)%nat →
  ∃ w',
    producer cfg pf dev w (BoundedQueue items cap false)
    = Some (true, w',
            BoundedQueue
              (items ++ take (cap - length items)
                          (block_at (sync_bytes dev) (2 ^ Z.of_nat j)
                             <$> seqZ 0 (2 ^ Z.of_nat (13 - j))))
              cap false)
    ∧ err w'
      = err w ++ concat (replicate (2 ^ (13 - j) - (cap - length items))
                           [pf +:+ ": orb->write() failed";
                            queue_text
                              (BoundedQueue
                                 (items ++ take (cap - length items)
                                    (block_at (sync_bytes dev) (2 ^ Z.of_nat j)
                                       <$> seqZ 0 (2 ^ Z.of_nat (13 - j))))
                                 cap false)]).
Proof. apply producer_into_open_queue. Qed.

Lemma producer_fills_queue_and_drops_the_rest_witness :
  ∃ w',
    producer (Sample.cfg 2048) Sample.pretty_function Sample.full_read Sample.w1
      (BoundedQueue [] 3 false)
    = Some (true, w',
            BoundedQueue
              ([] ++ take (3 - length (@nil (list iq_t)))
                       (block_at (sync_bytes Sample.full_read) (2 ^ Z.of_nat 11)
                          <$> seqZ 0 (2 ^ Z.of_nat (13 - 11))))
              3 false)
    ∧ err w'
      = err Sample.w1
        ++ concat (replicate (2 ^ (13 - 11) - (3 - length (@nil (list iq_t))))
                     [Sample.pretty_function +:+ ": orb->write() failed";
                      queue_text
                        (BoundedQueue
                           ([] ++ take (3 - length (@nil (list iq_t)))
                                    (block_at (sync_bytes Sample.full_read)
                                       (2 ^ Z.of_nat 11)
                                       <$> seqZ 0 (2 ^ Z.of_nat (13 - 11))))
                           3 false)]).
Proof.
  apply (producer_fills_queue_and_drops_the_rest (Sample.cfg 2048) Sample.pretty_function
           Sample.full_read Sample.w1 [] 3 11);
    [reflexivity | lia | reflexivity | reflexivity | vm_compute; reflexivity
    | vm_compute; discriminate | cbn; lia].
Defined.

Lemma producer_refused {Q : Type} `{RingBuffer Q (list iq_t)}
    (cfg : config) (pf : string) (dev : read_sync) (w : world) (orb : Q) (j : nat) (st : Z) :
  fft_size cfg = 2 ^ Z.of_nat j → (j ≤ 13)%nat →
  sync_status dev = 0 → sync_n_read dev = IQBUF_SIZE →
  Z.of_nat (length (sync_bytes dev)) = IQBUF_SIZE →
  IDLE_LOOPS_NUM ≤ counter w →
  (∀ buf, rb_write orb buf = (st, orb)) → st ≠ 1 →
  ∃ w',
    producer cfg pf dev w orb = Some (true, w', orb)
    ∧ fp w' = fp w ++ ((λ n, line_at (sync_bytes dev) (2 * n))
                         <$> seqZ 0 (IQBUF_SIZE / 2))
    ∧ err w'
      = err w ++ concat (replicate (2 ^ (13 - j))
                           [pf +:+ ": orb->write() failed"; rb_to_string orb]).
Proof.
  intros HF Hj Hs Hn Hlen Hc Hw Hst.
  destruct (producer_full_read_offers cfg pf dev w orb j HF Hj Hs Hn Hlen Hc)
    as (w' & orb' & Hrun & _ & Hoff).
  destruct (producer_full_read cfg pf dev w orb j HF Hj Hs Hn Hlen Hc)
    as (w2 & orb2 & Hrun2 & Hfp).
  rewrite Hrun in Hrun2. injection Hrun2 as <- <-.
  rewrite (foldl_offer_refused pf orb st) in Hoff by done.
  injection Hoff as He Ho. exists w'. rewrite Hrun, Ho, He.
  split; [done|]. split; [done|].
  rewrite length_fmap, length_seqZ. do 3 f_equal.
  rewrite <- (Nat2Z.id (2 ^ (13 - j))). f_equal.
  by rewrite Nat2Z.inj_pow.
Qed.

(** X13. A queue that refuses every write (a closed one, say) does not
    stop the acquisition stage: on a full read it still writes every
    sample to the output file and returns [true]; all the buffers of the
    block are lost, and [stderr] receives the two lines of a failed write
    once per buffer: the text of [__PRETTY_FUNCTION__] followed by
    [: orb->write() failed], then what [to_string()] of the queue
    gives. *)
Theorem producer_returns_true_when_queue_refuses
    {Q : Type} `{RingBuffer Q (list iq_t)}
    (cfg : config) (pf : string) (dev : read_sync) (w : world) (orb : Q) (j : nat) (st : Z) :
  fft_size cfg = 2 ^ Z.of_nat j → (j ≤ 13)%nat →
  sync_status dev = 0 → sync_n_read dev = IQBUF_SIZE →
  Z.of_nat (length (sync_bytes dev)) = IQBUF_SIZE →
  IDLE_LOOPS_NUM ≤ counter w →
  (∀ buf, rb_write orb buf = (st, orb)) → st ≠ 1 →
  ∃ w',
    producer cfg pf dev w orb = Some (true, w', orb)
    ∧ fp w' = fp w ++ ((λ n, line_at (sync_bytes dev) (2 * n))
                         <$> seqZ 0 (IQBUF_SIZE / 2))
    ∧ err w'
      = err w ++ concat (replicate (2 ^ (13 - j))
                           [pf +:+ ": orb->write() failed"; rb_to_string orb]).
Proof. apply producer_refused. Qed.

Lemma producer_returns_true_when_queue_refuses_witness :
  ∃ w',
    producer (Sample.cfg 2048) Sample.pretty_function Sample.full_read Sample.w1
      (BoundedQueue [] 42 true)
    = Some (true, w', BoundedQueue [] 42 true)
    ∧ fp w' = fp Sample.w1 ++ ((λ n, line_at (sync_bytes Sample.full_read) (2 * n))
                                 <$> seqZ 0 (IQBUF_SIZE / 2))
    ∧ err w'
      = err Sample.w1
        ++ concat (replicate (2 ^ (13 - 11))
                     [Sample.pretty_function +:+ ": orb->write() failed";
                      rb_to_string (BoundedQueue (@nil (list iq_t)) 42 true)]).
Proof.
  apply (producer_returns_true_when_queue_refuses (Sample.cfg 2048) Sample.pretty_function
           Sample.full_read Sample.w1 (BoundedQueue [] 42 true) 11 (-1));
    [reflexivity | lia | reflexivity | reflexivity | vm_compute; reflexivity
    | vm_compute; discriminate | reflexivity | lia].
Defined.

(** ** The two stages, one after the other *)

Lemma acquisition_then_analysis `{QueueText (list iq_t)}
    (cfg : config) (pf : string) (dev : read_sync) (w : world)
    (e : list iq_t) (cap : nat) (j : nat) :
  fft_size cfg = 2 ^ Z.of_nat j → (j ≤ 13)%nat →
  sync_status dev = 0 → sync_n_read dev = IQBUF_SIZE →
  Z.of_nat (length (sync_bytes dev)) = IQBUF_SIZE →
  IDLE_LOOPS_NUM ≤ counter w →
  (1 ≤ cap)%nat →
  2 ^ Z.of_nat j ≤ 2 * Z.of_nat (length e) →
  ∃ w' rest out,
    producer cfg pf dev w (BoundedQueue [] cap false)
    = Some (true, w',
            BoundedQueue
              (block_at (sync_bytes dev) (2 ^ Z.of_nat j) 0 :: rest) cap false)
    ∧ fft_stage cfg e w'
        (BoundedQueue
           (block_at (sync_bytes dev) (2 ^ Z.of_nat j) 0 :: rest) cap false)
      = Some (true, w', BoundedQueue rest cap false)
    ∧ (iq1 ← remove_dc (block_at (sync_bytes dev) (2 ^ Z.of_nat j) 0)
               (2 ^ Z.of_nat j);
       fft iq1 e (2 ^ Z.of_nat j)) = Some out
    ∧ Z.of_nat (length out) = 2 ^ Z.of_nat j.
Proof.
  intros HF Hj Hs Hn Hlen Hc Hcap He.
  destruct (producer_into_open_queue cfg pf dev w [] cap j HF Hj Hs Hn Hlen Hc)
    as (w' & Hrun & _); [cbn; lia|].
  pose proof (pow2_pos j) as HFpos. pose proof (pow2_pos (13 - j)) as HKpos.
  rewrite seqZ_cons in Hrun by lia. cbn [length app fmap list_fmap] in Hrun.
  rewrite Nat.sub_0_r in Hrun.
  destruct cap as [|cap]; [lia|]. cbn [take] in Hrun.
  set (b := block_at (sync_bytes dev) (2 ^ Z.of_nat j) 0) in *.
  set (rest := take cap _) in *.
  assert (Hb : Z.of_nat (length b) = fft_size cfg).
  { unfold b. rewrite block_at_length; lia. }
  destruct (fft_stage_processes cfg e w'
              (BoundedQueue (b :: rest) (S cap) false) j b
              (BoundedQueue rest (S cap) false) HF ltac:(lia)
              He eq_refl Hb)
    as (iq1 & iq2 & Hdc & Hfft & Hl2 & Hst).
  exists w', rest, iq2. split; [exact Hrun|].
  rewrite Hst. unfold print_fft. split; [done|].
  rewrite <- HF, Hdc. cbn [mbind option_bind]. split; [exact Hfft|].
  rewrite Hl2, Hb. done.
Qed.

(** X14. The two stages fit. With a transform size [F = 2^j] up to 8192,
    a table of at least [F / 2] entries (the one [main] builds has [F])
    and an empty open queue of capacity at least 1, a full read makes the
    acquisition stage queue buffer 0 of the block first, and the
    analysis stage then takes exactly that buffer off the queue, runs
    [remove_dc] and [fft] on it without leaving the buffer or the table,
    and returns [true], the streams untouched. *)
Theorem acquisition_feeds_analysis `{QueueText (list iq_t)}
    (cfg : config) (pf : string) (dev : read_sync) (w : world)
    (e : list iq_t) (cap : nat) (j : nat) :
  fft_size cfg = 2 ^ Z.of_nat j → (j ≤ 13)%nat →
  sync_status dev = 0 → sync_n_read dev = IQBUF_SIZE →
  Z.of_nat (length (sync_bytes dev)) = IQBUF_SIZE →
  IDLE_LOOPS_NUM ≤ counter w →
  (1 ≤ cap)%nat →
  2 ^ Z.of_nat j ≤ 2 * Z.of_nat (length e) →
  ∃ w' rest out,
    producer cfg pf dev w (BoundedQueue [] cap false)
    = Some (true, w',
            BoundedQueue
              (block_at (sync_bytes dev) (2 ^ Z.of_nat j) 0 :: rest) cap false)
    ∧ fft_stage cfg e w'
        (BoundedQueue
           (block_at (sync_bytes dev) (2 ^ Z.of_nat j) 0 :: rest) cap false)
      = Some (true, w', BoundedQueue rest cap false)
    ∧ (iq1 ← remove_dc (block_at (sync_bytes dev) (2 ^ Z.of_nat j) 0)
               (2 ^ Z.of_nat j);
       fft iq1 e (2 ^ Z.of_nat j)) = Some out
    ∧ Z.of_nat (length out) = 2 ^ Z.of_nat j.
Proof. apply acquisition_then_analysis. Qed.

Lemma acquisition_feeds_analysis_witness :
  ∃ w' rest out,
    producer (Sample.cfg 4) Sample.pretty_function Sample.full_read Sample.w1 (BoundedQueue [] 42 false)
    = Some (true, w',
            BoundedQueue
              (block_at (sync_bytes Sample.full_read) (2 ^ Z.of_nat 2) 0 :: rest)
              42 false)
    ∧ fft_stage (Sample.cfg 4) Sample.e4 w'
        (BoundedQueue
           (block_at (sync_bytes Sample.full_read) (2 ^ Z.of_nat 2) 0 :: rest)
           42 false)
      = Some (true, w', BoundedQueue rest 42 false)
    ∧ (iq1 ← remove_dc (block_at (sync_bytes Sample.full_read) (2 ^ Z.of_nat 2) 0)
               (2 ^ Z.of_nat 2);
       fft iq1 Sample.e4 (2 ^ Z.of_nat 2)) = Some out
    ∧ Z.of_nat (length out) = 2 ^ Z.of_nat 2.
Proof.
  apply (acquisition_feeds_analysis (Sample.cfg 4) Sample.pretty_function Sample.full_read Sample.w1
           Sample.e4 42 2);
    [reflexivity | lia | reflexivity | reflexivity | vm_compute; reflexivity
    | vm_compute; discriminate | lia | vm_compute; discriminate].
Defined.

(** ** The sizes main lets through *)

Lemma land_pred_zero_inv (x : Z) :
  Z.land x (x - 1) = 0 → 0 ≤ x ≤ FFT_SIZE_MAX →
  x = 0 ∨ ∃ k : nat, (k ≤ 13)%nat ∧ x = 2 ^ Z.of_nat k.
Proof.
  intros Hland Hx. destruct (decide (x = 0)) as [|Hne]; [by left|]. right.
  assert (Hpos : 0 < x) by lia.
  destruct (decide (x = 2 ^ Z.log2 x)) as [E|E].
  - exists (Z.to_nat (Z.log2 x)). pose proof (Z.log2_nonneg x).
    rewrite Z2Nat.id by done. split; [|done].
    assert (Z.log2 x ≤ Z.log2 FFT_SIZE_MAX) by (apply Z.log2_le_mono; lia).
    change (Z.log2 FFT_SIZE_MAX) with 13 in *. lia.
  - exfalso. revert Hland. apply land_pred_positive; [done|].
    intros k ->. apply E. by rewrite Z.log2_pow2 by lia.
Qed.

Lemma main_starts_exactly (cfg : config) (env : environment) :
  Mach.INT_MIN < fft_size cfg ≤ Mach.INT_MAX →
  (∃ t, main cfg env = Pipeline_started cfg t)
  ↔ fopen_ok env = true
    ∧ frequency cfg ≠ 0
    ∧ (fft_size cfg = 0
       ∨ ∃ k : nat, (k ≤ 13)%nat ∧ fft_size cfg = 2 ^ Z.of_nat k)
    ∧ 0 ≤ device_index env ∧ 0 ≤ open_status env
    ∧ gain_status env = 0 ∧ reset_status env = 0
    ∧ freq_status env = 0 ∧ rate_status env = 0.
Proof.
  intros Hr.
  unfold Mach.INT_MIN, Mach.INT_MAX, Mach.int_bits in Hr.
  change (32 - 1) with 31 in Hr.
  split.
  - intros [t Hm]. unfold main in Hm.
    destruct (fopen_ok env); cbn [negb] in Hm; [|done].
    rewrite to_int_small in Hm by lia.
    repeat (case_bool_decide; [done|]).
    split; [done|]. split; [done|]. split; [|lia].
    apply land_pred_zero_inv; [lia|].
    split; [|lia]. destruct (decide (0 ≤ fft_size cfg)); [done|].
    exfalso. pose proof (land_pred_negative (fft_size cfg) ltac:(lia)). lia.
  - intros (Hfo & Hfr & Hsz & Hd & Ho & Hg & Hre & Hfq & Hra).
    destruct Hsz as [H0 | (k & Hk & Hp)].
    + eexists. unfold main. rewrite Hfo. cbn [negb]. rewrite H0.
      change (Z.land 0 (Mach.to_int (0 - 1))) with 0.
      rewrite !bool_decide_eq_false_2
        by (lia || done || (intros E; apply E; done)).
      done.
    + eexists. by apply (main_accepts_pow2 cfg env k).
Qed.

(** X15. For a size that fits an [int] (and is not [INT_MIN]), [main]
    reaches the start of the pipeline exactly when the output file
    opened, a frequency was given, the size is 0 or a power of two up to
    8192, a device was found and opened, and the four settings of the
    device succeeded. *)
Theorem main_starts_pipeline_iff (cfg : config) (env : environment) :
  Mach.INT_MIN < fft_size cfg ≤ Mach.INT_MAX →
  (∃ t, main cfg env = Pipeline_started cfg t)
  ↔ fopen_ok env = true
    ∧ frequency cfg ≠ 0
    ∧ (fft_size cfg = 0
       ∨ ∃ k : nat, (k ≤ 13)%nat ∧ fft_size cfg = 2 ^ Z.of_nat k)
    ∧ 0 ≤ device_index env ∧ 0 ≤ open_status env
    ∧ gain_status env = 0 ∧ reset_status env = 0
    ∧ freq_status env = 0 ∧ rate_status env = 0.
Proof. apply main_starts_exactly. Qed.

Lemma main_starts_pipeline_iff_witness :
  (∃ t, main (Sample.cfg 2048) Sample.env_ok
        = Pipeline_started (Sample.cfg 2048) t)
  ↔ fopen_ok Sample.env_ok = true
    ∧ frequency (Sample.cfg 2048) ≠ 0
    ∧ (fft_size (Sample.cfg 2048) = 0
       ∨ ∃ k : nat, (k ≤ 13)%nat ∧ fft_size (Sample.cfg 2048) = 2 ^ Z.of_nat k)
    ∧ 0 ≤ device_index Sample.env_ok ∧ 0 ≤ open_status Sample.env_ok
    ∧ gain_status Sample.env_ok = 0 ∧ reset_status Sample.env_ok = 0
    ∧ freq_status Sample.env_ok = 0 ∧ rate_status Sample.env_ok = 0.
Proof.
  apply (main_starts_pipeline_iff (Sample.cfg 2048) Sample.env_ok).
  vm_compute. split; [reflexivity | discriminate].
Defined.

(** X16. A size that is neither 0 nor a power of two, or that is above
    8192, makes [main] exit before the first call to the device library:
    at the open of the output file, the usage check, or one of the two
    size checks. *)
Theorem main_rejects_size_before_device (cfg : config) (env : environment) :
  Mach.INT_MIN < fft_size cfg ≤ Mach.INT_MAX →
  fft_size cfg ≠ 0 →
  (∀ k : nat, fft_size cfg ≠ 2 ^ Z.of_nat k) ∨ FFT_SIZE_MAX < fft_size cfg →
  ∃ site, main cfg env = Exit_failure site ∧ before_device site = true.
Proof. apply main_rejects. Qed.

Lemma main_rejects_size_before_device_witness :
  ∃ site, main (Sample.cfg 16384) Sample.env_ok = Exit_failure site
          ∧ before_device site = true.
Proof.
  apply (main_rejects_size_before_device (Sample.cfg 16384) Sample.env_ok);
    [vm_compute; split; [reflexivity | discriminate]
    | discriminate
    | right; vm_compute; reflexivity].
Defined.

(** ** The search for a device *)

Section DeviceSearch.
Implicit Types (s serial t : string) (devs : list device) (d : device).

Lemma string_app_cons (c : Ascii.ascii) s t :
  String c s +:+ t = String c (s +:+ t).
Proof. reflexivity. Qed.

Lemma string_length_app s t :
  String.length (s +:+ t) = (String.length s + String.length t)%nat.
Proof. induction s as [|c s IH]; simpl; [done | by f_equal]. Qed.

Lemma string_app_nil_r s : s +:+ "" = s.
Proof.
  induction s as [|c s IH]; [done|]. by rewrite string_app_cons, IH.
Qed.

(** [strncmp(s, serial, strlen(s)) == 0]: [serial] starts with [s]. *)
Lemma prefix_match_spec s serial :
  prefix_match s serial = true ↔ ∃ t, serial = s +:+ t.
Proof.
  unfold prefix_match. revert serial.
  induction s as [|c s IH]; intros serial; cbn.
  - split; [by exists serial | done].
  - destruct serial as [|c' serial].
    + split; [done | by intros [t ?]].
    + destruct (Ascii.eqb_spec c c') as [->|Hne].
      * rewrite IH. split; intros [t E]; exists t.
        -- by rewrite string_app_cons, E.
        -- rewrite string_app_cons in E. congruence.
      * split; [done|]. intros [t E]. rewrite string_app_cons in E.
        congruence.
Qed.

Lemma exact_match_spec s serial : exact_match s serial = true ↔ serial = s.
Proof.
  unfold exact_match, strcmp_eq. rewrite String.eqb_eq. split; congruence.
Qed.

Lemma string_drop_app t s : string_drop (String.length t) (t +:+ s) = s.
Proof.
  induction t as [|c t IH]; [done|]. rewrite string_app_cons. exact IH.
Qed.

Lemma string_drop_split (n : nat) : ∀ serial,
  (n ≤ String.length serial)%nat →
  ∃ t, serial = t +:+ string_drop n serial ∧ String.length t = n.
Proof.
  induction n as [|n IH]; intros serial Hn.
  - by exists "".
  - destruct serial as [|c serial]; cbn in Hn; [lia|].
    destruct (IH serial ltac:(lia)) as (t & E & L).
    exists (String c t). rewrite string_app_cons. cbn.
    split; [by rewrite <- E | by rewrite L].
Qed.

(** The test of the third loop: [serial] ends with [s]. *)
Lemma suffix_match_spec s serial :
  Z.of_nat (String.length s) < 2 ^ 31 →
  Z.of_nat (String.length serial) < 2 ^ 31 →
  suffix_match s serial = true ↔ ∃ t, serial = t +:+ s.
Proof.
  intros Hs Hserial. unfold suffix_match.
  rewrite to_int_small by lia. case_bool_decide as Hoff.
  - split; [done|]. intros [t ->]. rewrite string_length_app in Hoff. lia.
  - fold (prefix_match s
            (string_drop
               (Z.to_nat (Z.of_nat (String.length serial)
                          - Z.of_nat (String.length s))) serial)).
    rewrite prefix_match_spec.
    replace (Z.to_nat (Z.of_nat (String.length serial)
                       - Z.of_nat (String.length s)))
      with (String.length serial - String.length s)%nat by lia.
    split.
    + intros [u E].
      destruct (string_drop_split (String.length serial - String.length s)
                  serial ltac:(lia)) as (t & E' & L).
      rewrite E in E'. exists t.
      assert (Hu : String.length u = 0%nat).
      { pose proof (f_equal String.length E') as HL.
        rewrite !string_length_app in HL. lia. }
      destruct u; [|done]. by rewrite string_app_nil_r in E'.
    + intros [t ->]. exists "". rewrite string_length_app.
      replace (String.length t + String.length s - String.length s)%nat
        with (String.length t) by lia.
      by rewrite string_drop_app, string_app_nil_r.
Qed.

(** A loop over the serials returns the first index the test accepts. *)
Lemma first_serial_Some (test : string → bool) devs : ∀ (i r : Z),
  first_serial test i devs = Some r
  ↔ ∃ (n : nat) d,
      r = i + Z.of_nat n ∧ devs !! n = Some d ∧ test (dev_serial d) = true
      ∧ ∀ (m : nat) d', (m < n)%nat → devs !! m = Some d' →
          test (dev_serial d') = false.
Proof.
  induction devs as [|d0 devs IH]; intros i r; cbn [first_serial].
  - split; [done|]. by intros (n & d & _ & ? & _).
  - destruct (test (dev_serial d0)) eqn:T.
    + split.
      * intros [= <-]. exists 0%nat, d0. repeat split; [lia | done | lia].
      * intros (n & d & -> & Hn & Ht & Hfirst).
        destruct n as [|n]; [f_equal; lia|].
        specialize (Hfirst 0%nat d0 ltac:(lia) eq_refl). congruence.
    + rewrite IH. split.
      * intros (n & d & -> & Hn & Ht & Hfirst).
        exists (S n), d. repeat split; [lia | done | done |].
        intros [|m] d' Hm Hd'; cbn in Hd'; [congruence|].
        apply (Hfirst m); [lia | done].
      * intros (n & d & -> & Hn & Ht & Hfirst).
        destruct n as [|n]; [cbn in Hn; congruence|].
        exists n, d. repeat split; [lia | done | done |].
        intros m d' Hm Hd'. apply (Hfirst (S m)); [lia | done].
Qed.

Lemma first_serial_None (test : string → bool) devs : ∀ (i : Z),
  first_serial test i devs = None
  ↔ ∀ d, d ∈ devs → test (dev_serial d) = false.
Proof.
  induction devs as [|d0 devs IH]; intros i; cbn [first_serial].
  - split; [|done]. by intros _ d ?%elem_of_nil.
  - destruct (test (dev_serial d0)) eqn:T.
    + split; [done|]. intros Hall.
      specialize (Hall d0 ltac:(apply list_elem_of_here)). congruence.
    + rewrite IH. split.
      * intros Hall d [->|Hd]%elem_of_cons; [done | by apply Hall].
      * intros Hall d Hd. apply Hall. by apply list_elem_of_further.
Qed.

Lemma first_serial_range (test : string → bool) devs (r : Z) :
  first_serial test 0 devs = Some r → 0 ≤ r < Z.of_nat (length devs).
Proof.
  intros (n & d & -> & Hn & _)%first_serial_Some.
  apply lookup_lt_Some in Hn. lia.
Qed.

Lemma to_int_le (z : Z) : 0 ≤ z → Mach.to_int z ≤ z.
Proof.
  intros Hz. unfold Mach.to_int, Mach.int_bits. change (32 - 1) with 31.
  pose proof (Z.mod_le (z + 2 ^ 31) (2 ^ 32) ltac:(lia) ltac:(lia)). lia.
Qed.

Lemma verbose_device_search_range s (parsed : strtol_result) devs :
  (verbose_device_search s parsed devs).1 = -1
  ∨ 0 ≤ (verbose_device_search s parsed devs).1 < Z.of_nat (length devs).
Proof.
  unfold verbose_device_search.
  pose proof (to_int_le (Z.of_nat (length devs)) ltac:(lia)) as Hle.
  set (count := Mach.to_int (Z.of_nat (length devs))) in *.
  assert (Htake : Z.of_nat (length (take (Z.to_nat count) devs))
                  ≤ Z.of_nat (length devs)).
  { rewrite length_take. lia. }
  case_bool_decide; [by left|].
  case_bool_decide as Hraw; [right; cbn; lia|].
  destruct (first_serial (exact_match s) 0 _) as [r|] eqn:E1.
  { apply first_serial_range in E1. right. cbn. lia. }
  destruct (first_serial (prefix_match s) 0 _) as [r|] eqn:E2.
  { apply first_serial_range in E2. right. cbn. lia. }
  destruct (first_serial (suffix_match s) 0 _) as [r|] eqn:E3.
  { apply first_serial_range in E3. right. cbn. lia. }
  by left.
Qed.

(** The search when the device count fits an [int] and the string is not
    taken as a raw id. *)
Lemma verbose_device_search_serials s (parsed : strtol_result) devs :
  devs ≠ [] → Z.of_nat (length devs) < 2 ^ 31 →
  ¬ (strtol_rest parsed = ""
     ∧ 0 ≤ Mach.to_int (strtol_value parsed) < Z.of_nat (length devs)) →
  (verbose_device_search s parsed devs).1
  = match first_serial (exact_match s) 0 devs with
    | Some i => i
    | None =>
        match first_serial (prefix_match s) 0 devs with
        | Some i => i
        | None => default (-1) (first_serial (suffix_match s) 0 devs)
        end
    end.
Proof.
  intros Hne Hlen Hraw. unfold verbose_device_search.
  rewrite to_int_small by lia. rewrite Nat2Z.id, firstn_all.
  rewrite bool_decide_eq_false_2 by (destruct devs; cbn; [done | lia]).
  rewrite bool_decide_eq_false_2 by (intros (? & ? & ?); apply Hraw; done).
  repeat case_match; done.
Qed.

Lemma verbose_device_search_raw s (parsed : strtol_result) devs :
  Z.of_nat (length devs) < 2 ^ 31 →
  strtol_rest parsed = "" →
  0 ≤ Mach.to_int (strtol_value parsed) < Z.of_nat (length devs) →
  (verbose_device_search s parsed devs).1 = Mach.to_int (strtol_value parsed).
Proof.
  intros Hlen Hrest Hv. unfold verbose_device_search.
  rewrite to_int_small by lia.
  rewrite bool_decide_eq_false_2 by lia.
  by rewrite bool_decide_eq_true_2 by (split; [done | lia]).
Qed.

End DeviceSearch.

Section DeviceSearchSpec.
Implicit Types (s serial t : string) (devs : list device) (d : device).

Lemma first_serial_first_index (test : string → bool) (P : string → Prop)
    devs (n : nat) :
  (∀ d, d ∈ devs → test (dev_serial d) = true ↔ P (dev_serial d)) →
  first_index P devs n → first_serial test 0 devs = Some (Z.of_nat n).
Proof.
  intros Hspec (d & Hd & HP & Hfirst). apply first_serial_Some.
  exists n, d. split; [lia|]. split; [done|]. split.
  - apply Hspec; [by eapply list_elem_of_lookup_2 | done].
  - intros m d' Hm Hd'. apply not_true_iff_false. intros Ht.
    apply (Hfirst m d' Hm Hd'), Hspec; [by eapply list_elem_of_lookup_2 | done].
Qed.

Lemma first_serial_none_of (test : string → bool) (P : string → Prop) devs :
  (∀ d, d ∈ devs → test (dev_serial d) = true ↔ P (dev_serial d)) →
  first_serial test 0 devs = None ↔ ∀ d, d ∈ devs → ¬ P (dev_serial d).
Proof.
  intros Hspec. rewrite first_serial_None. split; intros Hall d Hd.
  - intros HP. apply Hspec in HP; [|done]. rewrite Hall in HP; done.
  - apply not_true_iff_false. intros Ht. by apply (Hall d Hd), Hspec.
Qed.

Section Fixed.
Variables (s : string) (parsed : strtol_result) (devs : list device).
Hypothesis Hcount : Z.of_nat (length devs) < 2 ^ 31.
Hypothesis Hs : Z.of_nat (String.length s) < 2 ^ 31.
Hypothesis Hserials :
  Forall (λ d, (String.length (dev_serial d) < 256)%nat) devs.

Lemma exact_on_devs d :
  d ∈ devs → exact_match s (dev_serial d) = true ↔ dev_serial d = s.
Proof. intros _. apply exact_match_spec. Qed.

Lemma prefix_on_devs d :
  d ∈ devs → prefix_match s (dev_serial d) = true ↔ starts_with s (dev_serial d).
Proof. intros _. apply prefix_match_spec. Qed.

Lemma suffix_on_devs d :
  d ∈ devs → suffix_match s (dev_serial d) = true ↔ ends_with s (dev_serial d).
Proof.
  intros Hd. apply suffix_match_spec; [done|].
  rewrite Forall_forall in Hserials. specialize (Hserials d Hd). lia.
Qed.

Lemma exact_starts d : dev_serial d = s → starts_with s (dev_serial d).
Proof. intros ->. exists "". by rewrite string_app_nil_r. Qed.

Lemma no_exact :
  first_serial (exact_match s) 0 devs = None
  ↔ ∀ d, d ∈ devs → dev_serial d ≠ s.
Proof.
  apply (first_serial_none_of (exact_match s) (λ x, x = s)), exact_on_devs.
Qed.

Lemma no_prefix :
  first_serial (prefix_match s) 0 devs = None
  ↔ ∀ d, d ∈ devs → ¬ starts_with s (dev_serial d).
Proof.
  apply (first_serial_none_of (prefix_match s) (starts_with s)), prefix_on_devs.
Qed.

Lemma no_suffix :
  first_serial (suffix_match s) 0 devs = None
  ↔ ∀ d, d ∈ devs → ¬ ends_with s (dev_serial d).
Proof.
  apply (first_serial_none_of (suffix_match s) (ends_with s)), suffix_on_devs.
Qed.

Lemma first_exact (n : nat) :
  first_index (λ serial, serial = s) devs n →
  first_serial (exact_match s) 0 devs = Some (Z.of_nat n).
Proof. apply first_serial_first_index, exact_on_devs. Qed.

Lemma first_prefix (n : nat) :
  first_index (starts_with s) devs n →
  first_serial (prefix_match s) 0 devs = Some (Z.of_nat n).
Proof. apply first_serial_first_index, prefix_on_devs. Qed.

Lemma first_suffix (n : nat) :
  first_index (ends_with s) devs n →
  first_serial (suffix_match s) 0 devs = Some (Z.of_nat n).
Proof. apply first_serial_first_index, suffix_on_devs. Qed.

Lemma search_priority :
  (raw_id parsed devs →
     (verbose_device_search s parsed devs).1
     = Mach.to_int (strtol_value parsed))
  ∧ (¬ raw_id parsed devs →
     ∀ n, first_index (λ serial, serial = s) devs n →
       (verbose_device_search s parsed devs).1 = Z.of_nat n)
  ∧ (¬ raw_id parsed devs →
     (∀ d, d ∈ devs → dev_serial d ≠ s) →
     ∀ n, first_index (starts_with s) devs n →
       (verbose_device_search s parsed devs).1 = Z.of_nat n)
  ∧ (¬ raw_id parsed devs →
     (∀ d, d ∈ devs → ¬ starts_with s (dev_serial d)) →
     ∀ n, first_index (ends_with s) devs n →
       (verbose_device_search s parsed devs).1 = Z.of_nat n).
Proof.
  split; [|split; [|split]].
  - intros [Hrest Hv]. by apply verbose_device_search_raw.
  - intros Hraw n Hn.
    assert (devs ≠ []) by (destruct Hn as (d & Hd & _); by destruct devs).
    rewrite verbose_device_search_serials by done.
    by rewrite (first_exact n Hn).
  - intros Hraw Hex n Hn.
    assert (devs ≠ []) by (destruct Hn as (d & Hd & _); by destruct devs).
    rewrite verbose_device_search_serials by done.
    rewrite (proj2 no_exact)
      by exact Hex.
    by rewrite (first_prefix n Hn).
  - intros Hraw Hpre n Hn.
    assert (devs ≠ []) by (destruct Hn as (d & Hd & _); by destruct devs).
    rewrite verbose_device_search_serials by done.
    rewrite (proj2 no_exact)
      by (intros d Hd E; apply (Hpre d Hd), exact_starts; exact E).
    rewrite (proj2 no_prefix) by done.
    by rewrite (first_suffix n Hn).
Qed.

Lemma search_fails_iff :
  (verbose_device_search s parsed devs).1 = -1
  ↔ ¬ raw_id parsed devs
    ∧ ∀ d, d ∈ devs →
        ¬ starts_with s (dev_serial d) ∧ ¬ ends_with s (dev_serial d).
Proof.
  destruct (decide (devs = [])) as [->|Hne].
  { split; [|done]. intros _. split; [intros [_ Hv]; cbn in Hv; lia|].
    by intros d ?%elem_of_nil. }
  split.
  - intros Hr.
    assert (Hraw : ¬ raw_id parsed devs).
    { intros Hraw. pose proof Hraw as [_ Hv].
      rewrite (proj1 search_priority Hraw) in Hr. lia. }
    split; [done|]. rewrite verbose_device_search_serials in Hr by done.
    destruct (first_serial (exact_match s) 0 devs) as [r|] eqn:E1.
    { apply first_serial_range in E1. lia. }
    destruct (first_serial (prefix_match s) 0 devs) as [r|] eqn:E2.
    { apply first_serial_range in E2. lia. }
    destruct (first_serial (suffix_match s) 0 devs) as [r|] eqn:E3.
    { apply first_serial_range in E3. cbn in Hr. lia. }
    intros d Hd. split.
    + by apply (proj1 no_prefix E2).
    + by apply (proj1 no_suffix E3).
  - intros [Hraw Hall]. rewrite verbose_device_search_serials by done.
    rewrite (proj2 no_exact)
      by (intros d Hd E; apply (proj1 (Hall d Hd)), exact_starts; exact E).
    rewrite (proj2 no_prefix)
      by (intros d Hd; apply (Hall d Hd)).
    rewrite (proj2 no_suffix)
      by (intros d Hd; apply (Hall d Hd)).
    done.
Qed.

End Fixed.
End DeviceSearchSpec.

(** X17. Whatever the string and the devices, [verbose_device_search]
    returns [-1] or the index of a device of the list: [main] can hand
    every result that is not negative to [rtlsdr_open]. *)
Theorem verbose_device_search_index_in_range (s : string)
    (parsed : strtol_result) (devs : list device) :
  (verbose_device_search s parsed devs).1 = -1
  ∨ 0 ≤ (verbose_device_search s parsed devs).1 < Z.of_nat (length devs).
Proof. apply verbose_device_search_range. Qed.

(** X18. The order of the search. A string that [strtol] reads to its end
    as the index of a device selects that device, whatever the serials
    are. Otherwise the first device whose serial is the string is
    selected; if there is none, the first whose serial starts with the
    string; if there is none, the first whose serial ends with it.
    (The device count and the length of the string fit an [int]; a
    serial fits the buffer of 256 characters.) *)
Theorem verbose_device_search_priority (s : string) (parsed : strtol_result)
    (devs : list device) :
  Z.of_nat (length devs) < 2 ^ 31 →
  Z.of_nat (String.length s) < 2 ^ 31 →
  Forall (λ d, (String.length (dev_serial d) < 256)%nat) devs →
  (raw_id parsed devs →
     (verbose_device_search s parsed devs).1
     = Mach.to_int (strtol_value parsed))
  ∧ (¬ raw_id parsed devs →
     ∀ n, first_index (λ serial, serial = s) devs n →
       (verbose_device_search s parsed devs).1 = Z.of_nat n)
  ∧ (¬ raw_id parsed devs →
     (∀ d, d ∈ devs → dev_serial d ≠ s) →
     ∀ n, first_index (starts_with s) devs n →
       (verbose_device_search s parsed devs).1 = Z.of_nat n)
  ∧ (¬ raw_id parsed devs →
     (∀ d, d ∈ devs → ¬ starts_with s (dev_serial d)) →
     ∀ n, first_index (ends_with s) devs n →
       (verbose_device_search s parsed devs).1 = Z.of_nat n).
Proof. apply search_priority. Qed.

Lemma verbose_device_search_priority_witness :
  (raw_id (Strtol 102 "") Devices.dongles →
     (verbose_device_search "102" (Strtol 102 "") Devices.dongles).1
     = Mach.to_int (strtol_value (Strtol 102 "")))
  ∧ (¬ raw_id (Strtol 102 "") Devices.dongles →
     ∀ n, first_index (λ serial, serial = "102") Devices.dongles n →
       (verbose_device_search "102" (Strtol 102 "") Devices.dongles).1
       = Z.of_nat n)
  ∧ (¬ raw_id (Strtol 102 "") Devices.dongles →
     (∀ d, d ∈ Devices.dongles → dev_serial d ≠ "102") →
     ∀ n, first_index (starts_with "102") Devices.dongles n →
       (verbose_device_search "102" (Strtol 102 "") Devices.dongles).1
       = Z.of_nat n)
  ∧ (¬ raw_id (Strtol 102 "") Devices.dongles →
     (∀ d, d ∈ Devices.dongles → ¬ starts_with "102" (dev_serial d)) →
     ∀ n, first_index (ends_with "102") Devices.dongles n →
       (verbose_device_search "102" (Strtol 102 "") Devices.dongles).1
       = Z.of_nat n).
Proof.
  apply (verbose_device_search_priority "102" (Strtol 102 "") Devices.dongles);
    [reflexivity | reflexivity | repeat constructor; cbn; lia].
Defined.

(** X19. [verbose_device_search] returns [-1] exactly when the string is
    not taken as the index of a device and no serial starts or ends with
    it (an empty list of devices included). *)
Theorem verbose_device_search_fails_iff (s : string) (parsed : strtol_result)
    (devs : list device) :
  Z.of_nat (length devs) < 2 ^ 31 →
  Z.of_nat (String.length s) < 2 ^ 31 →
  Forall (λ d, (String.length (dev_serial d) < 256)%nat) devs →
  (verbose_device_search s parsed devs).1 = -1
  ↔ ¬ raw_id parsed devs
    ∧ ∀ d, d ∈ devs →
        ¬ starts_with s (dev_serial d) ∧ ¬ ends_with s (dev_serial d).
Proof. apply search_fails_iff. Qed.

Lemma verbose_device_search_fails_iff_witness :
  (verbose_device_search "7" (Strtol 7 "") Devices.dongles).1 = -1
  ↔ ¬ raw_id (Strtol 7 "") Devices.dongles
    ∧ ∀ d, d ∈ Devices.dongles →
        ¬ starts_with "7" (dev_serial d) ∧ ¬ ends_with "7" (dev_serial d).
Proof.
  apply (verbose_device_search_fails_iff "7" (Strtol 7 "") Devices.dongles);
    [reflexivity | reflexivity | repeat constructor; cbn; lia].
Defined.

(** ** The first read *)

Lemma producer_two_reads {Q : Type} `{RingBuffer Q (list iq_t)}
    (cfg : config) (pf : string) (dev1 dev2 : read_sync) (w : world) (orb : Q) (j : nat) :
  fft_size cfg = 2 ^ Z.of_nat j → (j ≤ 13)%nat →
  sync_status dev1 = 0 → sync_n_read dev1 = IQBUF_SIZE →
  sync_status dev2 = 0 → sync_n_read dev2 = IQBUF_SIZE →
  Z.of_nat (length (sync_bytes dev2)) = IQBUF_SIZE →
  counter w = 0 →
  ∃ w2 orb2,
    producer cfg pf dev1 w orb = Some (true, World (fp w) (err w) 1, orb)
    ∧ producer cfg pf dev2 (World (fp w) (err w) 1) orb = Some (true, w2, orb2)
    ∧ fp w2 = fp w ++ ((λ n, line_at (sync_bytes dev2) (2 * n))
                         <$> seqZ 0 (IQBUF_SIZE / 2)).
Proof.
  intros HF Hj Hs1 Hn1 Hs2 Hn2 Hlen2 Hc.
  destruct (producer_full_read cfg pf dev2 (World (fp w) (err w) 1) orb j
              HF Hj Hs2 Hn2 Hlen2) as (w2 & orb2 & Hrun & Hfp);
    [cbn; unfold IDLE_LOOPS_NUM; lia|].
  exists w2, orb2. split; [|done].
  unfold producer. rewrite bool_decide_eq_false_2 by (intros ?; done).
  rewrite Hn1. rewrite bool_decide_eq_false_2 by (intros E; apply E; done).
  rewrite bool_decide_eq_true_2 by (unfold IDLE_LOOPS_NUM; lia).
  by rewrite Hc.
Qed.

(** X20. The first full read after the start is thrown away. With the
    counter at 0 the acquisition stage returns [true] on a full read
    without writing a line or offering a buffer, whatever the bytes are;
    the output file begins with the samples of the second read. *)
Theorem producer_drops_first_full_read {Q : Type} `{RingBuffer Q (list iq_t)}
    (cfg : config) (pf : string) (dev1 dev2 : read_sync) (w : world) (orb : Q) (j : nat) :
  fft_size cfg = 2 ^ Z.of_nat j → (j ≤ 13)%nat →
  sync_status dev1 = 0 → sync_n_read dev1 = IQBUF_SIZE →
  sync_status dev2 = 0 → sync_n_read dev2 = IQBUF_SIZE →
  Z.of_nat (length (sync_bytes dev2)) = IQBUF_SIZE →
  counter w = 0 →
  ∃ w2 orb2,
    producer cfg pf dev1 w orb = Some (true, World (fp w) (err w) 1, orb)
    ∧ producer cfg pf dev2 (World (fp w) (err w) 1) orb = Some (true, w2, orb2)
    ∧ fp w2 = fp w ++ ((λ n, line_at (sync_bytes dev2) (2 * n))
                         <$> seqZ 0 (IQBUF_SIZE / 2)).
Proof. apply producer_two_reads. Qed.

Lemma producer_drops_first_full_read_witness :
  ∃ w2 orb2,
    producer (Sample.cfg 2048) Sample.pretty_function (ReadSync 0 IQBUF_SIZE []) (World [] [] 0)
      Sample.empty_queue
    = Some (true, World (fp (World [] [] 0)) (err (World [] [] 0)) 1,
            Sample.empty_queue)
    ∧ producer (Sample.cfg 2048) Sample.pretty_function Sample.full_read
        (World (fp (World [] [] 0)) (err (World [] [] 0)) 1) Sample.empty_queue
      = Some (true, w2, orb2)
    ∧ fp w2 = fp (World [] [] 0)
              ++ ((λ n, line_at (sync_bytes Sample.full_read) (2 * n))
                    <$> seqZ 0 (IQBUF_SIZE / 2)).
Proof.
  apply (producer_drops_first_full_read (Sample.cfg 2048) Sample.pretty_function
           (ReadSync 0 IQBUF_SIZE []) Sample.full_read (World [] [] 0)
           Sample.empty_queue 11);
    [reflexivity | lia | reflexivity | reflexivity | reflexivity | reflexivity
    | vm_compute; reflexivity | reflexivity].
Defined.

(** ** Sizes that are not powers of two *)

Section OtherSizes.
Context {C : Type} `{Numeric C}.
Implicit Types (iq e : list C).












End OtherSizes.



(** ** The search main asks for *)

Lemma search_for_zero (d : device) (rest : list device) :
  Z.of_nat (length (d :: rest)) < 2 ^ 31 →
  verbose_device_search "0" (Strtol 0 "") (d :: rest)
  = (0,
     ["Found " +:+ pretty (Z.of_nat (length (d :: rest))) +:+ " device(s):"]
     ++ imap (λ i d', device_line (Z.of_nat i) d') (d :: rest)
     ++ [""; "Using device 0: " +:+ dev_name d]).
Proof.
  intros Hlen. unfold verbose_device_search.
  rewrite to_int_small by lia. rewrite Nat2Z.id, firstn_all.
  rewrite bool_decide_eq_false_2 by (cbn [length]; lia).
  cbn [strtol_rest strtol_value]. change (Mach.to_int 0) with 0.
  rewrite bool_decide_eq_true_2 by (cbn [length]; split; [done | lia]).
  f_equal. rewrite <- !app_assoc. done.
Qed.

(** X22. The one search [main] asks for, [verbose_device_search("0")]:
    [strtol] reads the string to its end as 0, so with at least one
    device the function lists the devices, announces device 0 by its
    name and returns 0, never looking at a serial; with no device it
    writes one line and returns [-1]. *)
Theorem main_searches_for_device_zero (devs : list device) :
  Z.of_nat (length devs) < 2 ^ 31 →
  verbose_device_search "0" (Strtol 0 "") devs
  = match devs with
    | [] => (-1, ["No supported devices found"])
    | d :: _ =>
        (0,
         ["Found " +:+ pretty (Z.of_nat (length devs)) +:+ " device(s):"]
         ++ imap (λ i d', device_line (Z.of_nat i) d') devs
         ++ [""; "Using device 0: " +:+ dev_name d])
    end.
Proof.
  intros Hlen. destruct devs as [|d rest]; [done|]. by apply search_for_zero.
Qed.

Lemma main_searches_for_device_zero_witness :
  verbose_device_search "0" (Strtol 0 "") Devices.dongles
  = (0,
     ["Found " +:+ pretty (Z.of_nat (length Devices.dongles)) +:+ " device(s):"]
     ++ imap (λ i d', device_line (Z.of_nat i) d') Devices.dongles
     ++ [""; "Using device 0: " +:+ "Generic RTL2832U OEM"]).
Proof.
  apply (main_searches_for_device_zero Devices.dongles). reflexivity.
Defined.

(** ** The transform of a constant buffer *)

Section Tabulate.
Context {A : Type}.
Implicit Types (f g : Z → A).

Lemma tabulate_length f (N : Z) : 0 ≤ N → Z.of_nat (length (tabulate f N)) = N.
Proof. intros HN. unfold tabulate. rewrite length_fmap, length_seqZ. lia. Qed.

Lemma tabulate_get f (N i : Z) :
  0 ≤ i < N → get (tabulate f N) i = Some (f i).
Proof.
  intros Hi. unfold get, tabulate. rewrite bool_decide_eq_true_2 by lia.
  rewrite list_lookup_fmap, lookup_seqZ_lt by lia. cbn.
  rewrite Z2Nat.id by lia. done.
Qed.

Lemma tabulate_ext f g (N : Z) :
  (∀ i, 0 ≤ i < N → f i = g i) → tabulate f N = tabulate g N.
Proof.
  intros E. unfold tabulate. apply list_fmap_ext.
  intros _ i Hi%list_elem_of_lookup_2%elem_of_seqZ. apply E. lia.
Qed.

Lemma tabulate_of_gets (l : list A) f (N : Z) :
  Z.of_nat (length l) = N → (∀ i, 0 ≤ i < N → get l i = Some (f i)) →
  l = tabulate f N.
Proof.
  intros Hlen G. apply get_ext.
  - apply Nat2Z.inj. rewrite tabulate_length; lia.
  - intros i Hi. rewrite G, tabulate_get by lia. done.
Qed.

End Tabulate.

Section ButterflyTabulate.
Context {C : Type} `{Numeric C}.

Lemma butterfly_tabulate (e : list C) (f : Z → C) (N mh j r : Z) (w : C) :
  0 ≤ r + j → 0 < mh → r + j + mh < N → get e j = Some w →
  butterfly e mh j r (tabulate f N)
  = Some (tabulate
            (λ p, if decide (p = r + j + mh)
                  then num_sub (f (r + j)) (num_mul (f (r + j + mh)) w)
                  else if decide (p = r + j)
                       then num_add (f (r + j)) (num_mul (f (r + j + mh)) w)
                       else f p) N).
Proof.
  intros Hrj Hmh HN He. unfold butterfly.
  rewrite (tabulate_get f N (r + j)) by lia.
  rewrite (tabulate_get f N (r + j + mh)) by lia.
  rewrite He. cbn [mbind option_bind].
  destruct (set_in_range (tabulate f N) (r + j)
              (num_add (f (r + j)) (num_mul (f (r + j + mh)) w)))
    as (iq1 & E1 & L1); [rewrite tabulate_length; lia|].
  rewrite E1. cbn [mbind option_bind].
  destruct (set_in_range iq1 (r + j + mh)
              (num_sub (f (r + j)) (num_mul (f (r + j + mh)) w)))
    as (iq2 & E2 & L2); [rewrite L1, tabulate_length; lia|].
  rewrite E2. f_equal. apply tabulate_of_gets.
  - rewrite L2, L1, tabulate_length; lia.
  - intros i Hi. rewrite (get_set _ _ _ _ i E2).
    destruct (decide (i = r + j + mh)); [done|].
    rewrite (get_set _ _ _ _ i E1).
    destruct (decide (i = r + j)); [done|]. by apply tabulate_get.
Qed.

(** A butterfly that finds its two entries equal to [z], with [z * w = z]
    and [z + z = z], [z - z = z], leaves the buffer. *)
Lemma butterfly_idle (e : list C) (iq : list C) (mh j r : Z) (w z : C) :
  get iq (r + j) = Some z → get iq (r + j + mh) = Some z →
  get e j = Some w →
  num_mul z w = z → num_add z z = z → num_sub z z = z →
  butterfly e mh j r iq = Some iq.
Proof.
  intros G1 G2 He Hm Ha Hs. unfold butterfly.
  rewrite G1, G2, He. cbn [mbind option_bind]. rewrite Hm, Ha, Hs.
  rewrite (set_same iq (r + j) z G1). cbn [mbind option_bind].
  by apply set_same.
Qed.

End ButterflyTabulate.

Section Constant.
Implicit Types (c w : iq_t) (e : list iq_t).

Lemma mul_one_r (x : iq_t) : Complex.mul x (iq Q15 0) = x.
Proof.
  destruct x as [[a] [b]]. unfold Complex.mul, iq, Fixq15.Q15.
  cbn [Complex.real Complex.imag sc_add sc_sub sc_mul Fixq15.fixq15_scalar].
  unfold Fixq15.add, Fixq15.sub, Fixq15.mul. cbn [Fixq15.value].
  by rewrite !shiftr_Q15, !shiftr_zero, Z.sub_0_r, Z.add_0_l.
Qed.

Lemma scale_add (z : Z) c : Complex.add (scale z c) (scale z c) = scale (2 * z) c.
Proof.
  unfold scale, Complex.add, iq.
  cbn [Complex.real Complex.imag sc_add Fixq15.fixq15_scalar].
  unfold Fixq15.add. cbn [Fixq15.value]. do 2 f_equal; lia.
Qed.

Lemma scale_sub (z : Z) c : Complex.sub (scale z c) (scale z c) = iq 0 0.
Proof.
  unfold scale, Complex.sub, iq.
  cbn [Complex.real Complex.imag sc_sub Fixq15.fixq15_scalar].
  unfold Fixq15.sub. cbn [Fixq15.value]. by rewrite !Z.sub_diag.
Qed.

Lemma scale_1 c : scale 1 c = c.
Proof.
  destruct c as [[a] [b]]. unfold scale, iq. cbn [Complex.real Complex.imag Fixq15.value].
  by rewrite !Z.mul_1_l.
Qed.

Section Pass.
Variables (c : iq_t) (e : list iq_t) (k : nat) (s : Z).
Hypothesis Hk : (k ≤ 30)%nat.
Hypothesis Hs : 0 ≤ s < Z.of_nat k.
Hypothesis He0 : get e 0 = Some (iq Q15 0).
Hypothesis Hlen : 2 ^ Z.of_nat k ≤ 2 * Z.of_nat (length e).

#[local] Notation "'N'" := (2 ^ Z.of_nat k).
#[local] Notation "'mh'" := (2 ^ s).
#[local] Notation "'m'" := (2 ^ (s + 1)).
#[local] Notation "'K'" := (2 ^ (Z.of_nat k - s - 1)).

Lemma pass_sizes : 0 < mh ∧ m = 2 * mh ∧ 0 < K ∧ N = K * m ∧ N < 2 ^ 31.
Proof.
  split; [apply Z.pow_pos_nonneg; lia|].
  split; [rewrite Z.pow_add_r, Z.pow_1_r by lia; lia|].
  split; [apply Z.pow_pos_nonneg; lia|].
  split; [rewrite <- Z.pow_add_r by lia; f_equal; lia|].
  apply Z.pow_lt_mono_r; lia.
Qed.

Lemma mod_in_block (q p : Z) :
  q * m ≤ p < (q + 1) * m → p ≠ q * m → p ≠ q * m + mh →
  p mod mh ≠ 0 ∧ p mod m ≠ 0.
Proof.
  destruct pass_sizes as (Hmh & Hm & _). intros Hp H1 H2. split.
  - intros [t Ht]%Z.mod_divide; [|lia].
    assert (2 * q ≤ t) by nia. assert (t < 2 * q + 2) by nia.
    assert (t = 2 * q ∨ t = 2 * q + 1) as [-> | ->] by lia; lia.
  - intros [t Ht]%Z.mod_divide; [|lia].
    assert (q ≤ t) by nia. assert (t < q + 1) by nia.
    assert (t = q) as -> by lia. lia.
Qed.

Lemma mod_at_block (q : Z) :
  (q * m) mod mh = 0 ∧ (q * m + mh) mod mh = 0
  ∧ (q * m) mod m = 0 ∧ (q * m + mh) mod m ≠ 0.
Proof.
  destruct pass_sizes as (Hmh & Hm & _).
  split; [apply Z.mod_divide; [lia|]; exists (2 * q); lia|].
  split; [apply Z.mod_divide; [lia|]; exists (2 * q + 1); lia|].
  split; [apply Z.mod_divide; [lia|]; exists q; lia|].
  intros [t Ht]%Z.mod_divide; [|lia].
  assert (q ≤ t) by nia. assert (t < q + 1) by nia.
  assert (t = q) as -> by lia. lia.
Qed.

(** The butterfly [j = 0] of block [q]. *)
Lemma butterfly_comb (q : Z) :
  0 ≤ q < K →
  butterfly e mh 0 (q * m) (tabulate (comb_upto c s q) N)
  = Some (tabulate (comb_upto c s (q + 1)) N).
Proof.
  destruct pass_sizes as (Hmh & Hm & HK & HN & H31). intros Hq.
  rewrite (butterfly_tabulate e _ N mh 0 (q * m) (iq Q15 0));
    [| nia | lia | nia | done].
  f_equal. apply tabulate_ext. intros p Hp.
  destruct (mod_at_block q) as (M1 & M2 & M3 & M4).
  replace (q * m + 0) with (q * m) by lia.
  assert (Eu : comb_upto c s q (q * m) = scale mh c).
  { unfold comb_upto, comb. rewrite bool_decide_eq_false_2 by lia.
    by rewrite bool_decide_eq_true_2. }
  assert (Ex : comb_upto c s q (q * m + mh) = scale mh c).
  { unfold comb_upto, comb. rewrite bool_decide_eq_false_2 by lia.
    by rewrite bool_decide_eq_true_2. }
  rewrite Eu, Ex. cbn [num_add num_sub num_mul Complex.complex_numeric].
  rewrite mul_one_r, scale_add, scale_sub.
  destruct (decide (p = q * m + mh)) as [->|Hp1].
  { unfold comb_upto, comb. rewrite bool_decide_eq_true_2 by lia.
    by rewrite bool_decide_eq_false_2. }
  destruct (decide (p = q * m)) as [->|Hp2].
  { unfold comb_upto, comb. rewrite bool_decide_eq_true_2 by lia.
    rewrite bool_decide_eq_true_2 by done. by rewrite Hm. }
  unfold comb_upto.
  destruct (decide (p < q * m)) as [Hlt|Hge].
  { by rewrite !bool_decide_eq_true_2 by lia. }
  rewrite (bool_decide_eq_false_2 (p < q * m)) by done.
  destruct (decide (p < (q + 1) * m)) as [Hin|Hout].
  - rewrite bool_decide_eq_true_2 by done.
    destruct (mod_in_block q p ltac:(lia) Hp2 Hp1) as [B1 B2].
    unfold comb. by rewrite !bool_decide_eq_false_2.
  - by rewrite bool_decide_eq_false_2.
Qed.

(** The loop over the blocks for [j = 0]. *)
Lemma block_loop_comb (cnt : nat) : ∀ q : Z,
  0 ≤ q → q + Z.of_nat cnt = K →
  fold_opt (butterfly e mh 0) ((λ i, 0 + i * m) <$> seqZ q (Z.of_nat cnt))
    (tabulate (comb_upto c s q) N)
  = Some (tabulate (comb_upto c s K) N).
Proof.
  induction cnt as [|cnt IH]; intros q Hq Hcnt.
  - cbn. do 2 f_equal. f_equal. lia.
  - rewrite seqZ_cons by lia. cbn [fmap list_fmap fold_opt].
    replace (0 + q * m) with (q * m) by lia.
    rewrite butterfly_comb by lia. cbn [mbind option_bind].
    replace (Z.pred (Z.of_nat (S cnt))) with (Z.of_nat cnt) by lia.
    replace (Z.succ q) with (q + 1) by lia. apply IH; lia.
Qed.

Lemma comb_upto_0 : tabulate (comb_upto c s 0) N = tabulate (comb c s) N.
Proof.
  apply tabulate_ext. intros i Hi. unfold comb_upto.
  by rewrite bool_decide_eq_false_2 by lia.
Qed.

Lemma comb_upto_K : tabulate (comb_upto c s K) N = tabulate (comb c (s + 1)) N.
Proof.
  destruct pass_sizes as (Hmh & Hm & HK & HN & H31).
  apply tabulate_ext. intros i Hi. unfold comb_upto.
  by rewrite bool_decide_eq_true_2 by lia.
Qed.

(** The loops over the blocks for [j >= 1] find zeros only. *)
Lemma block_loop_rest (j : Z) :
  0 < j < mh →
  for_range 0 (Mach.to_int N) (mh * 2) (butterfly e mh j)
    (tabulate (comb c (s + 1)) N)
  = Some (tabulate (comb c (s + 1)) N).
Proof.
  destruct pass_sizes as (Hmh & Hm & HK & HN & H31). intros Hj.
  rewrite to_int_small by lia. rewrite for_range_indices by lia.
  apply fold_opt_fixed.
  intros r (q & -> & Hq0 & Hqlt)%elem_of_loop_indices; [|lia].
  assert (Hq : q < K) by nia.
  assert (Hmhe : mh ≤ Z.of_nat (length e)) by nia.
  destruct (get_in_range e j) as [w Hw]; [lia|].
  assert (Z1 : comb c (s + 1) (0 + q * (mh * 2) + j) = iq 0 0).
  { unfold comb. rewrite bool_decide_eq_false_2; [done|].
    intros [t Ht]%Z.mod_divide; [|lia].
    assert (q ≤ t) by nia. assert (t < q + 1) by nia.
    assert (t = q) as -> by lia. lia. }
  assert (Z2 : comb c (s + 1) (0 + q * (mh * 2) + j + mh) = iq 0 0).
  { unfold comb. rewrite bool_decide_eq_false_2; [done|].
    intros [t Ht]%Z.mod_divide; [|lia].
    assert (q ≤ t) by nia. assert (t < q + 1) by nia.
    assert (t = q) as -> by lia. lia. }
  apply (butterfly_idle e _ mh j _ w (iq 0 0)); [| | done | | |].
  - rewrite tabulate_get by nia. by rewrite Z1.
  - rewrite tabulate_get by nia. by rewrite Z2.
  - apply mul_zero_l.
  - reflexivity.
  - reflexivity.
Qed.

Lemma fft_pass_comb :
  fft_pass e N s (tabulate (comb c s) N) = Some (tabulate (comb c (s + 1)) N).
Proof.
  destruct pass_sizes as (Hmh & Hm & HK & HN & H31).
  unfold fft_pass. rewrite Z.shiftl_1_l, for_range_1, Z.sub_0_r.
  rewrite seqZ_cons by lia. cbn [fold_opt].
  rewrite to_int_small by lia. rewrite for_range_indices by lia.
  unfold loop_indices.
  replace ((N - 0 + mh * 2 - 1) / (mh * 2)) with K.
  2:{ rewrite HN, Hm. replace (K * (2 * mh) - 0 + mh * 2 - 1)
        with (K * (mh * 2) + (mh * 2 - 1)) by lia.
      rewrite Z.div_add_l by lia. rewrite (Z.div_small (mh * 2 - 1)) by lia.
      lia. }
  replace (mh * 2) with m by lia.
  rewrite <- comb_upto_0.
  pose proof (block_loop_comb (Z.to_nat K) 0 ltac:(lia) ltac:(lia)) as Hb.
  rewrite Z2Nat.id in Hb by lia. rewrite Hb. cbn [mbind option_bind].
  rewrite comb_upto_K. apply fold_opt_fixed.
  intros j Hj%elem_of_seqZ. rewrite <- (to_int_small N) at 1 by lia.
  replace m with (mh * 2) by lia. apply block_loop_rest. lia.
Qed.

End Pass.

Lemma fft_passes_comb c e (k : nat) :
  (k ≤ 30)%nat → get e 0 = Some (iq Q15 0) →
  2 ^ Z.of_nat k ≤ 2 * Z.of_nat (length e) →
  ∀ (cnt : nat) (s : Z), 0 ≤ s → s + Z.of_nat cnt = Z.of_nat k →
    fold_opt (fft_pass e (2 ^ Z.of_nat k)) (seqZ s (Z.of_nat cnt))
      (tabulate (comb c s) (2 ^ Z.of_nat k))
    = Some (tabulate (comb c (Z.of_nat k)) (2 ^ Z.of_nat k)).
Proof.
  intros Hk He0 Hlen. induction cnt as [|cnt IH]; intros s Hs Hcnt.
  - cbn. do 3 f_equal. lia.
  - rewrite seqZ_cons by lia. cbn [fold_opt].
    rewrite (fft_pass_comb c e k s) by (lia || done).
    cbn [mbind option_bind].
    replace (Z.pred (Z.of_nat (S cnt))) with (Z.of_nat cnt) by lia.
    replace (Z.succ s) with (s + 1) by lia. apply IH; lia.
Qed.

Lemma reorder_constant c (k : nat) :
  (k ≤ 30)%nat →
  fft_reorder_samples (tabulate (λ _, c) (2 ^ Z.of_nat k)) (2 ^ Z.of_nat k)
  = Some (tabulate (λ _, c) (2 ^ Z.of_nat k)).
Proof.
  intros Hk. pose proof (pow2_pos k) as Hp.
  destruct (fft_reorder_samples_log_spec k
              (tabulate (λ _, c) (2 ^ Z.of_nat k)) Hk)
    as (out & log & Hrun & L & G & _); [apply tabulate_length; lia|].
  unfold fft_reorder_samples. rewrite Hrun. cbn. f_equal.
  apply get_ext; [done|]. intros i Hi.
  rewrite L, tabulate_length in Hi by lia.
  rewrite G by done. pose proof (bitrev_range k i) as Hr.
  by rewrite !tabulate_get by lia.
Qed.

Lemma fft_constant c e (k : nat) :
  (k ≤ 30)%nat → get e 0 = Some (iq Q15 0) →
  2 ^ Z.of_nat k ≤ 2 * Z.of_nat (length e) →
  ∃ out,
    fft (replicate (Z.to_nat (2 ^ Z.of_nat k)) c) e (2 ^ Z.of_nat k) = Some out
    ∧ ∀ i, 0 ≤ i < 2 ^ Z.of_nat k →
        get out i
        = Some (if decide (i = 2 ^ Z.of_nat k / 2)
                then scale (2 ^ Z.of_nat k) c else iq 0 0).
Proof.
  intros Hk He0 Hlen. pose proof (pow2_pos k) as Hp.
  assert (Hrep : replicate (Z.to_nat (2 ^ Z.of_nat k)) c
                 = tabulate (λ _, c) (2 ^ Z.of_nat k)).
  { apply tabulate_of_gets; [rewrite length_replicate; lia|].
    intros i Hi. unfold get. rewrite bool_decide_eq_true_2 by lia.
    apply lookup_replicate_2. lia. }
  rewrite Hrep. unfold fft. rewrite reorder_constant by done.
  cbn [mbind option_bind]. unfold ilog2. rewrite Z.log2_pow2 by lia.
  rewrite for_range_1, Z.sub_0_r.
  assert (H0 : tabulate (λ _, c) (2 ^ Z.of_nat k)
               = tabulate (comb c 0) (2 ^ Z.of_nat k)).
  { apply tabulate_ext. intros i Hi. unfold comb.
    change (2 ^ 0) with 1. rewrite Z.mod_1_r.
    by rewrite bool_decide_eq_true_2, scale_1. }
  rewrite H0.
  rewrite (fft_passes_comb c e k Hk He0 Hlen k 0) by lia.
  cbn [mbind option_bind].
  destruct (fft_reorder_coefficients_any (2 ^ Z.of_nat k)
              (tabulate (comb c (Z.of_nat k)) (2 ^ Z.of_nat k)))
    as (out & -> & L & G); [lia | apply tabulate_length; lia |].
  exists out. split; [done|]. intros i Hi. rewrite G by done.
  pose proof (Z.mul_div_le (2 ^ Z.of_nat k) 2 ltac:(lia)) as Hh.
  assert (Hh0 : 0 ≤ 2 ^ Z.of_nat k / 2) by (apply Z.div_pos; lia).
  destruct k as [|k'].
  - change (2 ^ Z.of_nat 0) with 1 in *. change (1 / 2) with 0 in *.
    assert (i = 0) as -> by lia. cbn. done.
  - rewrite pow2_S in *. replace (2 * 2 ^ Z.of_nat k' / 2) with (2 ^ Z.of_nat k') in *
      by (rewrite Z.mul_comm, Z.div_mul; lia).
    pose proof (pow2_pos k') as Hp'.
    assert (Hmod : ∀ p, 0 ≤ p < 2 * 2 ^ Z.of_nat k' →
              comb c (Z.of_nat (S k')) p
              = if decide (p = 0) then scale (2 * 2 ^ Z.of_nat k') c
                else iq 0 0).
    { intros p Hp0. unfold comb. rewrite pow2_S, Z.mod_small by lia.
      destruct (decide (p = 0)); [by rewrite bool_decide_eq_true_2
                                 | by rewrite bool_decide_eq_false_2]. }
    repeat case_bool_decide; rewrite tabulate_get by lia;
      rewrite Hmod by lia; f_equal;
      repeat case_decide; try done; lia.
Qed.

End Constant.

(** X23. The transform of a constant buffer is the one bin of frequency
    zero, and that bin sits in the middle: for [N = 2^k] and a table of
    at least [N / 2] entries that starts with [(Q15, 0)] (as the table
    of [main] does), [fft] of [N] times the sample [c] holds [N] times
    [c] at index [N / 2] and zero at every other index. *)
Theorem fft_constant_is_the_middle_bin (c : iq_t) (e : list iq_t) (k : nat) :
  (k ≤ 30)%nat → get e 0 = Some (iq Q15 0) →
  2 ^ Z.of_nat k ≤ 2 * Z.of_nat (length e) →
  ∃ out,
    fft (replicate (Z.to_nat (2 ^ Z.of_nat k)) c) e (2 ^ Z.of_nat k) = Some out
    ∧ ∀ i, 0 ≤ i < 2 ^ Z.of_nat k →
        get out i
        = Some (if decide (i = 2 ^ Z.of_nat k / 2)
                then scale (2 ^ Z.of_nat k) c else iq 0 0).
Proof. apply fft_constant. Qed.

Lemma fft_constant_is_the_middle_bin_witness :
  ∃ out,
    fft (replicate (Z.to_nat (2 ^ Z.of_nat 3)) (iq 768 (-256))) Sample.e8
      (2 ^ Z.of_nat 3) = Some out
    ∧ ∀ i, 0 ≤ i < 2 ^ Z.of_nat 3 →
        get out i
        = Some (if decide (i = 2 ^ Z.of_nat 3 / 2)
                then scale (2 ^ Z.of_nat 3) (iq 768 (-256)) else iq 0 0).
Proof.
  apply (fft_constant_is_the_middle_bin (iq 768 (-256)) Sample.e8 3);
    [lia | reflexivity | vm_compute; discriminate].
Defined.
